(** * Cylindrical panorama stitcher: the geometric and statistical core

    A shallow embedding of the translation estimator ([alignment/ransac.py]),
    the sequence accumulator and canvas compositor ([stitching/blending.py]),
    the drift corrector ([stitching/drift.py]), the border trim
    ([stitching/crop.py]) and the stage sequencing of [pipeline.py]; and,
    around this core, of the cylindrical projector and the focal length
    estimate from EXIF ([warping/cylindrical.py]), the ratio test and the
    point extraction of the matcher ([alignment/matcher.py]), the focal
    length selection of [pipeline.py], and the pixel accumulation of the
    compositor.

    Python floats and NumPy float arrays are modelled through an arithmetic
    interface [Arith] with two instances: exact real arithmetic ([R]) and
    IEEE-754 binary64 (Rocq's primitive floats: Python's [float] and
    NumPy's [float64]; the pipeline's own point arrays are [float32], which
    rounds more coarsely still).  Loop and control-flow properties are
    proved for every instance; properties that depend on exactness or on a
    total order are proved for [R]; the binary64 instance evaluates the
    code on concrete inputs with the rounding of the machine.

    The file has two parts: the model (definitions only), then the
    properties. *)

From Stdlib Require Import PrimFloat.
From Stdlib Require Uint63 SpecFloat FloatOps.
From Stdlib Require Import String.
From Stdlib Require Import List Bool Arith ZArith Lia.
From Stdlib Require Import Permutation Sorted.
From Stdlib Require Import Reals Lra.
Import ListNotations.

Set Implicit Arguments.

(** * Part I: the model *)

(** ** Exceptions *)

Inductive exn : Set :=
| ValueError
| OverflowError
| IndexError.

Inductive result (A : Type) : Type :=
| Ok (a : A)
| Raise (e : exn).

Arguments Ok {A} a.
Arguments Raise {A} e.

Definition bind {A B} (m : result A) (k : A -> result B) : result B :=
  match m with
  | Ok a => k a
  | Raise e => Raise e
  end.

Notation "x <- m ;; k" := (bind m (fun x => k))
  (at level 61, m at next level, right associativity).

(** ** Arithmetic interface *)

(** The operations the source applies to floating-point values.  [fofZ] is
    the promotion of a Python [int] to a float, [flt] is [<], [fpi] is
    [np.pi]; [below_inf x] is [x < float("inf")] and [above_neg_inf x] is
    [float("-inf") < x], the two comparisons a running minimum and a
    running maximum start with. *)
Class Arith (F : Type) : Type := {
  fofZ  : Z -> F;
  fadd  : F -> F -> F;
  fsub  : F -> F -> F;
  fmul  : F -> F -> F;
  fdiv  : F -> F -> F;
  fsqrt : F -> F;
  flt   : F -> F -> bool;
  fpi   : F;
  below_inf     : F -> bool;
  above_neg_inf : F -> bool
}.

(** Conversions of a float to a Python [int]: [int(np.ceil(x))] and
    [int(np.round(x))] (round half to even).  [int()] raises
    [OverflowError] on an infinity and [ValueError] on a NaN. *)
Class Rounding (F : Type) : Type := {
  fceil  : F -> result Z;
  fround : F -> result Z
}.

Declare Scope arith_scope.
Delimit Scope arith_scope with A.
Infix "+!" := fadd (at level 50, left associativity) : arith_scope.
Infix "-!" := fsub (at level 50, left associativity) : arith_scope.
Infix "*!" := fmul (at level 40, left associativity) : arith_scope.
Infix "/!" := fdiv (at level 40, left associativity) : arith_scope.
Infix "<!" := flt (at level 70, no associativity) : arith_scope.
Open Scope arith_scope.

Definition fzero {F} `{Arith F} : F := fofZ 0.

Definition fofnat {F} `{Arith F} (n : nat) : F := fofZ (Z.of_nat n).

(** Python's built-in [min(a, b)] and [max(a, b)]: the first argument is
    kept unless the second is strictly smaller (strictly larger). *)
Definition pymin {F} `{Arith F} (a b : F) : F := if b <! a then b else a.

Definition pymax {F} `{Arith F} (a b : F) : F := if a <! b then b else a.

(** *** Exact real arithmetic *)

Definition Rltb (x y : R) : bool := if Rlt_dec x y then true else false.

(** Greatest integer below or equal to [x], from the standard library's
    [up] (the integer with [x < up x <= x + 1]). *)
Definition Rfloor (x : R) : Z := (up x - 1)%Z.

Definition Rceil (x : R) : Z := (- Rfloor (- x))%Z.

(** [np.round]: nearest integer, a tie going to the even neighbour. *)
Definition Rround_half_even (x : R) : Z :=
  let lo := Rfloor x in
  let frac := (x - IZR lo)%R in
  if Rltb frac (1 / 2)%R then lo
  else if Rltb (1 / 2)%R frac then (lo + 1)%Z
  else if Z.even lo then lo else (lo + 1)%Z.

#[export] Instance R_arith : Arith R := {
  fofZ  := IZR;
  fadd  := Rplus;
  fsub  := Rminus;
  fmul  := Rmult;
  fdiv  := Rdiv;
  fsqrt := R_sqrt.sqrt;
  flt   := Rltb;
  fpi   := PI;
  below_inf     := fun _ => true;
  above_neg_inf := fun _ => true
}.

#[export] Instance R_rounding : Rounding R := {
  fceil  := fun x => Ok (Rceil x);
  fround := fun x => Ok (Rround_half_even x)
}.

(** *** IEEE-754 binary64 *)

Module Binary64.

(** Promotion of an integer, as CPython's [int.__float__] does it, for the
    magnitudes that fit 63 bits (counts, image sizes, small literals). *)
Definition of_Z (z : Z) : PrimFloat.float :=
  match z with
  | Z0 => PrimFloat.of_uint63 (Uint63.of_Z 0)
  | Zpos _ => PrimFloat.of_uint63 (Uint63.of_Z z)
  | Zneg p => PrimFloat.opp (PrimFloat.of_uint63 (Uint63.of_Z (Zpos p)))
  end.

(** [np.pi], the binary64 value nearest to pi (3.141592653589793). *)
Definition np_pi : PrimFloat.float := (0x1.921fb54442d18p+1)%float.

#[global] Instance f64_arith : Arith PrimFloat.float := {
  fofZ  := of_Z;
  fadd  := PrimFloat.add;
  fsub  := PrimFloat.sub;
  fmul  := PrimFloat.mul;
  fdiv  := PrimFloat.div;
  fsqrt := PrimFloat.sqrt;
  flt   := PrimFloat.ltb;
  fpi   := np_pi;
  below_inf     := fun x => PrimFloat.ltb x PrimFloat.infinity;
  above_neg_inf := fun x => PrimFloat.ltb PrimFloat.neg_infinity x
}.

(** A finite float as a fraction [n / d] with [d > 0], read off its sign,
    mantissa and exponent; an infinity and a NaN are read as 0. *)
Definition to_fraction (x : PrimFloat.float) : Z * Z :=
  match FloatOps.Prim2SF x with
  | SpecFloat.S754_finite s m e =>
      let n := if s then Zneg m else Zpos m in
      match e with
      | Zneg k => (n, Z.pow_pos 2 k)
      | _ => ((n * 2 ^ e)%Z, 1%Z)
      end
  | _ => (0%Z, 1%Z)
  end.

(** Python's [int(x)] of a float [x] whose integer value is [n] when [x]
    is finite: [OverflowError] on an infinity, [ValueError] on a NaN. *)
Definition py_int (x : PrimFloat.float) (n : Z) : result Z :=
  match FloatOps.Prim2SF x with
  | SpecFloat.S754_infinity _ => Raise OverflowError
  | SpecFloat.S754_nan => Raise ValueError
  | _ => Ok n
  end.

(** [int(np.ceil(x))]. *)
Definition ceil (x : PrimFloat.float) : result Z :=
  let (n, d) := to_fraction x in py_int x (- ((- n) / d))%Z.

(** [int(np.round(x))]. *)
Definition round_half_even (x : PrimFloat.float) : result Z :=
  let (n, d) := to_fraction x in
  let lo := (n / d)%Z in
  py_int x
    match (2 * (n mod d) ?= d)%Z with
    | Lt => lo
    | Gt => (lo + 1)%Z
    | Eq => if Z.even lo then lo else (lo + 1)%Z
    end.

#[global] Instance f64_rounding : Rounding PrimFloat.float := {
  fceil  := ceil;
  fround := round_half_even
}.

(** A finite value: neither an infinity nor a NaN. *)
Definition finite (x : PrimFloat.float) : bool := PrimFloat.is_finite x.

End Binary64.

(** ** NumPy helpers *)

(** Elementwise operation on two index-aligned arrays. *)
Fixpoint zip_with {A B C} (f : A -> B -> C) (l1 : list A) (l2 : list B)
  : list C :=
  match l1, l2 with
  | a :: l1', b :: l2' => f a b :: zip_with f l1' l2'
  | _, _ => []
  end.

(** [np.sum(mask)] of a boolean array. *)
Definition count_true (mask : list bool) : nat :=
  length (filter (fun b => b) mask).

(** [a[mask]]: the entries of [a] at which the boolean mask is set. *)
Fixpoint select {A} (mask : list bool) (a : list A) : list A :=
  match mask, a with
  | b :: mask', x :: a' =>
      if b then x :: select mask' a' else select mask' a'
  | _, _ => []
  end.

(** [np.where(v)[0]]: the indices at which a boolean vector is set. *)
Definition np_where (v : list bool) : list nat :=
  filter (fun i => nth i v false) (seq 0 (length v)).

(** [a[lo:hi]] for [0 <= lo]. *)
Definition slice {A} (lo hi : nat) (a : list A) : list A :=
  firstn (hi - lo) (skipn lo a).

(** [np.median] of a one-dimensional float array: the middle order
    statistic, or the mean of the two middle ones; of an empty array, the
    mean of nothing ([0/0], a NaN in floating point). *)
Section Median.
Context {F : Type} `{Arith F}.

Fixpoint insert_sorted (x : F) (l : list F) : list F :=
  match l with
  | [] => [x]
  | y :: l' => if x <! y then x :: l else y :: insert_sorted x l'
  end.

Definition np_sort (a : list F) : list F := fold_right insert_sorted [] a.

Definition np_median (a : list F) : F :=
  let s := np_sort a in
  let n := length s in
  match n with
  | O => fzero /! fzero
  | _ =>
      if Nat.even n
      then (nth (n / 2 - 1) s fzero +! nth (n / 2) s fzero) /! fofZ 2
      else nth (n / 2) s fzero
  end.

End Median.

(** ** Sequence accumulator ([compute_cumulative_translations]) *)

Section Accumulator.
Context {F : Type} `{Arith F}.

(** The body of [for dx, dy in pairwise_translations]: [current_y -= dy],
    [current_x] untouched, the pair appended to [cumulative]. *)
Fixpoint cumulative_loop (current_x current_y : F) (pairwise : list (F * F))
  : list (F * F) :=
  match pairwise with
  | [] => []
  | (_, dy) :: rest =>
      let current_y' := current_y -! dy in
      (current_x, current_y') :: cumulative_loop current_x current_y' rest
  end.

Definition compute_cumulative_translations (pairwise : list (F * F))
  : list (F * F) :=
  (fzero, fzero) :: cumulative_loop fzero fzero pairwise.

End Accumulator.

(** ** Robust translation estimator ([estimate_pure_translation_ransac]) *)

(** The result dictionary of the estimator. *)
Record ransac_result (F : Type) : Type := {
  translation  : F * F;
  inliers      : list bool;
  num_inliers  : nat;
  inlier_ratio : F
}.

(** The loop variables [best_inliers], [best_translation], [best_mask]. *)
Record best (F : Type) : Type := {
  best_inliers     : nat;
  best_translation : F * F;
  best_mask        : list bool
}.

Section Ransac.
Context {F : Type} `{Arith F}.

(** The process-wide generator of [np.random], passed explicitly:
    [randint g high] is [np.random.randint(0, high)] with the generator's
    next state. *)
Context {rng : Type}.
Variable randint : rng -> nat -> nat * rng.

Definition origin : F * F := (fzero, fzero).

(** [(dx, dy)] of the sampled pair: [pts2[idx] - pts1[idx]]. *)
Definition hypothesis (pts1 pts2 : list (F * F)) (idx : nat) : F * F :=
  (fst (nth idx pts2 origin) -! fst (nth idx pts1 origin),
   snd (nth idx pts2 origin) -! snd (nth idx pts1 origin)).

(** [np.linalg.norm(v, axis=1)] on one row: [sqrt(x*x + y*y)]. *)
Definition np_norm (v : F * F) : F :=
  fsqrt (fst v *! fst v +! snd v *! snd v).

(** [np.linalg.norm((pts1 + [dx, dy]) - pts2, axis=1) < threshold]. *)
Definition inlier_mask (pts1 pts2 : list (F * F)) (threshold : F) (t : F * F)
  : list bool :=
  zip_with
    (fun p q =>
       np_norm ((fst p +! fst t) -! fst q, (snd p +! snd t) -! snd q)
       <! threshold)
    pts1 pts2.

(** One hypothesis against the running best: replaced only on a strictly
    larger inlier count. *)
Definition update_best (pts1 pts2 : list (F * F)) (threshold : F) (idx : nat)
  (b : best F) : best F :=
  let t := hypothesis pts1 pts2 idx in
  let mask := inlier_mask pts1 pts2 threshold t in
  let n := count_true mask in
  if (best_inliers b <? n)%nat
  then {| best_inliers := n; best_translation := t; best_mask := mask |}
  else b.

(** [for _ in range(max_iters)]. *)
Fixpoint ransac_loop (pts1 pts2 : list (F * F)) (threshold : F) (iters : nat)
  (g : rng) (b : best F) : best F * rng :=
  match iters with
  | O => (b, g)
  | S iters' =>
      let (idx, g') := randint g (length pts1) in
      ransac_loop pts1 pts2 threshold iters' g'
        (update_best pts1 pts2 threshold idx b)
  end.

Definition initial_best (n_points : nat) : best F :=
  {| best_inliers := 0;
     best_translation := (fzero, fzero);
     best_mask := repeat false n_points |}.

(** The median refinement over the points selected by the mask. *)
Definition refine (pts1 pts2 : list (F * F)) (mask : list bool) : F * F :=
  let inlier_pts1 := select mask pts1 in
  let inlier_pts2 := select mask pts2 in
  (np_median (zip_with fsub (map fst inlier_pts2) (map fst inlier_pts1)),
   np_median (zip_with fsub (map snd inlier_pts2) (map snd inlier_pts1))).

Definition estimate_pure_translation_ransac (pts1 pts2 : list (F * F))
  (threshold : F) (max_iters : nat) (g : rng) : ransac_result F * rng :=
  if (length pts1 <? 1)%nat
  then ({| translation := (fzero, fzero);
           inliers := [];
           num_inliers := 0;
           inlier_ratio := fzero |}, g)
  else
    let n_points := length pts1 in
    let (b, g') :=
      ransac_loop pts1 pts2 threshold max_iters g (initial_best n_points) in
    let best_translation' :=
      if (0 <? best_inliers b)%nat
      then refine pts1 pts2 (best_mask b)
      else best_translation b in
    let ratio :=
      if (0 <? n_points)%nat
      then fofnat (best_inliers b) /! fofnat n_points
      else fzero in
    ({| translation := best_translation';
        inliers := best_mask b;
        num_inliers := best_inliers b;
        inlier_ratio := ratio |}, g').

(** The indices the loop samples, in order. *)
Fixpoint samples (n_points iters : nat) (g : rng) : list nat :=
  match iters with
  | O => []
  | S iters' =>
      let (idx, g') := randint g n_points in
      idx :: samples n_points iters' g'
  end.

(** The inlier count a sampled index scores. *)
Definition score (pts1 pts2 : list (F * F)) (threshold : F) (idx : nat) : nat :=
  count_true (inlier_mask pts1 pts2 threshold (hypothesis pts1 pts2 idx)).

(** The loop seen as a left fold of [update_best] over sampled indices. *)
Definition run_best (pts1 pts2 : list (F * F)) (threshold : F)
  (idxs : list nat) (b : best F) : best F :=
  fold_left (fun b idx => update_best pts1 pts2 threshold idx b) idxs b.

(** The loop variables a hypothesis leaves when it becomes the best. *)
Definition winner (pts1 pts2 : list (F * F)) (threshold : F) (idx : nat)
  : best F :=
  {| best_inliers := score pts1 pts2 threshold idx;
     best_translation := hypothesis pts1 pts2 idx;
     best_mask := inlier_mask pts1 pts2 threshold (hypothesis pts1 pts2 idx) |}.

(** Whether the pair that generated a hypothesis is counted among the
    inliers of that hypothesis. *)
Definition own_pair_inlier (pts1 pts2 : list (F * F)) (threshold : F)
  (idx : nat) : bool :=
  nth idx (inlier_mask pts1 pts2 threshold (hypothesis pts1 pts2 idx)) false.

End Ransac.

(** A concrete generator for worked examples: a counter, reduced modulo the
    bound, so that every draw is in range. *)
Definition counter_randint (g n : nat) : nat * nat := (g mod n, S g)%nat.

(** Worked inputs in binary64.  One correspondence from x = 0.7 to x = 0.1
    with a threshold of 1e-17 (each written as the binary64 value the
    decimal literal denotes), and one from x = 1e18 to x = 100 for the
    default threshold 5.0. *)
Definition residue_pts1 : list (float * float) :=
  [(0x1.6666666666666p-1, 0)]%float.

Definition residue_pts2 : list (float * float) :=
  [(0x1.999999999999ap-4, 0)]%float.

Definition residue_threshold : float := (0x1.70ef54646d497p-57)%float.

Definition far_pts1 : list (float * float) := [(1e18, 0)]%float.

Definition far_pts2 : list (float * float) := [(100, 0)]%float.

(** ** Drift corrector ([stitching/drift.py]) *)

(** One entry of the pipeline's [translations] list. *)
Record pair_record (F : Type) : Type := {
  pair              : nat * nat;
  pair_translation  : F * F;
  num_matches       : nat;
  pair_num_inliers  : nat;
  pair_inlier_ratio : F
}.

(** The dictionary [correct_drift] returns. *)
Record drift_correction (F : Type) : Type := {
  corrected_focal_length : F;
  original_focal_length  : F;
  gap_angle              : F;
  gap_angle_degrees      : F;
  correction_per_pair    : F;
  num_images             : nat;
  correction_applied     : bool
}.

Section Drift.
Context {F : Type} `{Arith F}.

(** [np.degrees]. *)
Definition np_degrees (x : F) : F := x *! (fofZ 180 /! fpi).

(** Python's [sum], which starts from the integer 0. *)
Definition py_sum (l : list F) : F := fold_left fadd l fzero.

Definition correct_drift (translations : list (pair_record F))
  (first_last_translation : ransac_result F) (focal_length : F)
  (image_width : nat) : drift_correction F :=
  let n_images := (length translations + 1)%nat in
  let dy_gap := snd (translation first_last_translation) in
  let total_dy :=
    py_sum (map (fun t => snd (pair_translation t)) translations) in
  let theta_accumulated := total_dy /! focal_length in
  let theta_gap := dy_gap /! focal_length in
  let correction_per_pair := theta_gap /! fofnat n_images in
  let corrected_focal_length :=
    focal_length *! (fofZ 1 -! theta_gap /! (fofZ 2 *! fpi)) in
  {| corrected_focal_length := corrected_focal_length;
     original_focal_length := focal_length;
     gap_angle := theta_gap;
     gap_angle_degrees := np_degrees theta_gap;
     correction_per_pair := correction_per_pair;
     num_images := n_images;
     correction_applied := true |}.

Definition should_apply_drift_correction
  (first_last_match_quality : ransac_result F) (min_inlier_ratio : F) : bool :=
  if (num_inliers first_last_match_quality <? 10)%nat then false
  else if inlier_ratio first_last_match_quality <! min_inlier_ratio then false
  else true.

(** The default [min_inlier_ratio=0.3]: the float nearest to 3/10. *)
Definition default_min_inlier_ratio : F := fofZ 3 /! fofZ 10.

End Drift.

(** ** Images *)

(** An image is its rows of pixels; [shape] is [image.shape[:2]]. *)
Definition image (pixel : Type) : Type := list (list pixel).

Definition shape {pixel} (img : image pixel) : nat * nat :=
  (length img, length (hd [] img)).

(** ** Canvas compositor ([blend_images], [blend_average]) *)

(** What the placement loop does with image [i]: its clipped extent added
    to the canvas at an integer offset, or a warning and [continue]. *)
Inductive placement : Set :=
| Placed (i : nat) (x_offset y_offset h w : Z)
| Skipped (i : nat).

(** The canvas and the placements made on it.  The float32 accumulation of
    the placed pixels and their normalisation by the weight buffer are a
    function of this record and of the images, and are not expanded here. *)
Record composite : Set := {
  canvas_width  : Z;
  canvas_height : Z;
  placements    : list placement
}.

Section Compositor.
Context {F : Type} `{Arith F} `{Rounding F}.
Context {pixel : Type}.

(** [min(min_x, m)] on a bound that starts at [float("inf")]: [None] is
    the initial bound, which the first [m] below it replaces. *)
Definition lower_bound (acc : option F) (m : F) : option F :=
  match acc with
  | None => if below_inf m then Some m else None
  | Some a => Some (pymin a m)
  end.

(** [max(max_x, m)] on a bound that starts at [float("-inf")]. *)
Definition upper_bound (acc : option F) (m : F) : option F :=
  match acc with
  | None => if above_neg_inf m then Some m else None
  | Some a => Some (pymax a m)
  end.

(** One iteration of [compute_canvas_bounds] on
    [(min_x, max_x, min_y, max_y)]. *)
Definition bounds_step (acc : option F * option F * option F * option F)
  (it : image pixel * (F * F))
  : option F * option F * option F * option F :=
  let '(min_x, max_x, min_y, max_y) := acc in
  let (img, t) := it in
  let (h, w) := shape img in
  let (tx, ty) := t in
  (lower_bound min_x (pymin tx (tx +! fofnat w)),
   upper_bound max_x (pymax tx (tx +! fofnat w)),
   lower_bound min_y (pymin ty (ty +! fofnat h)),
   upper_bound max_y (pymax ty (ty +! fofnat h))).

Definition compute_canvas_bounds (images : list (image pixel))
  (translations : list (F * F))
  : option F * option F * option F * option F :=
  fold_left bounds_step (combine images translations)
    (None, None, None, None).

(** [int(np.ceil(hi - lo))].  While a bound is at its initial infinity the
    difference is [-inf] ([OverflowError]), unless the other bound is the
    same infinity, and the difference a NaN ([ValueError]). *)
Definition canvas_extent (hi lo : option F) : result Z :=
  match hi, lo with
  | Some a, Some b => fceil (a -! b)
  | None, None => Raise OverflowError
  | None, Some b =>
      if above_neg_inf b then Raise OverflowError else Raise ValueError
  | Some a, None =>
      if below_inf a then Raise OverflowError else Raise ValueError
  end.

(** The body of the placement loop for image [i], from the rounded offsets
    on: the clipping of the extent to the canvas, and the decision. *)
Definition place (cw ch : Z) (i : nat) (img : image pixel)
  (x_offset y_offset : Z) : placement :=
  let h := Z.of_nat (fst (shape img)) in
  let w := Z.of_nat (snd (shape img)) in
  let w := if (x_offset + w >? cw)%Z then (cw - x_offset)%Z else w in
  let h := if (y_offset + h >? ch)%Z then (ch - y_offset)%Z else h in
  let '(w, x_offset) :=
    if (x_offset <? 0)%Z then ((w + x_offset)%Z, 0%Z) else (w, x_offset) in
  let '(h, y_offset) :=
    if (y_offset <? 0)%Z then ((h + y_offset)%Z, 0%Z) else (h, y_offset) in
  if ((w <=? 0)%Z || (h <=? 0)%Z)%bool
  then Skipped i
  else Placed i x_offset y_offset h w.

(** The placement loop: the offsets of image [i] rounded to integers, then
    its placement. *)
Fixpoint place_loop (min_x min_y : F) (cw ch : Z) (i : nat)
  (items : list (image pixel * (F * F))) : result (list placement) :=
  match items with
  | [] => Ok []
  | (img, t) :: rest =>
      x_offset <- fround (fst t -! min_x) ;;
      y_offset <- fround (snd t -! min_y) ;;
      ps <- place_loop min_x min_y cw ch (S i) rest ;;
      Ok (place cw ch i img x_offset y_offset :: ps)
  end.

(** [blend_average].  An empty image list raises [ValueError]; a canvas
    dimension that is infinite or a NaN makes [int(np.ceil(...))] raise; a
    negative canvas dimension makes [np.zeros] raise [ValueError]; an
    offset that is infinite or a NaN makes [int(np.round(...))] raise.
    The loop is reached with both lower bounds replaced: a bound left at
    its initial infinity has made [canvas_extent] raise.  The memory the
    canvas takes is not modelled. *)
Definition blend_average (images : list (image pixel))
  (translations : list (F * F)) : result composite :=
  if (length images =? 0)%nat then Raise ValueError
  else
    let '(min_x, max_x, min_y, max_y) :=
      compute_canvas_bounds images translations in
    cw <- canvas_extent max_x min_x ;;
    ch <- canvas_extent max_y min_y ;;
    if ((cw <? 0)%Z || (ch <? 0)%Z)%bool then Raise ValueError
    else
      match min_x, min_y with
      | Some min_x, Some min_y =>
          ps <- place_loop min_x min_y cw ch 0
                  (combine images translations) ;;
          Ok {| canvas_width := cw;
                canvas_height := ch;
                placements := ps |}
      | _, _ => Raise OverflowError
      end.

Definition blend_linear (images : list (image pixel))
  (translations : list (F * F)) : result composite :=
  blend_average images translations.

Definition blend_images (images : list (image pixel))
  (translations : list (F * F)) (method : string) : result composite :=
  match images with
  | [] => Raise ValueError
  | _ =>
      if String.eqb method "average" then blend_average images translations
      else if String.eqb method "linear" then blend_linear images translations
      else if String.eqb method "multiband"
           then blend_average images translations
      else Raise ValueError
  end.

End Compositor.

(** Whether an image put at an integer offset has no pixel on a canvas
    [cw] wide and [ch] high: its extent and the canvas do not meet. *)
Definition no_pixel_on_canvas {pixel} (cw ch : Z) (img : image pixel)
  (x_offset y_offset : Z) : bool :=
  let h := Z.of_nat (fst (shape img)) in
  let w := Z.of_nat (snd (shape img)) in
  ((Z.min (x_offset + w) cw <=? Z.max x_offset 0)%Z
   || (Z.min (y_offset + h) ch <=? Z.max y_offset 0)%Z)%bool.

(** The tight bounding box of placed images, in real arithmetic: every
    image's corners lie inside the box and each side of the box is reached
    by some image. *)
Definition item_w {pixel} (it : image pixel * (R * R)) : R :=
  IZR (Z.of_nat (snd (shape (fst it)))).

Definition item_h {pixel} (it : image pixel * (R * R)) : R :=
  IZR (Z.of_nat (fst (shape (fst it)))).

Definition tight_bounding_box {pixel}
  (items : list (image pixel * (R * R))) (b : R * R * R * R) : Prop :=
  let '(min_x, max_x, min_y, max_y) := b in
  (forall it, In it items ->
     (min_x <= fst (snd it))%R
     /\ (fst (snd it) + item_w it <= max_x)%R
     /\ (min_y <= snd (snd it))%R
     /\ (snd (snd it) + item_h it <= max_y)%R)
  /\ (exists it, In it items /\ fst (snd it) = min_x)
  /\ (exists it, In it items /\ (fst (snd it) + item_w it)%R = max_x)
  /\ (exists it, In it items /\ snd (snd it) = min_y)
  /\ (exists it, In it items /\ (snd (snd it) + item_h it)%R = max_y).

(** ** Border trim ([crop_panorama]) *)

Section Crop.
Context {pixel : Type}.

(** The brightness [cv2.cvtColor(image, cv2.COLOR_BGR2GRAY)] gives a pixel
    (the pixel itself for a single-channel image). *)
Variable gray : pixel -> Z.

(** [gray > threshold], pixel by pixel. *)
Definition non_black_mask (img : image pixel) (threshold : Z)
  : list (list bool) :=
  map (map (fun p => (threshold <? gray p)%Z)) img.

(** [np.any(non_black, axis=1)]. *)
Definition any_rows (non_black : list (list bool)) : list bool :=
  map (existsb (fun b => b)) non_black.

(** [np.any(non_black, axis=0)] for rows of width [w]. *)
Definition any_cols (w : nat) (non_black : list (list bool)) : list bool :=
  map (fun x => existsb (fun row => nth x row false) non_black) (seq 0 w).

Definition crop_panorama (img : image pixel) (threshold : Z)
  : result (image pixel) :=
  let (h, w) := shape img in
  if (h * w =? 0)%nat then Raise ValueError
  else
    let non_black := non_black_mask img threshold in
    let rows := any_rows non_black in
    let cols := any_cols w non_black in
    if (negb (existsb (fun b => b) rows)
        || negb (existsb (fun b => b) cols))%bool
    then Ok img
    else
      let y_min := hd O (np_where rows) in
      let y_max := last (np_where rows) O in
      let x_min := hd O (np_where cols) in
      let x_max := last (np_where cols) O in
      Ok (map (slice x_min (x_max + 1)) (slice y_min (y_max + 1) img)).

(** The default [threshold=10]. *)
Definition default_threshold : Z := 10%Z.

(** Whether the image has a pixel at row [y], column [x] whose brightness
    exceeds the threshold. *)
Definition bright_at (img : image pixel) (threshold : Z) (y x : nat) : bool :=
  match nth_error img y with
  | Some row =>
      match nth_error row x with
      | Some p => (threshold <? gray p)%Z
      | None => false
      end
  | None => false
  end.

End Crop.

(** A worked canvas: one pixel of brightness 200 inside a black border 10
    pixels wide on every side (21 rows of 21 single-channel pixels). *)
Definition bordered_example : image Z :=
  repeat (repeat 0%Z 21) 10
  ++ [repeat 0%Z 10 ++ [200%Z] ++ repeat 0%Z 10]
  ++ repeat (repeat 0%Z 21) 10.

(** ** Pipeline ([PanoramaStitcher]) *)

(** The fields of the configuration the modelled stages read. *)
Record config (F : Type) : Type := {
  match_ratio_threshold   : F;
  ransac_threshold        : F;
  ransac_max_iters        : nat;
  enable_drift_correction : bool;
  blend_method            : string
}.

(** The warnings the stages log. *)
Inductive log_event : Set :=
| NotEnoughMatches (i : nat)
| DriftNotEnoughMatches
| DriftSkipped.

(** The stitcher object, with the generator of [np.random] and the log made
    explicit; [drift_json] is the record written to
    [drift_correction.json]. *)
Record stitcher (F pixel feat rng : Type) : Type := {
  images_data   : list (image pixel);
  warped_images : list (image pixel);
  features      : list feat;
  translations  : list (pair_record F);
  focal_length  : F;
  np_random     : rng;
  warnings      : list log_event;
  drift_json    : option (drift_correction F)
}.

Section Pipeline.
Context {F : Type} `{Arith F} `{Rounding F}.
Context {pixel feat dmatch rng : Type}.

(** The collaborators outside the core: the projector (whose sampling is
    [cv2.remap]; it returns for every focal length other than 0), the
    detector, the matcher with its ratio test, the extraction of matched
    coordinates, the random generator, the pixel accumulation of the
    compositor and the grayscale conversion. *)
Variable warp_cylindrical : image pixel -> F -> image pixel.
Variable extract_sift_features : image pixel -> feat.
Variable match_features : feat -> feat -> F -> list dmatch.
Variable extract_match_points :
  feat -> feat -> list dmatch -> list (F * F) * list (F * F).
Variable randint : rng -> nat -> nat * rng.
Variable render : list (image pixel) -> composite -> image pixel.
Variable gray : pixel -> Z.

Definition state : Type := stitcher F pixel feat rng.

(** Step 2: every loaded image warped with the current focal length. *)
Definition _warp_images (st : state) : state :=
  {| images_data := images_data st;
     warped_images :=
       map (fun img => warp_cylindrical img (focal_length st)) (images_data st);
     features := features st;
     translations := translations st;
     focal_length := focal_length st;
     np_random := np_random st;
     warnings := warnings st;
     drift_json := drift_json st |}.

(** Step 3: features of the warped images. *)
Definition _extract_features (st : state) : state :=
  {| images_data := images_data st;
     warped_images := warped_images st;
     features := map extract_sift_features (warped_images st);
     translations := translations st;
     focal_length := focal_length st;
     np_random := np_random st;
     warnings := warnings st;
     drift_json := drift_json st |}.

(** The entry appended for a pair with fewer than 4 matches. *)
Definition zero_translation_record (i n_matches : nat) : pair_record F :=
  {| pair := (i, S i);
     pair_translation := (fzero, fzero);
     num_matches := n_matches;
     pair_num_inliers := 0;
     pair_inlier_ratio := fzero |}.

(** The body of [for i in range(len(self.features) - 1)], from pair [i]
    on: the entries appended, the warnings logged, the generator left. *)
Fixpoint match_and_align_loop (cfg : config F) (i : nat) (feats : list feat)
  (g : rng) : list (pair_record F) * list log_event * rng :=
  match feats with
  | f1 :: ((f2 :: _) as rest) =>
      let matches := match_features f1 f2 (match_ratio_threshold cfg) in
      if (length matches <? 4)%nat
      then
        let '(recs, warns, g') := match_and_align_loop cfg (S i) rest g in
        (zero_translation_record i (length matches) :: recs,
         NotEnoughMatches i :: warns, g')
      else
        let (pts1, pts2) := extract_match_points f1 f2 matches in
        let (res, g1) :=
          estimate_pure_translation_ransac randint pts1 pts2
            (ransac_threshold cfg) (ransac_max_iters cfg) g in
        let '(recs, warns, g') := match_and_align_loop cfg (S i) rest g1 in
        ({| pair := (i, S i);
            pair_translation := translation res;
            num_matches := length matches;
            pair_num_inliers := num_inliers res;
            pair_inlier_ratio := inlier_ratio res |} :: recs,
         warns, g')
  | _ => ([], [], g)
  end.

(** Step 4. *)
Definition _match_and_align (cfg : config F) (st : state) : state :=
  let '(recs, warns, g') :=
    match_and_align_loop cfg 0 (features st) (np_random st) in
  {| images_data := images_data st;
     warped_images := warped_images st;
     features := features st;
     translations := recs;
     focal_length := focal_length st;
     np_random := g';
     warnings := warnings st ++ warns;
     drift_json := drift_json st |}.

(** Step 6.  [self.features[0]] and [self.warped_images[0]] raise
    [IndexError] on an empty list.  The corrected focal length is stored in
    [focal_length]; nothing else of the state changes. *)
Definition _apply_drift_correction (cfg : config F) (st : state)
  : result state :=
  match features st with
  | [] => Raise IndexError
  | f1 :: _ =>
      let f_last := last (features st) f1 in
      let matches := match_features f1 f_last (match_ratio_threshold cfg) in
      if (length matches <? 4)%nat
      then
        Ok {| images_data := images_data st;
              warped_images := warped_images st;
              features := features st;
              translations := translations st;
              focal_length := focal_length st;
              np_random := np_random st;
              warnings := warnings st ++ [DriftNotEnoughMatches];
              drift_json := drift_json st |}
      else
        let (pts1, pts_last) := extract_match_points f1 f_last matches in
        let (first_last_result, g') :=
          estimate_pure_translation_ransac randint pts1 pts_last
            (ransac_threshold cfg) (ransac_max_iters cfg) (np_random st) in
        if should_apply_drift_correction first_last_result
             default_min_inlier_ratio
        then
          match warped_images st with
          | [] => Raise IndexError
          | w0 :: _ =>
              let correction :=
                correct_drift (translations st) first_last_result
                  (focal_length st) (snd (shape w0)) in
              Ok {| images_data := images_data st;
                    warped_images := warped_images st;
                    features := features st;
                    translations := translations st;
                    focal_length := corrected_focal_length correction;
                    np_random := g';
                    warnings := warnings st;
                    drift_json := Some correction |}
          end
        else
          Ok {| images_data := images_data st;
                warped_images := warped_images st;
                features := features st;
                translations := translations st;
                focal_length := focal_length st;
                np_random := g';
                warnings := warnings st ++ [DriftSkipped];
                drift_json := drift_json st |}
  end.

(** The estimate between the first and the last image that step 6 feeds
    to the gate, when the two images have at least 4 matches. *)
Definition first_last_estimate (cfg : config F) (st : state)
  : option (ransac_result F * rng) :=
  match features st with
  | [] => None
  | f1 :: _ =>
      let f_last := last (features st) f1 in
      let matches := match_features f1 f_last (match_ratio_threshold cfg) in
      if (length matches <? 4)%nat then None
      else
        let (pts1, pts_last) := extract_match_points f1 f_last matches in
        Some (estimate_pure_translation_ransac randint pts1 pts_last
                (ransac_threshold cfg) (ransac_max_iters cfg) (np_random st))
  end.

(** Step 7: the compositor is handed [self.warped_images] and the
    accumulated placements. *)
Definition _blend_images (cfg : config F) (st : state)
  : result (image pixel) :=
  let pairwise_t := map (fun t => pair_translation t) (translations st) in
  let cumulative_t := compute_cumulative_translations pairwise_t in
  c <- blend_images (warped_images st) cumulative_t (blend_method cfg) ;;
  Ok (render (warped_images st) c).

(** Step 8, without the file written. *)
Definition _crop_and_save (panorama : image pixel) : result (image pixel) :=
  crop_panorama gray panorama default_threshold.

(** Steps 2 to 6 of [run], from the state [_load_images] leaves (step 5
    writes [translations.json] and changes nothing). *)
Definition run_to_drift (cfg : config F) (st : state) : result state :=
  let st := _warp_images st in
  let st := _extract_features st in
  let st := _match_and_align cfg st in
  if enable_drift_correction cfg
  then _apply_drift_correction cfg st
  else Ok st.

(** [run]: the final state and the cropped panorama. *)
Definition run (cfg : config F) (st : state) : result (state * image pixel) :=
  st' <- run_to_drift cfg st ;;
  panorama <- _blend_images cfg st' ;;
  final <- _crop_and_save panorama ;;
  Ok (st', final).

End Pipeline.

(** ** A worked pipeline instance in binary64 *)

(** Stand-ins for the collaborators: a projector that writes the focal
    length it is given into every pixel, a detector that keeps the image
    height, a matcher that returns as many matches as the two heights add
    up to, matched points all displaced by (0, 50), a renderer and a
    grayscale conversion. *)
Definition ex_warp (img : image float) (f : float) : image float :=
  map (map (fun _ => f)) img.

Definition ex_features (img : image float) : nat := length img.

Definition ex_match (f1 f2 : nat) (ratio : float) : list nat :=
  seq 0 (f1 + f2).

Definition ex_points (f1 f2 : nat) (matches : list nat)
  : list (float * float) * list (float * float) :=
  (map (fun k => (Binary64.of_Z (Z.of_nat k), 0%float)) matches,
   map (fun k => (Binary64.of_Z (Z.of_nat k), 50%float)) matches).

Definition ex_render (imgs : list (image float)) (c : composite)
  : image float := concat imgs.

Definition ex_gray (p : float) : Z := 255%Z.

Definition ex_config : config float :=
  {| match_ratio_threshold := (0x1.6666666666666p-1)%float;
     ransac_threshold := 5%float;
     ransac_max_iters := 20;
     enable_drift_correction := true;
     blend_method := "average" |}.

(** The stitcher as [_load_images] leaves it, at focal length 500. *)
Definition ex_loaded (imgs : list (image float))
  : stitcher float float nat nat :=
  {| images_data := imgs;
     warped_images := [];
     features := [];
     translations := [];
     focal_length := 500%float;
     np_random := 0%nat;
     warnings := [];
     drift_json := None |}.

(** The stitcher after steps 2 to 4. *)
Definition ex_aligned (imgs : list (image float))
  : stitcher float float nat nat :=
  _match_and_align ex_match ex_points counter_randint ex_config
    (_extract_features ex_features (_warp_images ex_warp (ex_loaded imgs))).

(** A one-column image of the given height. *)
Definition column (h : nat) : image float := repeat [1%float] h.

(** ** Python truth values and true division *)

(** [bool(x)] of a number: [x != 0] (a NaN is true). *)
Class Truth (F : Type) : Type := {
  ftruthy : F -> bool
}.

#[export] Instance R_truth : Truth R := {
  ftruthy := fun x => if Req_dec_T x 0 then false else true
}.

Definition f64_truthy (x : float) : bool := negb (PrimFloat.eqb x 0%float).

#[export] Instance f64_truth : Truth float := {
  ftruthy := f64_truthy
}.

(** The exceptions of the code below: those of [exn], and the
    [ZeroDivisionError] of Python's [/] on a zero divisor. *)
Inductive py_exn : Set :=
| Builtin (e : exn)
| ZeroDivisionError.

Inductive outcome (A : Type) : Type :=
| Returns (a : A)
| Raises (e : py_exn).

Arguments Returns {A} a.
Arguments Raises {A} e.

Definition and_then {A B} (m : outcome A) (k : A -> outcome B) : outcome B :=
  match m with
  | Returns a => k a
  | Raises e => Raises e
  end.

(** [a / b] on Python numbers. *)
Definition pydiv {F} `{Arith F} `{Truth F} (a b : F) : outcome F :=
  if ftruthy b then Returns (a /! b) else Raises ZeroDivisionError.

(** ** Cylindrical projector ([warp_cylindrical]) *)

(** A loop whose body may raise: the values of the iterations in order, or
    the first exception. *)
Fixpoint for_each {A B} (body : A -> outcome B) (l : list A)
  : outcome (list B) :=
  match l with
  | [] => Returns []
  | a :: l' =>
      and_then (body a) (fun b =>
      and_then (for_each body l') (fun bs => Returns (b :: bs)))
  end.

Section Warp.
Context {F : Type} `{Arith F} `{Truth F}.
Context {pixel : Type}.

(** The collaborators outside the repository: [np.cos] and [np.tan]; the
    rounding of a value stored in a [float32] array; and [cv2.remap] with
    [INTER_LINEAR] and [BORDER_CONSTANT], given by the value it computes
    for one destination pixel, the source sampled at a position. *)
Variable np_cos : F -> F.
Variable np_tan : F -> F.
Variable np_float32 : F -> F.
Variable sample : image pixel -> F -> F -> pixel.

(** [cv2.remap(src, map_x, map_y, ...)]: the destination has the size of
    the maps, and its pixel [(x, y)] is the source sampled at
    [(map_x[y, x], map_y[y, x])]. *)
Definition remap (src : image pixel) (map_x map_y : list (list F))
  : image pixel :=
  zip_with (zip_with (sample src)) map_x map_y.

(** The body of the two loops: [(x_planar, y_planar)] for the destination
    pixel [(x_cyl, y_cyl)].  The two divisions by the focal length are
    Python's, the division by [np.cos(theta)] is NumPy's. *)
Definition planar_position (focal_length : F) (center : F * F)
  (x_cyl y_cyl : nat) : outcome (F * F) :=
  let (xc, yc) := center in
  and_then (pydiv (fofnat y_cyl -! yc) focal_length) (fun theta =>
  and_then (pydiv (fofnat x_cyl -! xc) focal_length) (fun w_normalized =>
  Returns (focal_length *! w_normalized /! np_cos theta +! xc,
           focal_length *! np_tan theta +! yc))).

(** [map_x] and [map_y] for an image of [h] rows and [w] columns: the
    planar positions, stored as [float32]. *)
Definition coordinate_maps (focal_length : F) (center : F * F) (h w : nat)
  : outcome (list (list F) * list (list F)) :=
  and_then
    (for_each
       (fun y_cyl =>
          for_each (fun x_cyl => planar_position focal_length center x_cyl y_cyl)
                   (seq 0 w))
       (seq 0 h))
    (fun positions =>
       Returns (map (map (fun p => np_float32 (fst p))) positions,
                map (map (fun p => np_float32 (snd p))) positions)).

(** [center=None]: the image centre [(w / 2.0, h / 2.0)]. *)
Definition default_center (h w : nat) : F * F :=
  (fofnat w /! fofZ 2, fofnat h /! fofZ 2).

Definition warp_cylindrical (img : image pixel) (focal_length : F)
  (center : option (F * F)) : outcome (image pixel) :=
  let (h, w) := shape img in
  let c :=
    match center with
    | None => default_center h w
    | Some c => c
    end in
  and_then (coordinate_maps focal_length c h w) (fun maps =>
  Returns (remap img (fst maps) (snd maps))).

(** The source position the specification gives for a destination pixel:
    [x_src = f * u / cos(th) + xc] and [y_src = f * tan(th) + yc], with
    [th = (y_cyl - yc) / f] and [u = (x_cyl - xc) / f]. *)
Definition source_position (f : F) (center : F * F) (x_cyl y_cyl : nat)
  : F * F :=
  let (xc, yc) := center in
  let th := (fofnat y_cyl -! yc) /! f in
  let u := (fofnat x_cyl -! xc) /! f in
  (f *! u /! np_cos th +! xc, f *! np_tan th +! yc).

(** A position none of whose four neighbouring pixels belongs to the
    source: a full pixel or more to the left or above ([x <= -1],
    [y <= -1]), or beyond the last column or row ([x >= w], [y >= h]). *)
Definition beyond_border (src : image pixel) (x y : F) : bool :=
  let (h, w) := shape src in
  (negb (fofZ (-1) <! x) || negb (x <! fofnat w)
   || negb (fofZ (-1) <! y) || negb (y <! fofnat h))%bool.

End Warp.

(** *** Bilinear sampling in real arithmetic *)

(** The pixel of the source at an integer position, 0 outside the source
    ([BORDER_CONSTANT] with the default border value). *)
Definition pixel_or_border (src : image R) (y x : Z) : R :=
  let (h, w) := shape src in
  if ((y <? 0)%Z || (x <? 0)%Z
      || (Z.of_nat h <=? y)%Z || (Z.of_nat w <=? x)%Z)%bool
  then 0%R
  else nth (Z.to_nat x) (nth (Z.to_nat y) src []) 0%R.

(** Bilinear interpolation with a constant border, in exact arithmetic and
    without the rounding of the result to the pixel type: the four pixels
    around the position, weighted by the distances to them. *)
Definition bilinear (src : image R) (x y : R) : R :=
  let x0 := Rfloor x in
  let y0 := Rfloor y in
  let a := (x - IZR x0)%R in
  let b := (y - IZR y0)%R in
  ((1 - b) * ((1 - a) * pixel_or_border src y0 x0
              + a * pixel_or_border src y0 (x0 + 1))
   + b * ((1 - a) * pixel_or_border src (y0 + 1) x0
          + a * pixel_or_border src (y0 + 1) (x0 + 1)))%R.

(** A source of three rows and one column, every pixel 200. *)
Definition ex_source : image R := [[200%R]; [200%R]; [200%R]].

(** ** Feature matcher ([alignment/matcher.py]) *)

(** The fields of a [cv2.DMatch] the code reads. *)
Record DMatch (F : Type) : Type := {
  distance : F;
  queryIdx : nat;
  trainIdx : nat
}.

Section Matcher.
Context {F : Type} `{Arith F}.
Context {descriptors : Type}.

(** [matcher.knnMatch(descriptors1, descriptors2, k=2)] of the FLANN
    matcher and of the brute-force matcher: for every query descriptor, the
    neighbours found (at most 2), nearest first. *)
Variable flann_knnMatch : descriptors -> descriptors -> list (list (DMatch F)).
Variable bf_knnMatch : descriptors -> descriptors -> list (list (DMatch F)).

(** The loop [for match_pair in matches] of Lowe's ratio test. *)
Fixpoint ratio_test (ratio_threshold : F) (matches : list (list (DMatch F)))
  : list (DMatch F) :=
  match matches with
  | [] => []
  | match_pair :: rest =>
      match match_pair with
      | [m; n] =>
          if distance m <! ratio_threshold *! distance n
          then m :: ratio_test ratio_threshold rest
          else ratio_test ratio_threshold rest
      | _ => ratio_test ratio_threshold rest
      end
  end.

(** [None] descriptors (an image without keypoints) give no matches. *)
Definition match_features (descriptors1 descriptors2 : option descriptors)
  (ratio_threshold : F) (use_flann : bool) : list (DMatch F) :=
  match descriptors1, descriptors2 with
  | Some d1, Some d2 =>
      let matches :=
        if use_flann then flann_knnMatch d1 d2 else bf_knnMatch d1 d2 in
      ratio_test ratio_threshold matches
  | _, _ => []
  end.

(** Whether a neighbour list passes the test, and the match it yields. *)
Definition passes (ratio_threshold : F) (match_pair : list (DMatch F)) : bool :=
  match match_pair with
  | [m; n] => distance m <! ratio_threshold *! distance n
  | _ => false
  end.

(** [np.float32] applied to one coordinate. *)
Variable np_float32 : F -> F.

(** [[keypoints[idx(m)].pt for m in matches]]: a list index out of range
    raises [IndexError]. *)
Fixpoint points_at (keypoints : list (F * F)) (idx : DMatch F -> nat)
  (matches : list (DMatch F)) : result (list (F * F)) :=
  match matches with
  | [] => Ok []
  | m :: rest =>
      match nth_error keypoints (idx m) with
      | None => Raise IndexError
      | Some pt =>
          pts <- points_at keypoints idx rest ;;
          Ok ((np_float32 (fst pt), np_float32 (snd pt)) :: pts)
      end
  end.

Definition extract_match_points (keypoints1 keypoints2 : list (F * F))
  (matches : list (DMatch F)) : result (list (F * F) * list (F * F)) :=
  pts1 <- points_at keypoints1 (fun m => queryIdx m) matches ;;
  pts2 <- points_at keypoints2 (fun m => trainIdx m) matches ;;
  Ok (pts1, pts2).

End Matcher.

(** ** Focal length from EXIF ([estimate_focal_length_from_exif]) *)

(** The numeric entries of an EXIF dictionary, by key. *)
Definition exif_dict (F : Type) : Type := list (string * F).

Fixpoint lookup {A} (key : string) (d : list (string * A)) : option A :=
  match d with
  | [] => None
  | (k, v) :: rest => if String.eqb key k then Some v else lookup key rest
  end.

Section Exif.
Context {F : Type} `{Arith F} `{Truth F}.

(** The APS-C default [23.6]. *)
Definition aps_c_sensor_width : F := fofZ 236 /! fofZ 10.

(** The sensor width the code settles on when the argument is [None]:
    [36.0 / (focal_35mm / focal_mm)] when the 35 mm equivalent is present
    and positive, otherwise nothing yet. *)
Definition sensor_width_from_35mm (exif_data : exif_dict F) (focal_mm : F)
  : outcome (option F) :=
  match lookup "FocalLengthIn35mmFilm" exif_data with
  | Some focal_35mm =>
      if (ftruthy focal_35mm && (fzero <! focal_35mm))%bool
      then
        and_then (pydiv focal_35mm focal_mm) (fun crop_factor =>
        and_then (pydiv (fofZ 36) crop_factor) (fun sensor_width_mm =>
        Returns (Some sensor_width_mm)))
      else Returns None
  | None => Returns None
  end.

Definition estimate_focal_length_from_exif (exif_data : exif_dict F)
  (image_width : nat) (sensor_width_mm : option F) : outcome (option F) :=
  match lookup "FocalLengthValue" exif_data with
  | None => Returns None
  | Some focal_mm =>
      and_then
        (match sensor_width_mm with
         | Some s => Returns (Some s)
         | None => sensor_width_from_35mm exif_data focal_mm
         end)
        (fun sensor =>
           let sensor_width_mm :=
             match sensor with
             | Some s => s
             | None => aps_c_sensor_width
             end in
           and_then (pydiv (fofnat image_width) sensor_width_mm) (fun r =>
           Returns (Some (focal_mm *! r))))
  end.

End Exif.

(** ** Focal length selection ([PanoramaStitcher._load_images]) *)

(** The configuration fields step 1 reads. *)
Record load_config (F : Type) : Type := {
  config_focal_length  : option F;
  focal_length_source  : string;
  default_focal_length : F
}.

(** The dictionary written to [metadata.json]. *)
Record metadata (F : Type) : Type := {
  meta_num_images          : nat;
  meta_focal_length        : F;
  meta_focal_length_source : string;
  image_files              : list string
}.

Section LoadImages.
Context {F : Type} `{Arith F} `{Truth F}.
Context {pixel : Type}.

(** [if self.config.focal_length:] on an [Optional[float]]. *)
Definition cli_focal_length (cfg : load_config F) : option F :=
  match config_focal_length cfg with
  | Some f => if ftruthy f then Some f else None
  | None => None
  end.

(** Step 1 after [load_images] has returned [loaded], a list of
    [(image, filename, exif)]: the focal length chosen and the metadata. *)
Definition _load_images (cfg : load_config F)
  (loaded : list (image pixel * string * exif_dict F))
  : outcome (F * metadata F) :=
  and_then
    (match cli_focal_length cfg with
     | Some f => Returns f
     | None =>
         if String.eqb (focal_length_source cfg) "exif"
         then
           match loaded with
           | [] => Raises (Builtin IndexError)
           | (first_image, _, first_exif) :: _ =>
               let image_width := snd (shape first_image) in
               and_then
                 (estimate_focal_length_from_exif first_exif image_width None)
                 (fun estimated_f =>
                    match estimated_f with
                    | Some f =>
                        if ftruthy f then Returns f
                        else Returns (default_focal_length cfg)
                    | None => Returns (default_focal_length cfg)
                    end)
           end
         else Returns (default_focal_length cfg)
     end)
    (fun f =>
       Returns
         (f,
          {| meta_num_images := length loaded;
             meta_focal_length := f;
             meta_focal_length_source :=
               match cli_focal_length cfg with
               | Some _ => "cli"
               | None => focal_length_source cfg
               end;
             image_files := map (fun d => snd (fst d)) loaded |})).

End LoadImages.

(** ** The whole run ([PanoramaStitcher.run]) *)

(** An exception of [exn] among those of [py_exn]. *)
Definition of_result {A} (r : result A) : outcome A :=
  match r with
  | Ok a => Returns a
  | Raise e => Raises (Builtin e)
  end.

Section WholeRun.
Context {F : Type} `{Arith F} `{Rounding F} `{Truth F}.
Context {pixel feat dmatch rng : Type}.
Variable warp_cylindrical : image pixel -> F -> image pixel.
Variable extract_sift_features : image pixel -> feat.
Variable match_features : feat -> feat -> F -> list dmatch.
Variable extract_match_points :
  feat -> feat -> list dmatch -> list (F * F) * list (F * F).
Variable randint : rng -> nat -> nat * rng.
Variable render : list (image pixel) -> composite -> image pixel.
Variable gray : pixel -> Z.

(** The stitcher after step 1: the lists [__init__] left empty, the images
    [load_images] returned and the focal length chosen. *)
Definition loaded_stitcher
  (loaded : list (image pixel * string * exif_dict F)) (f : F) (g : rng)
  : stitcher F pixel feat rng :=
  {| images_data := map (fun d => fst (fst d)) loaded;
     warped_images := [];
     features := [];
     translations := [];
     focal_length := f;
     np_random := g;
     warnings := [];
     drift_json := None |}.

(** [run] from step 1 on, for the list [loaded] that [load_images]
    returned and the state [g] of the random generator. *)
Definition PanoramaStitcher_run (lcfg : load_config F) (cfg : config F)
  (loaded : list (image pixel * string * exif_dict F)) (g : rng)
  : outcome (stitcher F pixel feat rng * image pixel) :=
  and_then (_load_images lcfg loaded) (fun fm =>
  of_result
    (run warp_cylindrical extract_sift_features match_features
       extract_match_points randint render gray cfg
       (loaded_stitcher loaded (fst fm) g))).

End WholeRun.

(** ** Pixel accumulation of [blend_average] *)

(** A pixel of a three-channel [uint8] image, and the range of a channel. *)
Definition bgr : Set := (Z * Z * Z)%type.

Definition uint8 (p : bgr) : Prop :=
  let '(b, g, r) := p in
  (0 <= b <= 255)%Z /\ (0 <= g <= 255)%Z /\ (0 <= r <= 255)%Z.

(** [astype(np.uint8)] of a float within the range of [uint8]: the
    fractional part is dropped. *)
Class Truncation (F : Type) : Type := {
  ftrunc : F -> Z
}.

#[export] Instance R_truncation : Truncation R := {
  ftrunc := fun x => if Rltb x 0 then Rceil x else Rfloor x
}.

Definition f64_trunc (x : float) : Z :=
  let (n, d) := Binary64.to_fraction x in Z.quot n d.

#[export] Instance f64_truncation : Truncation float := {
  ftrunc := f64_trunc
}.

(** [row[offset : offset + len(patch)] = f(row[...], patch)], entry by
    entry, for a patch that fits in the row. *)
Fixpoint add_at {A B} (f : A -> B -> A) (offset : nat) (patch : list B)
  (row : list A) : list A :=
  match row with
  | [] => []
  | c :: row' =>
      match offset with
      | S o => c :: add_at f o patch row'
      | O =>
          match patch with
          | [] => row
          | p :: patch' => f c p :: add_at f O patch' row'
          end
      end
  end.

(** [a[y : y + h, x : x + w] = f(a[...], patch)]. *)
Definition add_region {A B} (f : A -> B -> A) (y x : nat)
  (patch : list (list B)) (a : list (list A)) : list (list A) :=
  add_at (fun row patch_row => add_at f x patch_row row) y patch a.

(** [img[:h, :w]]. *)
Definition crop_to {pixel} (h w : nat) (img : image pixel) : image pixel :=
  map (firstn w) (firstn h img).

Section Render.
Context {F : Type} `{Arith F} `{Truncation F}.

(** [np.any(img_crop > 0, axis=2).astype(np.float32)] at one pixel. *)
Definition mask_value (p : bgr) : F :=
  let '(b, g, r) := p in
  if ((0 <? b)%Z || (0 <? g)%Z || (0 <? r)%Z)%bool then fofZ 1 else fofZ 0.

(** One cell of [canvas[...] += img_crop.astype(np.float32) * mask]. *)
Definition add_colour (c : F * F * F) (p : bgr) : F * F * F :=
  let m := mask_value p in
  let '(b, g, r) := p in
  let '(cb, cg, cr) := c in
  (cb +! fofZ b *! m, cg +! fofZ g *! m, cr +! fofZ r *! m).

(** One cell of [weights[...] += mask]. *)
Definition add_weight (wt : F) (p : bgr) : F := wt +! mask_value p.

(** The two buffers after one placement decision. *)
Definition accumulate (images : list (image bgr))
  (buffers : list (list (F * F * F)) * list (list F)) (p : placement)
  : list (list (F * F * F)) * list (list F) :=
  match p with
  | Skipped _ => buffers
  | Placed i x_offset y_offset h w =>
      let img_crop := crop_to (Z.to_nat h) (Z.to_nat w) (nth i images []) in
      (add_region add_colour (Z.to_nat y_offset) (Z.to_nat x_offset)
         img_crop (fst buffers),
       add_region add_weight (Z.to_nat y_offset) (Z.to_nat x_offset)
         img_crop (snd buffers))
  end.

(** [canvas[non_zero] /= weights[non_zero, np.newaxis]] at one cell. *)
Definition normalise (c : F * F * F) (wt : F) : F * F * F :=
  if fzero <! wt
  then let '(cb, cg, cr) := c in (cb /! wt, cg /! wt, cr /! wt)
  else c.

Definition to_uint8 (c : F * F * F) : bgr :=
  let '(cb, cg, cr) := c in (ftrunc cb, ftrunc cg, ftrunc cr).

(** The panorama [blend_average] returns for the canvas and the placement
    decisions of [c]. *)
Definition render_average (images : list (image bgr)) (c : composite)
  : image bgr :=
  let cw := Z.to_nat (canvas_width c) in
  let ch := Z.to_nat (canvas_height c) in
  let canvas := repeat (repeat (fzero, fzero, fzero) cw) ch in
  let weights := repeat (repeat fzero cw) ch in
  let (canvas, weights) :=
    fold_left (accumulate images) (placements c) (canvas, weights) in
  zip_with (zip_with (fun c wt => to_uint8 (normalise c wt))) canvas weights.

End Render.

(** [blend_average] down to the pixels. *)
Definition blend_average_image {F : Type} `{Arith F} `{Rounding F}
  `{Truncation F} (images : list (image bgr)) (translations : list (F * F))
  : result (image bgr) :=
  c <- blend_average images translations ;;
  Ok (render_average images c).

(** The pixel a placement decision puts on the canvas cell at row [y],
    column [x], if any: pixel [(y - y_offset, x - x_offset)] of the image,
    for a cell inside the placed extent. *)
Definition pixel_under (images : list (image bgr)) (p : placement)
  (y x : nat) : option bgr :=
  match p with
  | Skipped _ => None
  | Placed i x_offset y_offset h w =>
      if ((y_offset <=? Z.of_nat y)%Z && (Z.of_nat y <? y_offset + h)%Z
          && (x_offset <=? Z.of_nat x)%Z && (Z.of_nat x <? x_offset + w)%Z)%bool
      then Some (nth (x - Z.to_nat x_offset)
                   (nth (y - Z.to_nat y_offset) (nth i images []) [])
                   (0, 0, 0)%Z)
      else None
  end.

(** A buffer cell after one placement decision, seen from the cell. *)
Definition add_under {A} (f : A -> bgr -> A) (images : list (image bgr))
  (y x : nat) (acc : A) (p : placement) : A :=
  match pixel_under images p y x with
  | Some q => f acc q
  | None => acc
  end.

(** The image pixels the placement decisions put on a cell, in the order
    of the decisions. *)
Definition pixels_under (images : list (image bgr)) (ps : list placement)
  (y x : nat) : list bgr :=
  flat_map
    (fun p =>
       match pixel_under images p y x with
       | Some q => [q]
       | None => []
       end)
    ps.

(** A pixel with a channel above 0: the pixels [blend_average] counts. *)
Definition non_black (p : bgr) : bool :=
  let '(b, g, r) := p in ((0 <? b)%Z || (0 <? g)%Z || (0 <? r)%Z)%bool.

Definition blue (p : bgr) : Z := fst (fst p).

Definition green (p : bgr) : Z := snd (fst p).

Definition red (p : bgr) : Z := snd p.

Definition channel_sum (channel : bgr -> Z) (qs : list bgr) : Z :=
  fold_right Z.add 0%Z (map channel qs).

(** An image all of whose rows have the width [shape] reports. *)
Definition rectangular {pixel} (img : image pixel) : Prop :=
  Forall (fun row => length row = snd (shape img)) img.

(** A placement decision whose extent lies inside the canvas and inside
    its image, so that the slices [canvas[y:y+h, x:x+w]] and [img[:h, :w]]
    both have [h] rows and [w] columns. *)
Definition placement_fits {pixel} (images : list (image pixel)) (cw ch : Z)
  (p : placement) : Prop :=
  match p with
  | Skipped _ => True
  | Placed i x y h w =>
      (0 <= x)%Z /\ (0 <= y)%Z
      /\ (0 < h <= Z.of_nat (fst (shape (nth i images []))))%Z
      /\ (0 < w <= Z.of_nat (snd (shape (nth i images []))))%Z
      /\ (x + w <= cw)%Z /\ (y + h <= ch)%Z
  end.

(** A list [l1] whose entries appear in [l2] in the same order. *)
Inductive subsequence {A : Type} : list A -> list A -> Prop :=
| subsequence_nil : subsequence [] []
| subsequence_skip x l1 l2 : subsequence l1 l2 -> subsequence l1 (x :: l2)
| subsequence_keep x l1 l2 : subsequence l1 l2 -> subsequence (x :: l1) (x :: l2).

(** ** The generator after the estimator *)

(** The state of the generator after [iters] draws below [n_points]. *)
Fixpoint advance {rng : Type} (randint : rng -> nat -> nat * rng)
  (n_points iters : nat) (g : rng) : rng :=
  match iters with
  | O => g
  | S iters' => advance randint n_points iters' (snd (randint g n_points))
  end.

(** ** Worked inputs *)

(** Two queries: one with neighbours at distances 1 and 2, one with a
    single neighbour. *)
Definition ex_knnMatch (_ _ : unit) : list (list (DMatch R)) :=
  [[{| distance := 1%R; queryIdx := 0; trainIdx := 2 |};
    {| distance := 2%R; queryIdx := 0; trainIdx := 5 |}];
   [{| distance := 3%R; queryIdx := 1; trainIdx := 1 |}]].

(** A 50 mm lens that is 75 mm in 35 mm equivalent, in real arithmetic and
    in binary64. *)
Definition ex_exif : exif_dict R :=
  [("FocalLengthValue"%string, 50%R); ("FocalLengthIn35mmFilm"%string, 75%R)].

Definition ex_exif_f64 : exif_dict float :=
  [("FocalLengthValue"%string, 50%float);
   ("FocalLengthIn35mmFilm"%string, 75%float)].

Definition ex_load_config : load_config float :=
  {| config_focal_length := None;
     focal_length_source := "exif";
     default_focal_length := 800%float |}.

(** One loaded image of one row and two columns. *)
Definition ex_loaded_images : list (image unit * string * exif_dict float) :=
  [([[tt; tt]], "a.jpg"%string, ex_exif_f64)].

(** A one-row image with a coloured and a black pixel. *)
Definition ex_strip : image bgr := [[(10, 20, 30); (0, 0, 0)]]%Z.

(** Two one-row images, the second one column to the right of the first:
    they overlap on the middle column of a canvas three columns wide. *)
Definition ex_overlap_images : list (image bgr) :=
  [[[(10, 20, 30); (40, 50, 60)]]; [[(20, 40, 61); (0, 0, 0)]]]%Z.

Definition ex_overlap_offsets : list (float * float) :=
  [(0, 0); (1, 0)]%float.

Definition ex_overlap_canvas : composite :=
  {| canvas_width := 3;
     canvas_height := 1;
     placements := [Placed 0 0 0 1 2; Placed 1 1 0 1 2] |}.

(** Two one-pixel images with a free column between them. *)
Definition ex_gap_images : list (image bgr) :=
  [[[(9, 9, 9)]]; [[(7, 7, 7)]]]%Z.

Definition ex_gap_offsets : list (float * float) := [(0, 0); (2, 0)]%float.

Definition ex_gap_canvas : composite :=
  {| canvas_width := 3;
     canvas_height := 1;
     placements := [Placed 0 0 0 1 1; Placed 1 2 0 1 1] |}.

(** The worked configuration with drift correction disabled. *)
Definition ex_config_no_drift : config float :=
  {| match_ratio_threshold := match_ratio_threshold ex_config;
     ransac_threshold := ransac_threshold ex_config;
     ransac_max_iters := ransac_max_iters ex_config;
     enable_drift_correction := false;
     blend_method := blend_method ex_config |}.

(** A configuration and a stitcher holding [ex_strip], in real
    arithmetic. *)
Definition ex_config_R : config R :=
  {| match_ratio_threshold := (7 / 10)%R;
     ransac_threshold := 5%R;
     ransac_max_iters := 20;
     enable_drift_correction := false;
     blend_method := "linear" |}.

Definition ex_single : stitcher R bgr unit nat :=
  {| images_data := [ex_strip];
     warped_images := [];
     features := [];
     translations := [];
     focal_length := 500%R;
     np_random := 0%nat;
     warnings := [];
     drift_json := None |}.

(** * Part II: properties *)

(** ** Real arithmetic: comparison and rounding *)

Lemma Rltb_true (x y : R) : Rltb x y = true <-> (x < y)%R.
Proof.
  unfold Rltb; destruct (Rlt_dec x y); split; intros; try easy; try lra.
Qed.

Lemma Rltb_false (x y : R) : Rltb x y = false <-> (y <= x)%R.
Proof.
  unfold Rltb; destruct (Rlt_dec x y); split; intros; try easy; try lra.
Qed.

(** ** Sequence accumulator *)

Section AccumulatorFacts.
Context {F : Type} `{Arith F}.

Lemma cumulative_loop_length (cx cy : F) pairwise :
  length (cumulative_loop cx cy pairwise) = length pairwise.
Proof.
  revert cy; induction pairwise as [|[dx dy] rest IH]; intros cy; simpl.
  - reflexivity.
  - now rewrite IH.
Qed.

Lemma cumulative_loop_x (cx cy : F) pairwise :
  Forall (fun o => fst o = cx) (cumulative_loop cx cy pairwise).
Proof.
  revert cy; induction pairwise as [|[dx dy] rest IH]; intros cy; simpl.
  - constructor.
  - constructor; [reflexivity | apply IH].
Qed.

(** One link of the chain, read at any position of [(cx, cy) :: loop]. *)
Lemma cumulative_loop_step (cx cy : F) pairwise i d :
  (i < length pairwise)%nat ->
  snd (nth (S i) ((cx, cy) :: cumulative_loop cx cy pairwise) d)
  = snd (nth i ((cx, cy) :: cumulative_loop cx cy pairwise) d)
    -! snd (nth i pairwise d).
Proof.
  revert cy i; induction pairwise as [|[dx dy] rest IH]; intros cy i Hi.
  - simpl in Hi; lia.
  - destruct i as [|i].
    + reflexivity.
    + simpl in Hi.
      change (snd (nth (S i)
                     ((cx, cy -! dy) :: cumulative_loop cx (cy -! dy) rest) d)
              = snd (nth i
                       ((cx, cy -! dy) :: cumulative_loop cx (cy -! dy) rest) d)
                -! snd (nth i rest d)).
      apply IH; lia.
Qed.

End AccumulatorFacts.

(** C2.  For every ordered list of [n] pairwise translations, in any
    arithmetic, [compute_cumulative_translations] returns [n + 1] offsets,
    the first one [(0, 0)], each next one with
    [offset[i+1].y = offset[i].y - pairwise[i].dy], and every [x] component
    equal to 0.  The chain [(0,-10), (0,-10), (0,-10)] gives exactly
    [(0,0), (0,10), (0,20), (0,30)], in real arithmetic and in binary64. *)
Theorem accumulate_chain :
  (forall (F : Type) (A : Arith F) (pairwise : list (F * F)),
      let offset := compute_cumulative_translations pairwise in
      length offset = S (length pairwise)
      /\ nth 0 offset (fzero, fzero) = (fzero, fzero)
      /\ (forall i d, (i < length pairwise)%nat ->
            snd (nth (S i) offset d)
            = snd (nth i offset d) -! snd (nth i pairwise d))
      /\ Forall (fun o => fst o = fzero) offset)
  /\ compute_cumulative_translations
       [(0, -10); (0, -10); (0, -10)]%R
     = [(0, 0); (0, 10); (0, 20); (0, 30)]%R
  /\ compute_cumulative_translations
       [(0, -10); (0, -10); (0, -10)]%float
     = [(0, 0); (0, 10); (0, 20); (0, 30)]%float.
Proof.
  split; [|split].
  - intros F A pairwise offset; subst offset.
    unfold compute_cumulative_translations.
    repeat split.
    + simpl; now rewrite cumulative_loop_length.
    + intros i d Hi; now apply cumulative_loop_step.
    + constructor; [reflexivity | apply cumulative_loop_x].
  - unfold compute_cumulative_translations; simpl.
    unfold fzero; simpl.
    repeat (f_equal; try lra).
  - vm_compute; reflexivity.
Qed.

(** ** Drift corrector *)

(** The closed form in real arithmetic: a gap of [f * (pi / 6)] pixels at
    focal length [f] shortens the focal length by one twelfth. *)
Lemma corrected_focal_thirty_degrees (f : R) :
  f <> 0%R ->
  (f * (1 - (f * (PI / 6) / f) / (2 * PI)) = f * (11 / 12))%R.
Proof.
  intros Hf. pose proof PI_neq0 as Hpi. field. split; assumption.
Qed.

(** C3.  In any arithmetic [correct_drift] computes the gap angle
    [first_last.dy / f] and the corrected focal length
    [f * (1 - gap / (2 * pi))], whatever the pairwise list.  For [f = 500]
    and [first_last.dy = 500 * (pi / 6)] the corrected focal length is
    [500 * (11 / 12)] in real arithmetic, within 0.01 of 458.33, and in
    binary64 it is the float [500 * (11 / 12)] itself. *)
Theorem drift_closed_form :
  (forall (F : Type) (A : Arith F) (translations : list (pair_record F))
          (first_last : ransac_result F) (f : F) (w : nat),
      let c := correct_drift translations first_last f w in
      gap_angle c = snd (translation first_last) /! f
      /\ corrected_focal_length c
         = f *! (fofZ 1 -! gap_angle c /! (fofZ 2 *! fpi)))
  /\ (forall (translations : list (pair_record R)) dx mask n ratio w,
         let first_last :=
           {| translation := (dx, 500 * (PI / 6))%R; inliers := mask;
              num_inliers := n; inlier_ratio := ratio |} in
         let f' :=
           corrected_focal_length
             (correct_drift translations first_last 500%R w) in
         f' = (500 * (11 / 12))%R /\ (Rabs (f' - 458.33) < 0.01)%R)
  /\ (forall (translations : list (pair_record float)) dx mask n ratio w,
         let first_last :=
           {| translation := (dx, 500 * (Binary64.np_pi / 6))%float;
              inliers := mask; num_inliers := n; inlier_ratio := ratio |} in
         corrected_focal_length
           (correct_drift translations first_last 500%float w)
         = (500 * (11 / 12))%float).
Proof.
  split; [|split].
  - intros F A translations first_last f w c; subst c; simpl; split;
      reflexivity.
  - intros translations dx mask n ratio w first_last f'.
    assert (Hf : f' = (500 * (11 / 12))%R).
    { subst f' first_last; cbn.
      apply corrected_focal_thirty_degrees; lra. }
    split; [exact Hf|].
    rewrite Hf. unfold Rabs. destruct (Rcase_abs _); lra.
  - intros translations dx mask n ratio w first_last.
    subst first_last. unfold correct_drift. cbn [corrected_focal_length translation snd].
    vm_compute. reflexivity.
Qed.

(** The gate in any arithmetic: 10 inliers or more, and a ratio that is not
    below the minimum. *)
Lemma should_apply_spec {F : Type} `{Arith F}
      (q : ransac_result F) (r : F) :
  should_apply_drift_correction q r = true
  <-> (10 <= num_inliers q)%nat /\ (inlier_ratio q <! r) = false.
Proof.
  unfold should_apply_drift_correction.
  destruct (Nat.ltb_spec (num_inliers q) 10) as [Hn|Hn].
  - split; [discriminate | intros [Hc _]; lia].
  - destruct (inlier_ratio q <! r).
    + split; [discriminate | intros [_ Hr]; discriminate].
    + split; [intros _; split; [assumption | reflexivity] | reflexivity].
Qed.

(** The gate in real arithmetic. *)
Lemma should_apply_iff (q : ransac_result R) (r : R) :
  should_apply_drift_correction q r = true
  <-> (10 <= num_inliers q)%nat /\ (r <= inlier_ratio q)%R.
Proof.
  rewrite should_apply_spec.
  change (inlier_ratio q <! r) with (Rltb (inlier_ratio q) r).
  now rewrite Rltb_false.
Qed.

Lemma default_min_inlier_ratio_R :
  default_min_inlier_ratio (F := R) = (3 / 10)%R.
Proof. reflexivity. Qed.

(** Fewer than 10 inliers close the gate in any arithmetic. *)
Lemma should_apply_few_inliers {F : Type} `{Arith F}
      (q : ransac_result F) (r : F) :
  (num_inliers q < 10)%nat -> should_apply_drift_correction q r = false.
Proof.
  intros Hn. unfold should_apply_drift_correction.
  destruct (Nat.ltb_spec (num_inliers q) 10); [reflexivity | lia].
Qed.

(** ** NumPy helpers *)

Lemma zip_with_length {A B C} (f : A -> B -> C) l1 l2 :
  length l1 = length l2 -> length (zip_with f l1 l2) = length l1.
Proof.
  revert l2; induction l1 as [|a l1 IH]; intros [|b l2] Hl; simpl in *;
    try reflexivity; try discriminate.
  f_equal; apply IH; lia.
Qed.

Lemma zip_with_nth {A B C} (f : A -> B -> C) l1 l2 i da db dc :
  (i < length l1)%nat -> (i < length l2)%nat ->
  nth i (zip_with f l1 l2) dc = f (nth i l1 da) (nth i l2 db).
Proof.
  revert l2 i; induction l1 as [|a l1 IH]; intros [|b l2] i H1 H2;
    simpl in *; try lia.
  destruct i as [|i]; [reflexivity | apply IH; lia].
Qed.

Lemma count_true_pos (mask : list bool) i :
  nth i mask false = true -> (1 <= count_true mask)%nat.
Proof.
  revert i; induction mask as [|b mask IH]; intros i Hi.
  - destruct i; discriminate.
  - unfold count_true in *; simpl. destruct b; simpl; [lia|].
    destruct i as [|i]; [discriminate | eapply IH; eassumption].
Qed.

Lemma count_true_repeat_false n : count_true (repeat false n) = 0%nat.
Proof. induction n as [|n IH]; [reflexivity | exact IH]. Qed.

(** The code selects the inlier rows of each array and subtracts them
    column by column; this is the list of [pointB - pointA] over the pairs
    the mask retains. *)
Lemma select_differences {A B} (proj : A -> B) (minus : B -> B -> B)
      (mask : list bool) (pts1 pts2 : list A) :
  zip_with minus (map proj (select mask pts2)) (map proj (select mask pts1))
  = map (fun ab => minus (proj (snd ab)) (proj (fst ab)))
        (select mask (combine pts1 pts2)).
Proof.
  revert pts1 pts2; induction mask as [|b mask IH]; intros pts1 pts2.
  - reflexivity.
  - destruct pts1 as [|p pts1], pts2 as [|q pts2]; simpl.
    + reflexivity.
    + destruct b; [|now destruct (select mask pts2)].
      reflexivity.
    + destruct b; [|now destruct (map proj (select mask pts1))].
      now destruct (map proj (select mask pts1)).
    + destruct b; simpl; [f_equal|]; apply IH.
Qed.

(** *** The median *)

(** [np_sort] rearranges its argument, in any arithmetic. *)
Lemma insert_sorted_perm {F : Type} `{Arith F} (x : F) (l : list F) :
  Permutation (x :: l) (insert_sorted x l).
Proof.
  induction l as [|y l IH]; simpl.
  - apply Permutation_refl.
  - destruct (x <! y).
    + apply Permutation_refl.
    + eapply perm_trans; [apply perm_swap|]. apply perm_skip. exact IH.
Qed.

Lemma np_sort_perm {F : Type} `{Arith F} (a : list F) :
  Permutation a (np_sort a).
Proof.
  induction a as [|x a IH]; simpl.
  - apply Permutation_refl.
  - eapply perm_trans; [apply perm_skip; exact IH|].
    apply insert_sorted_perm.
Qed.

(** In real arithmetic the result is in increasing order, so that
    [np_median] reads the middle of the sorted values. *)
Lemma insert_sorted_sorted (x : R) (l : list R) :
  Sorted Rle l -> Sorted Rle (insert_sorted x l).
Proof.
  induction l as [|y l IH]; intros Hs; simpl.
  - repeat constructor.
  - change (x <! y) with (Rltb x y).
    destruct (Rltb x y) eqn:E.
    + apply Rltb_true in E. constructor; [exact Hs|].
      constructor. lra.
    + apply Rltb_false in E. inversion Hs as [|? ? Hl Hhd]; subst.
      constructor; [apply IH; exact Hl|].
      destruct l as [|z l]; simpl.
      * constructor. exact E.
      * change (x <! z) with (Rltb x z).
        destruct (Rltb x z); constructor; [exact E|].
        inversion Hhd; subst. assumption.
Qed.

Lemma np_sort_sorted (a : list R) : Sorted Rle (np_sort a).
Proof.
  induction a as [|x a IH]; simpl.
  - constructor.
  - apply insert_sorted_sorted. exact IH.
Qed.

(** ** Robust translation estimator *)

Section RansacFacts.
Context {F : Type} `{Arith F}.
Context {rng : Type}.
Variable randint : rng -> nat -> nat * rng.
Variables pts1 pts2 : list (F * F).
Variable threshold : F.

Lemma ransac_loop_samples iters g b :
  fst (ransac_loop randint pts1 pts2 threshold iters g b)
  = run_best pts1 pts2 threshold (samples randint (length pts1) iters g) b.
Proof.
  revert g b; induction iters as [|iters IH]; intros g b; simpl.
  - reflexivity.
  - destruct (randint g (length pts1)) as [idx g']. simpl. apply IH.
Qed.

Lemma samples_length n iters g :
  length (samples randint n iters g) = iters.
Proof.
  revert g; induction iters as [|iters IH]; intros g; simpl.
  - reflexivity.
  - destruct (randint g n) as [idx g']. simpl. now rewrite IH.
Qed.

Lemma update_best_cases idx b :
  ((score pts1 pts2 threshold idx <= best_inliers b)%nat
   /\ update_best pts1 pts2 threshold idx b = b)
  \/ ((best_inliers b < score pts1 pts2 threshold idx)%nat
      /\ update_best pts1 pts2 threshold idx b = winner pts1 pts2 threshold idx).
Proof.
  unfold update_best, winner, score.
  destruct (Nat.ltb_spec (best_inliers b)
              (count_true (inlier_mask pts1 pts2 threshold
                             (hypothesis pts1 pts2 idx)))) as [Hlt|Hle].
  - right; split; [assumption | reflexivity].
  - left; split; [assumption | reflexivity].
Qed.

(** The loop keeps its initial best when no sampled hypothesis scores
    strictly more; otherwise it ends on the first sampled hypothesis whose
    score no earlier one reaches and no later one exceeds. *)
Lemma run_best_cases idxs b :
  (Forall (fun idx => (score pts1 pts2 threshold idx <= best_inliers b)%nat)
          idxs
   /\ run_best pts1 pts2 threshold idxs b = b)
  \/ (exists j idx,
         nth_error idxs j = Some idx
         /\ (best_inliers b < score pts1 pts2 threshold idx)%nat
         /\ (forall j' idx', (j' < j)%nat -> nth_error idxs j' = Some idx' ->
               (score pts1 pts2 threshold idx'
                < score pts1 pts2 threshold idx)%nat)
         /\ Forall (fun idx' => (score pts1 pts2 threshold idx'
                                 <= score pts1 pts2 threshold idx)%nat) idxs
         /\ run_best pts1 pts2 threshold idxs b = winner pts1 pts2 threshold idx).
Proof.
  revert b; induction idxs as [|i rest IH]; intros b.
  - left; split; [constructor | reflexivity].
  - change (run_best pts1 pts2 threshold (i :: rest) b)
      with (run_best pts1 pts2 threshold rest
              (update_best pts1 pts2 threshold i b)).
    destruct (update_best_cases i b) as [[Hle Hu]|[Hlt Hu]]; rewrite Hu.
    + destruct (IH b) as [[Hall Hr]|(j & idx & Hj & Hb & Hfirst & Hall & Hr)].
      * left; split; [constructor; assumption | assumption].
      * right; exists (S j), idx.
        refine (conj Hj (conj Hb (conj _ (conj _ Hr)))).
        -- intros [|j'] idx' Hlt Hn; simpl in Hn.
           ++ injection Hn as <-; lia.
           ++ apply (Hfirst j'); [lia | assumption].
        -- constructor; [lia | assumption].
    + destruct (IH (winner pts1 pts2 threshold i))
        as [[Hall Hr]|(j & idx & Hj & Hb & Hfirst & Hall & Hr)].
      * right; exists 0%nat, i.
        refine (conj eq_refl (conj Hlt (conj _ (conj _ Hr)))).
        -- intros j' idx' Hj'; lia.
        -- constructor; [lia | exact Hall].
      * right; exists (S j), idx; simpl in Hb.
        refine (conj Hj (conj _ (conj _ (conj _ Hr)))).
        -- lia.
        -- intros [|j'] idx' Hlt' Hn; simpl in Hn.
           ++ injection Hn as <-; lia.
           ++ apply (Hfirst j'); [lia | assumption].
        -- constructor; [lia | assumption].
Qed.

End RansacFacts.

Section EstimatorCounts.
Context {F : Type} `{Arith F}.
Context {rng : Type}.
Variable randint : rng -> nat -> nat * rng.
Variables pts1 pts2 : list (F * F).
Variable threshold : F.

Lemma run_best_upper idxs b :
  Forall (fun idx => (score pts1 pts2 threshold idx
                      <= best_inliers (run_best pts1 pts2 threshold idxs b))%nat)
         idxs.
Proof.
  destruct (run_best_cases pts1 pts2 threshold idxs b)
    as [[Hall Hr]|(j & idx & _ & _ & _ & Hall & Hr)]; rewrite Hr.
  - exact Hall.
  - exact Hall.
Qed.


Lemma estimate_num_inliers max_iters g :
  (1 <= length pts1)%nat ->
  num_inliers
    (fst (estimate_pure_translation_ransac randint pts1 pts2 threshold
            max_iters g))
  = best_inliers
      (run_best pts1 pts2 threshold
         (samples randint (length pts1) max_iters g)
         (initial_best (length pts1))).
Proof.
  intros Hn. unfold estimate_pure_translation_ransac.
  destruct (Nat.ltb_spec (length pts1) 1) as [Hlt|_]; [lia|].
  rewrite <- ransac_loop_samples.
  destruct (ransac_loop randint pts1 pts2 threshold max_iters g
              (initial_best (length pts1))) as [b g'].
  reflexivity.
Qed.

Lemma own_pair_nonempty idx :
  own_pair_inlier pts1 pts2 threshold idx = true -> (1 <= length pts1)%nat.
Proof.
  unfold own_pair_inlier, inlier_mask.
  destruct pts1 as [|p rest]; simpl; [destruct idx; discriminate | lia].
Qed.

(** A sampled pair that its own hypothesis counts puts the returned inlier
    count at 1 or more. *)
Lemma estimate_counts_own_pair max_iters g idx :
  In idx (samples randint (length pts1) max_iters g) ->
  own_pair_inlier pts1 pts2 threshold idx = true ->
  (1 <= num_inliers
          (fst (estimate_pure_translation_ransac randint pts1 pts2 threshold
                  max_iters g)))%nat.
Proof.
  intros Hin Hown.
  rewrite estimate_num_inliers by (eapply own_pair_nonempty; eassumption).
  pose proof (run_best_upper
                (samples randint (length pts1) max_iters g)
                (initial_best (length pts1))) as Hall.
  rewrite Forall_forall in Hall. specialize (Hall idx Hin).
  assert (1 <= score pts1 pts2 threshold idx)%nat
    by (eapply count_true_pos; exact Hown).
  lia.
Qed.

(** Draws are in range when the generator's are. *)
Lemma samples_in_range n iters g :
  (forall g' m, (0 < m)%nat -> (fst (randint g' m) < m)%nat) ->
  (0 < n)%nat ->
  Forall (fun idx => (idx < n)%nat) (samples randint n iters g).
Proof.
  intros Hrange Hn. revert g; induction iters as [|iters IH]; intros g; simpl.
  - constructor.
  - pose proof (Hrange g n Hn) as Hr.
    destruct (randint g n) as [idx g']. constructor; [exact Hr | apply IH].
Qed.

End EstimatorCounts.

(** In exact arithmetic the pair that generates a hypothesis lies at
    distance 0 from its own prediction. *)
Lemma own_pair_inlier_exact (pts1 pts2 : list (R * R)) (threshold : R) idx :
  (idx < length pts1)%nat -> length pts1 = length pts2 ->
  (0 < threshold)%R ->
  own_pair_inlier pts1 pts2 threshold idx = true.
Proof.
  intros Hi Hl Ht. unfold own_pair_inlier, inlier_mask.
  rewrite (zip_with_nth _ pts1 pts2 origin origin) by lia.
  unfold hypothesis, np_norm; cbn [fst snd].
  destruct (nth idx pts1 origin) as [x1 y1], (nth idx pts2 origin) as [x2 y2].
  cbn [fst snd fadd fsub fmul fsqrt flt R_arith].
  apply Rltb_true.
  replace (x1 + (x2 - x1) - x2)%R with 0%R by ring.
  replace (y1 + (y2 - y1) - y2)%R with 0%R by ring.
  replace (0 * 0 + 0 * 0)%R with 0%R by ring.
  rewrite sqrt_0. exact Ht.
Qed.

(** In exact arithmetic, with a pair to sample, an iteration to run, a
    positive threshold and draws in range, some hypothesis scores. *)
Lemma estimate_positive_exact (rng : Type) (randint : rng -> nat -> nat * rng)
      (pts1 pts2 : list (R * R)) (threshold : R) (max_iters : nat) (g : rng) :
  (forall g' m, (0 < m)%nat -> (fst (randint g' m) < m)%nat) ->
  length pts1 = length pts2 ->
  (1 <= length pts1)%nat ->
  (1 <= max_iters)%nat ->
  (0 < threshold)%R ->
  (1 <= num_inliers
          (fst (estimate_pure_translation_ransac randint pts1 pts2 threshold
                  max_iters g)))%nat.
Proof.
  intros Hrange Hl Hn Hit Ht.
  pose proof (samples_in_range randint max_iters g Hrange
                (n := length pts1) ltac:(lia)) as Hall.
  destruct max_iters as [|k]; [lia|].
  simpl in Hall.
  pose proof (fun idx Hin =>
                estimate_counts_own_pair randint pts1 pts2 threshold
                  (S k) g idx Hin) as Hcount.
  simpl in Hcount.
  destruct (randint g (length pts1)) as [idx g'].
  inversion Hall as [|? ? Hidx _]; subst.
  apply (Hcount idx); [left; reflexivity|].
  apply own_pair_inlier_exact; assumption.
Qed.

Lemma counter_randint_in_range (g m : nat) :
  (0 < m)%nat -> (fst (counter_randint g m) < m)%nat.
Proof. intros Hm; simpl. apply Nat.mod_upper_bound; lia. Qed.

(** C6, as the code has it.  Past the empty-input guard, in any
    arithmetic, with [idxs] the indices the loop samples in order: every
    sampled hypothesis scores at most the returned inlier count; when that
    count is positive it is the score of a sampled hypothesis that no
    earlier sample reaches (the first-seen one wins a tie), the returned
    mask is that hypothesis's inlier mask and the returned translation is
    the coordinate-wise median of [pointB - pointA] over the pairs the mask
    retains; when no hypothesis scored an inlier, the initial zero
    translation and all-false mask are returned; and the inlier ratio is
    [inlier_count / total_points].  In exact arithmetic, with an iteration
    to run, a positive threshold and draws in range, the count is
    positive. *)
Theorem ransac_tracks_first_best_and_refines_by_median :
  (forall (F : Type) (A : Arith F) (rng : Type)
          (randint : rng -> nat -> nat * rng) (pts1 pts2 : list (F * F))
          (threshold : F) (max_iters : nat) (g : rng),
      (1 <= length pts1)%nat ->
      let res :=
        fst (estimate_pure_translation_ransac randint pts1 pts2 threshold
               max_iters g) in
      let idxs := samples randint (length pts1) max_iters g in
      let sc := score pts1 pts2 threshold in
      Forall (fun idx => (sc idx <= num_inliers res)%nat) idxs
      /\ ((0 < num_inliers res)%nat ->
          exists j idx,
            nth_error idxs j = Some idx
            /\ sc idx = num_inliers res
            /\ (forall j' idx', (j' < j)%nat -> nth_error idxs j' = Some idx' ->
                  (sc idx' < sc idx)%nat)
            /\ inliers res
               = inlier_mask pts1 pts2 threshold (hypothesis pts1 pts2 idx)
            /\ translation res
               = (np_median
                    (map (fun ab => fst (snd ab) -! fst (fst ab))
                         (select (inliers res) (combine pts1 pts2))),
                  np_median
                    (map (fun ab => snd (snd ab) -! snd (fst ab))
                         (select (inliers res) (combine pts1 pts2)))))
      /\ (num_inliers res = 0%nat ->
          translation res = (fzero, fzero)
          /\ inliers res = repeat false (length pts1))
      /\ inlier_ratio res = fofnat (num_inliers res) /! fofnat (length pts1))
  /\ (forall (rng : Type) (randint : rng -> nat -> nat * rng)
             (pts1 pts2 : list (R * R)) (threshold : R) (max_iters : nat)
             (g : rng),
         (forall g' m, (0 < m)%nat -> (fst (randint g' m) < m)%nat) ->
         length pts1 = length pts2 ->
         (1 <= length pts1)%nat ->
         (1 <= max_iters)%nat ->
         (0 < threshold)%R ->
         (0 < num_inliers
                (fst (estimate_pure_translation_ransac randint pts1 pts2
                        threshold max_iters g)))%nat).
Proof.
  split; [|intros; apply estimate_positive_exact; assumption].
  intros F A rng randint pts1 pts2 threshold max_iters g Hn. cbv zeta.
  set (idxs := samples randint (length pts1) max_iters g).
  unfold estimate_pure_translation_ransac.
  destruct (Nat.ltb_spec (length pts1) 1) as [Hlt|_]; [lia|].
  pose proof (ransac_loop_samples randint pts1 pts2 threshold max_iters g
                (initial_best (length pts1))) as Hloop.
  destruct (ransac_loop randint pts1 pts2 threshold max_iters g
              (initial_best (length pts1))) as [b g'].
  simpl in Hloop. fold idxs in Hloop.
  assert (Hpos : (0 <? length pts1)%nat = true) by (apply Nat.ltb_lt; lia).
  rewrite Hpos.
  destruct (run_best_cases pts1 pts2 threshold idxs (initial_best (length pts1)))
    as [[Hall Hr]|(j & idx & Hj & Hb & Hfirst & Hall & Hr)];
    rewrite Hr in Hloop; subst b; simpl.
  - refine (conj Hall (conj _ (conj _ eq_refl))).
    + intros Hc; lia.
    + intros _; split; reflexivity.
  - simpl in Hb.
    assert (Hs : (0 <? score pts1 pts2 threshold idx)%nat = true)
      by (apply Nat.ltb_lt; lia).
    rewrite Hs. simpl.
    refine (conj Hall (conj _ (conj _ eq_refl))).
    + intros _. exists j, idx.
      refine (conj Hj (conj eq_refl (conj Hfirst (conj eq_refl _)))).
      unfold refine. now rewrite !select_differences.
    + intros Hz. lia.
Qed.

(** The theorem at three correspondences in binary64, two of them related
    by (2, 3) and one outlier, threshold 5, three draws of the counter
    generator. *)
Lemma ransac_tracks_first_best_and_refines_by_median_witness :
  let pts1 := [(0, 0); (1, 0); (10, 10)]%float in
  let pts2 := [(2, 3); (3, 3); (0, 0)]%float in
  (1 <= length pts1)%nat
  /\ inlier_ratio
       (fst (estimate_pure_translation_ransac counter_randint pts1 pts2
               5%float 3 0%nat))
     = (2 / 3)%float.
Proof.
  intros pts1 pts2.
  assert (Hn : (1 <= length pts1)%nat) by (simpl; lia).
  split; [exact Hn|].
  destruct ransac_tracks_first_best_and_refines_by_median as [Hany _].
  destruct (Hany _ _ _ counter_randint pts1 pts2 5%float 3%nat 0%nat Hn)
    as (_ & _ & _ & Hr).
  rewrite Hr. vm_compute. reflexivity.
Defined.

(** C6 as stated fails when no sampled hypothesis has an inlier: the
    refinement is skipped and the initial (0, 0) is returned, which is not
    the median over the (empty) retained inlier set, a NaN.  With threshold
    0, the one hypothesis (3, 4) of the correspondence (0, 0) to (3, 4)
    counts nothing; and with the positive threshold 1e-17 the rounding
    residue of the correspondence 0.7 to 0.1 does the same. *)
Lemma ransac_returns_origin_when_nothing_scores :
  (hypothesis [(0, 0)]%float [(3, 4)]%float 0 = (3, 4)%float
   /\ num_inliers
        (fst (estimate_pure_translation_ransac counter_randint
                [(0, 0)]%float [(3, 4)]%float 0%float 1 0%nat)) = 0%nat
   /\ translation
        (fst (estimate_pure_translation_ransac counter_randint
                [(0, 0)]%float [(3, 4)]%float 0%float 1 0%nat))
      = (0, 0)%float
   /\ translation
        (fst (estimate_pure_translation_ransac counter_randint
                [(0, 0)]%float [(3, 4)]%float 0%float 1 0%nat))
      <> refine [(0, 0)]%float [(3, 4)]%float
           (inliers
              (fst (estimate_pure_translation_ransac counter_randint
                      [(0, 0)]%float [(3, 4)]%float 0%float 1 0%nat))))
  /\ (PrimFloat.ltb 0 residue_threshold = true
      /\ translation
           (fst (estimate_pure_translation_ransac counter_randint
                   residue_pts1 residue_pts2 residue_threshold 1 0%nat))
         = (0, 0)%float
      /\ translation
           (fst (estimate_pure_translation_ransac counter_randint
                   residue_pts1 residue_pts2 residue_threshold 1 0%nat))
         <> refine residue_pts1 residue_pts2
              (inliers
                 (fst (estimate_pure_translation_ransac counter_randint
                         residue_pts1 residue_pts2 residue_threshold
                         1 0%nat)))).
Proof.
  vm_compute. repeat split; try reflexivity; discriminate.
Qed.

(** C10, as the code has it.  In any arithmetic the returned inlier count
    is at least 1 as soon as one sampled pair is counted as an inlier of
    the hypothesis it generates, that is, as soon as the computed distance
    [|(pts1[idx] + (pts2[idx] - pts1[idx])) - pts2[idx]|] is below the
    threshold.  In exact real arithmetic that distance is 0: with at least
    one pair, [max_iters >= 1], [threshold > 0] and draws in range, the
    count is at least 1, and a count of 0 identifies exactly the empty
    input. *)
Theorem ransac_counts_generating_pair :
  (forall (F : Type) (A : Arith F) (rng : Type)
          (randint : rng -> nat -> nat * rng) (pts1 pts2 : list (F * F))
          (threshold : F) (max_iters : nat) (g : rng) (idx : nat),
      In idx (samples randint (length pts1) max_iters g) ->
      own_pair_inlier pts1 pts2 threshold idx = true ->
      (1 <= num_inliers
              (fst (estimate_pure_translation_ransac randint pts1 pts2
                      threshold max_iters g)))%nat)
  /\ (forall (rng : Type) (randint : rng -> nat -> nat * rng)
             (pts1 pts2 : list (R * R)) (threshold : R) (max_iters : nat)
             (g : rng),
         (forall g' m, (0 < m)%nat -> (fst (randint g' m) < m)%nat) ->
         length pts1 = length pts2 ->
         (1 <= max_iters)%nat ->
         (0 < threshold)%R ->
         let res :=
           fst (estimate_pure_translation_ransac randint pts1 pts2 threshold
                  max_iters g) in
         ((1 <= length pts1)%nat -> (1 <= num_inliers res)%nat)
         /\ (num_inliers res = 0%nat <-> pts1 = [])).
Proof.
  split.
  - intros F A rng randint pts1 pts2 threshold max_iters g idx Hin Hown.
    eapply estimate_counts_own_pair; eassumption.
  - intros rng randint pts1 pts2 threshold max_iters g Hrange Hl Hit Ht res.
    assert (Hpos : (1 <= length pts1)%nat -> (1 <= num_inliers res)%nat).
    { intros Hn. apply estimate_positive_exact; assumption. }
    split; [exact Hpos|].
    split.
    + intros Hz. destruct pts1 as [|p rest]; [reflexivity|].
      simpl in Hpos. specialize (Hpos ltac:(lia)). lia.
    + intros ->. reflexivity.
Qed.

(** The exact-arithmetic part at one correspondence from (0, 0) to (3, 4),
    threshold 5, one draw. *)
Lemma ransac_counts_generating_pair_witness :
  length [(0, 0)%R] = length [(3, 4)%R]
  /\ (1 <= 1)%nat
  /\ (0 < 5)%R
  /\ (1 <= num_inliers
            (fst (estimate_pure_translation_ransac counter_randint
                    [(0, 0)%R] [(3, 4)%R] 5%R 1 0%nat)))%nat.
Proof.
  assert (Hl : length [(0, 0)%R] = length [(3, 4)%R]) by reflexivity.
  assert (Hi : (1 <= 1)%nat) by lia.
  assert (Ht : (0 < 5)%R) by lra.
  refine (conj Hl (conj Hi (conj Ht _))).
  destruct ransac_counts_generating_pair as [_ Hexact].
  apply (Hexact nat counter_randint [(0, 0)%R] [(3, 4)%R] 5%R 1%nat 0%nat
           counter_randint_in_range Hl Hi Ht).
  simpl; lia.
Defined.

(** C10 as stated fails under binary64 rounding: one finite correspondence,
    one iteration, a positive threshold, and the returned inlier count is
    0.  The hypothesis [0.1 - 0.7] moves 0.7 to a value about 2.8e-17 away
    from 0.1, above the threshold 1e-17. *)
Lemma ransac_inlier_floor_fails_under_rounding :
  (1 <= length residue_pts1)%nat
  /\ length residue_pts1 = length residue_pts2
  /\ (1 <= 1)%nat
  /\ PrimFloat.ltb 0 residue_threshold = true
  /\ forallb (fun p => Binary64.finite (fst p) && Binary64.finite (snd p))
             (residue_pts1 ++ residue_pts2) = true
  /\ num_inliers
       (fst (estimate_pure_translation_ransac counter_randint
               residue_pts1 residue_pts2 residue_threshold 1 0%nat))
     = 0%nat.
Proof. vm_compute. repeat split; reflexivity. Qed.

(** The same with the default threshold 5.0 when a coordinate is large:
    from x = 1e18 the hypothesis lands 28 pixels away from x = 100. *)
Lemma ransac_inlier_floor_fails_far_from_origin :
  forallb (fun p => Binary64.finite (fst p) && Binary64.finite (snd p))
          (far_pts1 ++ far_pts2) = true
  /\ num_inliers
       (fst (estimate_pure_translation_ransac counter_randint
               far_pts1 far_pts2 5%float 1 0%nat))
     = 0%nat.
Proof. vm_compute. split; reflexivity. Qed.

(** ** Pipeline *)

Section PipelineFacts.
Context {F : Type} `{Arith F} `{Rounding F}.
Context {pixel feat dmatch rng : Type}.
Variable warp_cylindrical : image pixel -> F -> image pixel.
Variable extract_sift_features : image pixel -> feat.
Variable match_features : feat -> feat -> F -> list dmatch.
Variable extract_match_points :
  feat -> feat -> list dmatch -> list (F * F) * list (F * F).
Variable randint : rng -> nat -> nat * rng.
Variable render : list (image pixel) -> composite -> image pixel.
Variable gray : pixel -> Z.

(** One unfolding of the loop on two features or more. *)
Lemma match_and_align_loop_step (cfg : config F) i fa fb tl g :
  match_and_align_loop match_features extract_match_points randint
    cfg i (fa :: fb :: tl) g
  = let matches := match_features fa fb (match_ratio_threshold cfg) in
    if (length matches <? 4)%nat
    then
      let '(recs, warns, g') :=
        match_and_align_loop match_features extract_match_points randint
          cfg (S i) (fb :: tl) g in
      (zero_translation_record i (length matches) :: recs,
       NotEnoughMatches i :: warns, g')
    else
      let (pts1, pts2) := extract_match_points fa fb matches in
      let (res, g1) :=
        estimate_pure_translation_ransac randint pts1 pts2
          (ransac_threshold cfg) (ransac_max_iters cfg) g in
      let '(recs, warns, g') :=
        match_and_align_loop match_features extract_match_points randint
          cfg (S i) (fb :: tl) g1 in
      ({| pair := (i, S i);
          pair_translation := translation res;
          num_matches := length matches;
          pair_num_inliers := num_inliers res;
          pair_inlier_ratio := inlier_ratio res |} :: recs,
       warns, g').
Proof. reflexivity. Qed.

(** The entries step 4 appends: one per adjacent pair, and the zero
    translation record, with a warning, for a pair with fewer than 4
    matches. *)
Lemma match_and_align_loop_spec (cfg : config F) feats :
  forall i g,
    let out :=
      match_and_align_loop match_features extract_match_points randint
        cfg i feats g in
    length (fst (fst out)) = pred (length feats)
    /\ forall k f1 f2,
        nth_error feats k = Some f1 ->
        nth_error feats (S k) = Some f2 ->
        (length (match_features f1 f2 (match_ratio_threshold cfg)) < 4)%nat ->
        nth_error (fst (fst out)) k
        = Some (zero_translation_record (i + k)
                  (length (match_features f1 f2 (match_ratio_threshold cfg))))
        /\ In (NotEnoughMatches (i + k)) (snd (fst out)).
Proof.
  induction feats as [|fa tl IH]; intros i g.
  - simpl. split; [reflexivity|]. intros [|k] f1 f2 Hk; discriminate.
  - destruct tl as [|fb tl'].
    + simpl. split; [reflexivity|].
      intros [|k] f1 f2 Hk1 Hk2; simpl in *; [discriminate|].
      destruct k; discriminate.
    + rewrite match_and_align_loop_step. cbv zeta.
      destruct (Nat.ltb_spec
                  (length (match_features fa fb (match_ratio_threshold cfg))) 4)
        as [Hfew|Hmany].
      * specialize (IH (S i) g). cbv zeta in IH.
        destruct (match_and_align_loop match_features extract_match_points
                    randint cfg (S i) (fb :: tl') g) as [[recs warns] g'].
        destruct IH as [IHlen IHk]. cbn [fst snd] in *.
        split; [simpl in *; lia|].
        intros [|k] f1 f2 Hk1 Hk2 Hlt.
        -- simpl in Hk1, Hk2. injection Hk1 as <-. injection Hk2 as <-.
           rewrite Nat.add_0_r. split; [reflexivity | left; reflexivity].
        -- simpl in Hk1. change (nth_error (fb :: tl') (S k) = Some f2) in Hk2.
           destruct (IHk k f1 f2 Hk1 Hk2 Hlt) as [Hrec Hwarn].
           replace (i + S k)%nat with (S i + k)%nat by lia.
           split; [exact Hrec | right; exact Hwarn].
      * destruct (extract_match_points fa fb
                    (match_features fa fb (match_ratio_threshold cfg)))
          as [pts1 pts2].
        destruct (estimate_pure_translation_ransac randint pts1 pts2
                    (ransac_threshold cfg) (ransac_max_iters cfg) g)
          as [res g1].
        specialize (IH (S i) g1). cbv zeta in IH.
        destruct (match_and_align_loop match_features extract_match_points
                    randint cfg (S i) (fb :: tl') g1) as [[recs warns] g'].
        destruct IH as [IHlen IHk]. cbn [fst snd] in *.
        split; [simpl in *; lia|].
        intros [|k] f1 f2 Hk1 Hk2 Hlt.
        -- simpl in Hk1, Hk2. injection Hk1 as <-. injection Hk2 as <-. lia.
        -- simpl in Hk1. change (nth_error (fb :: tl') (S k) = Some f2) in Hk2.
           destruct (IHk k f1 f2 Hk1 Hk2 Hlt) as [Hrec Hwarn].
           replace (i + S k)%nat with (S i + k)%nat by lia.
           split; [exact Hrec | exact Hwarn].
Qed.

Lemma match_and_align_spec (cfg : config F) (st : stitcher F pixel feat rng) :
  let st' :=
    _match_and_align match_features extract_match_points randint cfg st in
  length (translations st') = pred (length (features st))
  /\ forall k f1 f2,
      nth_error (features st) k = Some f1 ->
      nth_error (features st) (S k) = Some f2 ->
      (length (match_features f1 f2 (match_ratio_threshold cfg)) < 4)%nat ->
      nth_error (translations st') k
      = Some (zero_translation_record k
                (length (match_features f1 f2 (match_ratio_threshold cfg))))
      /\ In (NotEnoughMatches k) (warnings st').
Proof.
  cbv zeta. unfold _match_and_align.
  pose proof (match_and_align_loop_spec cfg (features st) 0 (np_random st))
    as Hloop. cbv zeta in Hloop.
  destruct (match_and_align_loop match_features extract_match_points randint
              cfg 0 (features st) (np_random st)) as [[recs warns] g'].
  cbn [fst snd] in Hloop. cbn [translations warnings].
  destruct Hloop as [Hlen Hk]. split; [exact Hlen|].
  intros k f1 f2 H1 H2 Hlt. destruct (Hk k f1 f2 H1 H2 Hlt) as [Hr Hw].
  split; [exact Hr | apply in_or_app; right; exact Hw].
Qed.

(** Step 6 replaces the focal length, the generator, the log and the
    drift record only. *)
Lemma apply_drift_keeps_projections (cfg : config F)
      (st st' : stitcher F pixel feat rng) :
  _apply_drift_correction match_features extract_match_points randint cfg st
  = Ok st' ->
  warped_images st' = warped_images st
  /\ images_data st' = images_data st
  /\ features st' = features st
  /\ translations st' = translations st.
Proof.
  unfold _apply_drift_correction.
  destruct (features st) as [|f1 rest] eqn:Hf; [discriminate|].
  destruct (length _ <? 4)%nat.
  - intros [= <-]; simpl; auto.
  - destruct (extract_match_points _ _ _) as [pts1 pts_last].
    destruct (estimate_pure_translation_ransac _ _ _ _ _ _) as [res g'].
    destruct (should_apply_drift_correction res default_min_inlier_ratio).
    + destruct (warped_images st) as [|w0 ws] eqn:Hw; [discriminate|].
      intros [= <-]; simpl; auto.
    + intros [= <-]; simpl; auto.
Qed.

(** What step 6 does on each side of the gate. *)
Lemma apply_drift_gate (cfg : config F) (st : stitcher F pixel feat rng)
      res g' :
  first_last_estimate match_features extract_match_points randint cfg st
  = Some (res, g') ->
  (should_apply_drift_correction res default_min_inlier_ratio = true ->
   forall w0 ws, warped_images st = w0 :: ws ->
   exists st',
     _apply_drift_correction match_features extract_match_points randint
       cfg st = Ok st'
     /\ drift_json st'
        = Some (correct_drift (translations st) res (focal_length st)
                  (snd (shape w0)))
     /\ focal_length st'
        = corrected_focal_length
            (correct_drift (translations st) res (focal_length st)
               (snd (shape w0)))
     /\ warnings st' = warnings st)
  /\ (should_apply_drift_correction res default_min_inlier_ratio = false ->
      exists st',
        _apply_drift_correction match_features extract_match_points randint
          cfg st = Ok st'
        /\ focal_length st' = focal_length st
        /\ drift_json st' = drift_json st
        /\ warnings st' = warnings st ++ [DriftSkipped]).
Proof.
  unfold first_last_estimate, _apply_drift_correction.
  destruct (features st) as [|f1 rest]; [discriminate|].
  destruct (length _ <? 4)%nat; [discriminate|].
  destruct (extract_match_points _ _ _) as [pts1 pts_last].
  destruct (estimate_pure_translation_ransac _ _ _ _ _ _) as [res0 g0].
  intros [= -> ->]. split.
  - intros Hgate w0 ws Hw. rewrite Hgate, Hw.
    eexists; split; [reflexivity|]. simpl. auto.
  - intros Hgate. rewrite Hgate.
    eexists; split; [reflexivity|]. simpl. auto.
Qed.

(** Steps 2 to 6 leave in [warped_images] the projections made in step 2,
    with the focal length the run started from. *)
Lemma run_to_drift_projections (cfg : config F)
      (st st' : stitcher F pixel feat rng) :
  run_to_drift warp_cylindrical extract_sift_features match_features
    extract_match_points randint cfg st = Ok st' ->
  warped_images st'
  = map (fun img => warp_cylindrical img (focal_length st)) (images_data st).
Proof.
  unfold run_to_drift.
  set (st2 := _match_and_align match_features extract_match_points randint cfg
                (_extract_features extract_sift_features
                   (_warp_images warp_cylindrical st))).
  assert (Hw : warped_images st2
               = map (fun img => warp_cylindrical img (focal_length st))
                     (images_data st)).
  { subst st2. unfold _match_and_align.
    destruct (match_and_align_loop _ _ _ _ _ _ _) as [[recs warns] g'].
    reflexivity. }
  destruct (enable_drift_correction cfg).
  - intros Hd. apply apply_drift_keeps_projections in Hd.
    destruct Hd as [Hd _]. now rewrite Hd.
  - intros [= <-]. exact Hw.
Qed.

(** The state steps 2 to 4 build, and what step 6 keeps of it. *)
Lemma run_to_drift_state (cfg : config F) (st st' : stitcher F pixel feat rng) :
  run_to_drift warp_cylindrical extract_sift_features match_features
    extract_match_points randint cfg st = Ok st' ->
  let aligned :=
    _match_and_align match_features extract_match_points randint cfg
      (_extract_features extract_sift_features
         (_warp_images warp_cylindrical st)) in
  warped_images st' = warped_images aligned
  /\ translations st' = translations aligned
  /\ features st' = features aligned.
Proof.
  unfold run_to_drift. cbv zeta.
  destruct (enable_drift_correction cfg).
  - intros Hd. apply apply_drift_keeps_projections in Hd.
    destruct Hd as (H1 & _ & H3 & H4). auto.
  - intros [= <-]. auto.
Qed.

Lemma aligned_state (cfg : config F) (st : stitcher F pixel feat rng) :
  let aligned :=
    _match_and_align match_features extract_match_points randint cfg
      (_extract_features extract_sift_features
         (_warp_images warp_cylindrical st)) in
  warped_images aligned
  = map (fun img => warp_cylindrical img (focal_length st)) (images_data st)
  /\ features aligned
     = map extract_sift_features
         (map (fun img => warp_cylindrical img (focal_length st))
              (images_data st))
  /\ translations aligned
     = fst (fst (match_and_align_loop match_features extract_match_points
                   randint cfg 0 (features aligned) (np_random st))).
Proof.
  cbv zeta. unfold _match_and_align.
  cbn [_extract_features _warp_images features np_random warped_images].
  destruct (match_and_align_loop _ _ _ _ _ _ _) as [[recs warns] g'] eqn:E.
  cbn [warped_images features translations]. rewrite E. auto.
Qed.

(** Step 6 ends normally as soon as there is a feature set and a
    projection. *)
Lemma apply_drift_returns (cfg : config F) (st : stitcher F pixel feat rng) :
  features st <> [] -> warped_images st <> [] ->
  exists st',
    _apply_drift_correction match_features extract_match_points randint
      cfg st = Ok st'.
Proof.
  intros Hf Hw. unfold _apply_drift_correction.
  destruct (features st) as [|f1 rest]; [contradiction|].
  destruct (length _ <? 4)%nat; [eexists; reflexivity|].
  destruct (extract_match_points _ _ _) as [pts1 pts_last].
  destruct (estimate_pure_translation_ransac _ _ _ _ _ _) as [res g'].
  destruct (should_apply_drift_correction res default_min_inlier_ratio);
    [|eexists; reflexivity].
  destruct (warped_images st) as [|w0 ws]; [contradiction|].
  eexists; reflexivity.
Qed.


End PipelineFacts.

Section PipelineProperties.
Context {F : Type} `{Arith F} `{Rounding F}.
Context {pixel feat dmatch rng : Type}.
Variable warp_cylindrical : image pixel -> F -> image pixel.
Variable extract_sift_features : image pixel -> feat.
Variable match_features : feat -> feat -> F -> list dmatch.
Variable extract_match_points :
  feat -> feat -> list dmatch -> list (F * F) * list (F * F).
Variable randint : rng -> nat -> nat * rng.
Variable render : list (image pixel) -> composite -> image pixel.


(** C4.  In real arithmetic the gate opens if and only if
    [num_inliers >= 10] and [inlier_ratio >= 0.3] (in any arithmetic: if
    and only if [num_inliers >= 10] and [inlier_ratio < 0.3] is false);
    with 5 inliers it is closed whatever the ratio.  In step 6, on the
    estimate between the first and the last image: when the gate opens the
    correction is computed, recorded and its focal length stored; when it
    is closed the step ends normally with the focal length and the record
    unchanged and the skip logged. *)
Theorem drift_correction_gate
        (cfg : config F) (st : stitcher F pixel feat rng) :
  (forall q : ransac_result R,
      should_apply_drift_correction q default_min_inlier_ratio = true
      <-> (10 <= num_inliers q)%nat /\ (3 / 10 <= inlier_ratio q)%R)
  /\ (forall q : ransac_result F,
         should_apply_drift_correction q default_min_inlier_ratio = true
         <-> (10 <= num_inliers q)%nat
             /\ (inlier_ratio q <! default_min_inlier_ratio) = false)
  /\ (forall (t : F * F) (mask : list bool) (ratio r : F),
         should_apply_drift_correction
           {| translation := t; inliers := mask;
              num_inliers := 5; inlier_ratio := ratio |} r = false)
  /\ (forall res g',
         first_last_estimate match_features extract_match_points randint
           cfg st = Some (res, g') ->
         (should_apply_drift_correction res default_min_inlier_ratio = true ->
          forall w0 ws, warped_images st = w0 :: ws ->
          exists st',
            _apply_drift_correction match_features extract_match_points
              randint cfg st = Ok st'
            /\ drift_json st'
               = Some (correct_drift (translations st) res (focal_length st)
                         (snd (shape w0)))
            /\ focal_length st'
               = corrected_focal_length
                   (correct_drift (translations st) res (focal_length st)
                      (snd (shape w0)))
            /\ warnings st' = warnings st)
         /\ (should_apply_drift_correction res default_min_inlier_ratio = false ->
             exists st',
               _apply_drift_correction match_features extract_match_points
                 randint cfg st = Ok st'
               /\ focal_length st' = focal_length st
               /\ drift_json st' = drift_json st
               /\ warnings st' = warnings st ++ [DriftSkipped])).
Proof.
  split; [|split; [|split]].
  - intros q. rewrite default_min_inlier_ratio_R. apply should_apply_iff.
  - intros q. apply should_apply_spec.
  - intros t mask ratio r. apply should_apply_few_inliers. simpl; lia.
  - intros res g' Hest. apply apply_drift_gate with (g' := g'). exact Hest.
Qed.

(** C5, as the code has it.  Whatever step 6 does to the focal length, the
    state that reaches the compositor holds the projections step 2 made
    with the focal length the run started from, and these are the images
    [_blend_images] hands to [blend_images]: no stage projects again. *)
Theorem blend_consumes_original_projections
        (cfg : config F) (st st' : stitcher F pixel feat rng) :
  run_to_drift warp_cylindrical extract_sift_features match_features
    extract_match_points randint cfg st = Ok st' ->
  let original :=
    map (fun img => warp_cylindrical img (focal_length st)) (images_data st) in
  warped_images st' = original
  /\ _blend_images render cfg st'
     = (c <- blend_images original
               (compute_cumulative_translations
                  (map (fun t => pair_translation t) (translations st')))
               (blend_method cfg) ;;
        Ok (render original c)).
Proof.
  intros Hrun original.
  pose proof (run_to_drift_projections _ _ _ _ _ _ _ Hrun) as Hw.
  fold original in Hw. split; [exact Hw|].
  unfold _blend_images. now rewrite Hw.
Qed.

End PipelineProperties.

(** ** Canvas compositor *)

Lemma pymin_R (a b : R) : pymin a b = Rmin a b.
Proof.
  unfold pymin, Rmin. cbn [flt R_arith]. unfold Rltb.
  destruct (Rlt_dec b a), (Rle_dec a b); try reflexivity; lra.
Qed.

Lemma pymax_R (a b : R) : pymax a b = Rmax a b.
Proof.
  unfold pymax, Rmax. cbn [flt R_arith]. unfold Rltb.
  destruct (Rlt_dec a b), (Rle_dec a b); try reflexivity; lra.
Qed.

Lemma IZR_of_nat_nonneg (n : nat) : (0 <= IZR (Z.of_nat n))%R.
Proof. apply IZR_le. lia. Qed.

Section CompositorFacts.
Context {pixel : Type}.

(** One iteration of the bounds loop in real arithmetic: every bound is
    replaced or updated. *)
Lemma bounds_step_R (acc : option R * option R * option R * option R)
      (it : image pixel * (R * R)) :
  bounds_step acc it
  = let '(min_x, max_x, min_y, max_y) := acc in
    (Some match min_x with
          | None => fst (snd it)
          | Some m => Rmin m (fst (snd it))
          end,
     Some match max_x with
          | None => (fst (snd it) + item_w it)%R
          | Some m => Rmax m (fst (snd it) + item_w it)%R
          end,
     Some match min_y with
          | None => snd (snd it)
          | Some m => Rmin m (snd (snd it))
          end,
     Some match max_y with
          | None => (snd (snd it) + item_h it)%R
          | Some m => Rmax m (snd (snd it) + item_h it)%R
          end).
Proof.
  destruct acc as [[[min_x max_x] min_y] max_y].
  destruct it as [img [tx ty]]. unfold bounds_step, item_w, item_h.
  cbn [fst snd]. destruct (shape img) as [h w] eqn:Hs. cbn [fst snd].
  unfold fofnat. cbn [fofZ fadd R_arith].
  pose proof (IZR_of_nat_nonneg w) as Hw.
  pose proof (IZR_of_nat_nonneg h) as Hh.
  rewrite !pymin_R, !pymax_R.
  assert (E1 : Rmin tx (tx + IZR (Z.of_nat w)) = tx)
    by (apply Rmin_left; lra).
  assert (E2 : Rmax tx (tx + IZR (Z.of_nat w)) = (tx + IZR (Z.of_nat w))%R)
    by (apply Rmax_right; lra).
  assert (E3 : Rmin ty (ty + IZR (Z.of_nat h)) = ty)
    by (apply Rmin_left; lra).
  assert (E4 : Rmax ty (ty + IZR (Z.of_nat h)) = (ty + IZR (Z.of_nat h))%R)
    by (apply Rmax_right; lra).
  rewrite E1, E2, E3, E4.
  unfold lower_bound, upper_bound. cbn [below_inf above_neg_inf R_arith].
  destruct min_x, max_x, min_y, max_y;
    rewrite ?pymin_R, ?pymax_R; reflexivity.
Qed.

Lemma tight_first (it : image pixel * (R * R)) :
  tight_bounding_box [it]
    (fst (snd it), (fst (snd it) + item_w it)%R,
     snd (snd it), (snd (snd it) + item_h it)%R).
Proof.
  unfold tight_bounding_box. split.
  - intros it' [<-|[]]. repeat split; lra.
  - repeat split; exists it; (split; [left; reflexivity | reflexivity]).
Qed.

Lemma tight_extend (seen : list (image pixel * (R * R))) it
      min_x max_x min_y max_y :
  tight_bounding_box seen (min_x, max_x, min_y, max_y) ->
  tight_bounding_box (seen ++ [it])
    (Rmin min_x (fst (snd it)), Rmax max_x (fst (snd it) + item_w it)%R,
     Rmin min_y (snd (snd it)), Rmax max_y (snd (snd it) + item_h it)%R).
Proof.
  unfold tight_bounding_box.
  intros (Hin & (i1 & Hi1 & E1) & (i2 & Hi2 & E2) & (i3 & Hi3 & E3)
          & (i4 & Hi4 & E4)).
  pose proof (Rmin_l min_x (fst (snd it))).
  pose proof (Rmin_r min_x (fst (snd it))).
  pose proof (Rmax_l max_x (fst (snd it) + item_w it)).
  pose proof (Rmax_r max_x (fst (snd it) + item_w it)).
  pose proof (Rmin_l min_y (snd (snd it))).
  pose proof (Rmin_r min_y (snd (snd it))).
  pose proof (Rmax_l max_y (snd (snd it) + item_h it)).
  pose proof (Rmax_r max_y (snd (snd it) + item_h it)).
  split; [|split; [|split; [|split]]].
  - intros it' Hit'. apply in_app_or in Hit'. destruct Hit' as [Hs|[<-|[]]].
    + destruct (Hin it' Hs) as (? & ? & ? & ?). repeat split; lra.
    + repeat split; lra.
  - destruct (Rmin_case min_x (fst (snd it))
                (fun r => r = min_x \/ r = fst (snd it))) as [E|E]; auto.
    + exists i1. split; [apply in_or_app; left; exact Hi1 | congruence].
    + exists it. split; [apply in_or_app; right; left; reflexivity
                        | congruence].
  - destruct (Rmax_case max_x (fst (snd it) + item_w it)
                (fun r => r = max_x \/ r = (fst (snd it) + item_w it)%R))
      as [E|E]; auto.
    + exists i2. split; [apply in_or_app; left; exact Hi2 | congruence].
    + exists it. split; [apply in_or_app; right; left; reflexivity
                        | congruence].
  - destruct (Rmin_case min_y (snd (snd it))
                (fun r => r = min_y \/ r = snd (snd it))) as [E|E]; auto.
    + exists i3. split; [apply in_or_app; left; exact Hi3 | congruence].
    + exists it. split; [apply in_or_app; right; left; reflexivity
                        | congruence].
  - destruct (Rmax_case max_y (snd (snd it) + item_h it)
                (fun r => r = max_y \/ r = (snd (snd it) + item_h it)%R))
      as [E|E]; auto.
    + exists i4. split; [apply in_or_app; left; exact Hi4 | congruence].
    + exists it. split; [apply in_or_app; right; left; reflexivity
                        | congruence].
Qed.

(** The bounds loop keeps the tight bounding box of the images seen. *)
Lemma bounds_fold_tight (items seen : list (image pixel * (R * R))) acc :
  (acc = (None, None, None, None) /\ seen = []
   \/ exists min_x max_x min_y max_y,
       acc = (Some min_x, Some max_x, Some min_y, Some max_y)
       /\ tight_bounding_box seen (min_x, max_x, min_y, max_y)) ->
  (fold_left bounds_step items acc = (None, None, None, None)
   /\ seen ++ items = []
   \/ exists min_x max_x min_y max_y,
       fold_left bounds_step items acc
       = (Some min_x, Some max_x, Some min_y, Some max_y)
       /\ tight_bounding_box (seen ++ items) (min_x, max_x, min_y, max_y)).
Proof.
  revert seen acc; induction items as [|it rest IH]; intros seen acc Hacc.
  - simpl. rewrite app_nil_r. exact Hacc.
  - simpl. replace (seen ++ it :: rest) with ((seen ++ [it]) ++ rest)
      by (rewrite <- app_assoc; reflexivity).
    apply IH. right. rewrite bounds_step_R.
    destruct Hacc as [[-> ->]|(min_x & max_x & min_y & max_y & -> & Ht)].
    + do 4 eexists. split; [reflexivity|]. apply tight_first.
    + do 4 eexists. split; [reflexivity|]. apply tight_extend. exact Ht.
Qed.

Lemma compute_canvas_bounds_tight (images : list (image pixel))
      (translations : list (R * R)) :
  combine images translations <> [] ->
  exists min_x max_x min_y max_y,
    compute_canvas_bounds images translations
    = (Some min_x, Some max_x, Some min_y, Some max_y)
    /\ tight_bounding_box (combine images translations)
         (min_x, max_x, min_y, max_y).
Proof.
  intros Hne. unfold compute_canvas_bounds.
  destruct (@bounds_fold_tight (combine images translations) []
              (None, None, None, None) (or_introl (conj eq_refl eq_refl)))
    as [[_ Hnil]|Hb].
  - simpl in Hnil. contradiction.
  - exact Hb.
Qed.

End CompositorFacts.

(** *** Rounding in real arithmetic *)

Lemma Rfloor_spec (x : R) :
  (IZR (Rfloor x) <= x < IZR (Rfloor x) + 1)%R.
Proof.
  unfold Rfloor. rewrite minus_IZR. destruct (archimed x) as [Hgt Hle]. lra.
Qed.

Lemma Rceil_spec (x : R) : (IZR (Rceil x) - 1 < x <= IZR (Rceil x))%R.
Proof.
  unfold Rceil. rewrite opp_IZR. pose proof (Rfloor_spec (- x)). lra.
Qed.

Lemma Rceil_unique (x : R) (n : Z) :
  (IZR n - 1 < x <= IZR n)%R -> Rceil x = n.
Proof.
  intros [Hlo Hhi]. destruct (Rceil_spec x) as [Clo Chi].
  assert (H1 : (IZR n < IZR (Rceil x) + 1)%R) by lra.
  assert (H2 : (IZR (Rceil x) < IZR n + 1)%R) by lra.
  rewrite <- plus_IZR in H1, H2. apply lt_IZR in H1, H2. lia.
Qed.

Lemma Rceil_le (x y : R) : (x <= y)%R -> (Rceil x <= Rceil y)%Z.
Proof.
  intros Hxy. destruct (Rceil_spec x) as [Xlo _], (Rceil_spec y) as [_ Yhi].
  assert (H1 : (IZR (Rceil x) < IZR (Rceil y) + 1)%R) by lra.
  rewrite <- plus_IZR in H1. apply lt_IZR in H1. lia.
Qed.

Lemma Rceil_plus_IZR (x : R) (n : Z) : Rceil (x + IZR n) = (Rceil x + n)%Z.
Proof.
  apply Rceil_unique. rewrite plus_IZR. pose proof (Rceil_spec x). lra.
Qed.

Lemma Rceil_nonneg (x : R) : (0 <= x)%R -> (0 <= Rceil x)%Z.
Proof.
  intros Hx. destruct (Rceil_spec x) as [_ Hhi].
  apply le_IZR. lra.
Qed.

Lemma Rround_bounds (x : R) :
  (Rfloor x <= Rround_half_even x <= Rceil x)%Z.
Proof.
  unfold Rround_half_even.
  destruct (Rfloor_spec x) as [Flo Fhi]. destruct (Rceil_spec x) as [Clo Chi].
  assert (Hfc : (Rfloor x <= Rceil x)%Z) by (apply le_IZR; lra).
  assert (Hup : (1 / 2 <= x - IZR (Rfloor x))%R -> (Rfloor x + 1 <= Rceil x)%Z).
  { intros Hfrac. assert (Hlt : (IZR (Rfloor x) < IZR (Rceil x))%R) by lra.
    apply lt_IZR in Hlt. lia. }
  destruct (Rltb (x - IZR (Rfloor x)) (1 / 2)) eqn:E1; [lia|].
  apply Rltb_false in E1. specialize (Hup E1).
  destruct (Rltb (1 / 2) (x - IZR (Rfloor x))); [lia|].
  destruct (Z.even (Rfloor x)); lia.
Qed.

Lemma Rround_nonneg (x : R) : (0 <= x)%R -> (0 <= Rround_half_even x)%Z.
Proof.
  intros Hx. destruct (Rround_bounds x) as [Hlo _].
  destruct (Rfloor_spec x) as [_ Fhi].
  assert (H1 : (-1 < IZR (Rfloor x))%R) by lra.
  apply lt_IZR in H1. lia.
Qed.

(** *** The placement loop *)

Section PlacementFacts.
Context {pixel : Type}.

Ltac place_split xo yo h0 w0 cw ch :=
  destruct (Z.gtb_spec (xo + w0) cw), (Z.gtb_spec (yo + h0) ch),
    (Z.ltb_spec xo 0), (Z.ltb_spec yo 0); cbn beta iota;
  match goal with
  | |- context [((?a <=? 0)%Z || (?b <=? 0)%Z)%bool] =>
      destruct (Z.leb_spec a 0), (Z.leb_spec b 0); cbn [orb]
  end.

(** The loop either skips the image or places a non-empty extent that lies
    within the canvas and within the image. *)
Lemma place_extent (cw ch : Z) i (img : image pixel) xo yo j x y h w :
  place cw ch i img xo yo = Placed j x y h w ->
  j = i
  /\ (0 <= x)%Z /\ (0 <= y)%Z
  /\ (0 < h <= Z.of_nat (fst (shape img)))%Z
  /\ (0 < w <= Z.of_nat (snd (shape img)))%Z
  /\ (x + w <= cw)%Z /\ (y + h <= ch)%Z.
Proof.
  unfold place.
  set (h0 := Z.of_nat (fst (shape img))).
  set (w0 := Z.of_nat (snd (shape img))).
  assert (Hh0 : (0 <= h0)%Z) by (subst h0; lia).
  assert (Hw0 : (0 <= w0)%Z) by (subst w0; lia).
  place_split xo yo h0 w0 cw ch;
    try discriminate; intros [= <- <- <- <- <-]; lia.
Qed.

Lemma place_cases (cw ch : Z) i (img : image pixel) xo yo :
  place cw ch i img xo yo = Skipped i
  \/ exists x y h w,
      place cw ch i img xo yo = Placed i x y h w
      /\ (0 <= x)%Z /\ (0 <= y)%Z /\ (0 < h)%Z /\ (0 < w)%Z
      /\ (x + w <= cw)%Z /\ (y + h <= ch)%Z.
Proof.
  destruct (place cw ch i img xo yo) as [j x y h w|j] eqn:Ep.
  - destruct (place_extent _ _ _ _ _ _ Ep) as (-> & ? & ? & ? & ? & ? & ?).
    right. exists x, y, h, w. split; [reflexivity | lia].
  - left. revert Ep. unfold place.
    set (h0 := Z.of_nat (fst (shape img))).
    set (w0 := Z.of_nat (snd (shape img))).
    place_split xo yo h0 w0 cw ch; congruence.
Qed.

(** The loop skips exactly the images that have no pixel on the canvas. *)
Lemma place_skips_iff (cw ch : Z) i (img : image pixel) xo yo :
  place cw ch i img xo yo = Skipped i
  <-> no_pixel_on_canvas cw ch img xo yo = true.
Proof.
  unfold place, no_pixel_on_canvas.
  set (h0 := Z.of_nat (fst (shape img))).
  set (w0 := Z.of_nat (snd (shape img))).
  rewrite orb_true_iff, !Z.leb_le.
  place_split xo yo h0 w0 cw ch;
    (split; [intros Hs; try discriminate; lia
            | intros Hs; try reflexivity; exfalso; lia]).
Qed.

(** An image with a zero dimension is skipped. *)
Lemma place_degenerate (cw ch : Z) i (img : image pixel) xo yo :
  fst (shape img) = 0%nat \/ snd (shape img) = 0%nat ->
  place cw ch i img xo yo = Skipped i.
Proof.
  intros Hz. apply place_skips_iff. unfold no_pixel_on_canvas.
  rewrite orb_true_iff, !Z.leb_le. lia.
Qed.

(** An image with positive dimensions that lies within the canvas is
    placed in full. *)
Lemma place_full (cw ch : Z) i (img : image pixel) xo yo :
  (0 <= xo)%Z -> (0 <= yo)%Z ->
  (xo + Z.of_nat (snd (shape img)) <= cw)%Z ->
  (yo + Z.of_nat (fst (shape img)) <= ch)%Z ->
  (0 < fst (shape img))%nat -> (0 < snd (shape img))%nat ->
  place cw ch i img xo yo
  = Placed i xo yo (Z.of_nat (fst (shape img))) (Z.of_nat (snd (shape img))).
Proof.
  intros Hxo Hyo Hxw Hyh Hh Hw. unfold place.
  set (h0 := Z.of_nat (fst (shape img))) in *.
  set (w0 := Z.of_nat (snd (shape img))) in *.
  destruct (Z.gtb_spec (xo + w0) cw); [lia|].
  destruct (Z.gtb_spec (yo + h0) ch); [lia|].
  destruct (Z.ltb_spec xo 0); [lia|]. destruct (Z.ltb_spec yo 0); [lia|].
  cbn beta iota.
  destruct (Z.leb_spec w0 0); [subst w0; lia|].
  destruct (Z.leb_spec h0 0); [subst h0; lia|].
  reflexivity.
Qed.

End PlacementFacts.

Section PlacementLoop.
Context {F : Type} `{Arith F} `{Rounding F}.
Context {pixel : Type}.

(** A placement loop that returns has rounded both offsets of every image
    and recorded its placement, in order. *)
Lemma place_loop_spec (min_x min_y : F) (cw ch : Z)
      (items : list (image pixel * (F * F))) :
  forall i ps,
    place_loop min_x min_y cw ch i items = Ok ps ->
    length ps = length items
    /\ forall k img t,
        nth_error items k = Some (img, t) ->
        exists x_offset y_offset,
          fround (fst t -! min_x) = Ok x_offset
          /\ fround (snd t -! min_y) = Ok y_offset
          /\ nth_error ps k
             = Some (place cw ch (i + k) img x_offset y_offset).
Proof.
  induction items as [|[img0 t0] rest IH]; intros i ps Hps.
  - injection Hps as <-. split; [reflexivity|].
    intros [|k] img t Hk; discriminate.
  - cbn [place_loop] in Hps.
    destruct (fround (fst t0 -! min_x)) as [xo|] eqn:Ex; [|discriminate].
    destruct (fround (snd t0 -! min_y)) as [yo|] eqn:Ey; [|discriminate].
    cbn [bind] in Hps.
    destruct (place_loop min_x min_y cw ch (S i) rest) as [ps'|] eqn:El;
      [|discriminate].
    cbn [bind] in Hps. injection Hps as <-.
    destruct (IH (S i) ps' El) as [Hlen Hnth].
    split; [simpl; now rewrite Hlen|].
    intros [|k] img t Hk.
    + injection Hk as <- <-. exists xo, yo.
      rewrite Nat.add_0_r. auto.
    + destruct (Hnth k img t Hk) as (x & y & Hx & Hy & Hp).
      exists x, y. replace (i + S k)%nat with (S i + k)%nat by lia. auto.
Qed.

(** What a returning [blend_average] has computed. *)
Lemma blend_average_Ok (images : list (image pixel))
      (translations : list (F * F)) (c : composite) :
  blend_average images translations = Ok c ->
  exists min_x max_x min_y max_y,
    compute_canvas_bounds images translations
    = (Some min_x, Some max_x, Some min_y, Some max_y)
    /\ fceil (max_x -! min_x) = Ok (canvas_width c)
    /\ fceil (max_y -! min_y) = Ok (canvas_height c)
    /\ (0 <= canvas_width c)%Z /\ (0 <= canvas_height c)%Z
    /\ place_loop min_x min_y (canvas_width c) (canvas_height c) 0
         (combine images translations)
       = Ok (placements c).
Proof.
  unfold blend_average.
  destruct (length images =? 0)%nat; [discriminate|].
  destruct (compute_canvas_bounds images translations)
    as [[[min_x max_x] min_y] max_y].
  destruct max_x as [max_x|], min_x as [min_x|]; cbn [canvas_extent];
    try (destruct (below_inf _); discriminate);
    try (destruct (above_neg_inf _); discriminate);
    try discriminate.
  destruct (fceil (max_x -! min_x)) as [cw|] eqn:Ecw; [|discriminate].
  cbn [bind].
  destruct max_y as [max_y|], min_y as [min_y|]; cbn [canvas_extent];
    try (destruct (below_inf _); discriminate);
    try (destruct (above_neg_inf _); discriminate);
    try discriminate.
  destruct (fceil (max_y -! min_y)) as [ch|] eqn:Ech; [|discriminate].
  cbn [bind].
  destruct (Z.ltb_spec cw 0); [discriminate|].
  destruct (Z.ltb_spec ch 0); [discriminate|]. cbn [orb].
  destruct (place_loop min_x min_y cw ch 0 (combine images translations))
    as [ps|] eqn:El; [|discriminate].
  cbn [bind]. intros [= <-]. cbn [canvas_width canvas_height placements].
  exists min_x, max_x, min_y, max_y. auto 10.
Qed.

End PlacementLoop.

(** The placement loop in real arithmetic: it returns, with every offset
    rounded half to even. *)
Lemma place_loop_R {pixel} (min_x min_y : R) (cw ch : Z)
      (items : list (image pixel * (R * R))) :
  forall i, exists ps,
    place_loop min_x min_y cw ch i items = Ok ps
    /\ length ps = length items
    /\ forall k img t,
        nth_error items k = Some (img, t) ->
        nth_error ps k
        = Some (place cw ch (i + k) img
                  (Rround_half_even (fst t - min_x))
                  (Rround_half_even (snd t - min_y))).
Proof.
  induction items as [|[img0 t0] rest IH]; intros i.
  - exists []. split; [reflexivity|]. split; [reflexivity|].
    intros [|k] img t Hk; discriminate.
  - destruct (IH (S i)) as (ps & El & Hlen & Hnth).
    cbn [place_loop fround R_rounding fsub R_arith bind]. rewrite El.
    cbn [bind]. eexists. split; [reflexivity|].
    split; [simpl; now rewrite Hlen|].
    intros [|k] img t Hk.
    + injection Hk as <- <-. now rewrite Nat.add_0_r.
    + cbn [nth_error]. rewrite (Hnth k img t Hk).
      replace (i + S k)%nat with (S i + k)%nat by lia. reflexivity.
Qed.

(** In real arithmetic, on the canvas of a tight bounding box, an image
    with positive dimensions is placed in full at its rounded offset. *)
Lemma place_full_R {pixel} (items : list (image pixel * (R * R)))
      min_x max_x min_y max_y i (img : image pixel) (t : R * R) :
  tight_bounding_box items (min_x, max_x, min_y, max_y) ->
  In (img, t) items ->
  (0 < fst (shape img))%nat -> (0 < snd (shape img))%nat ->
  place (Rceil (max_x - min_x)) (Rceil (max_y - min_y)) i img
    (Rround_half_even (fst t - min_x)) (Rround_half_even (snd t - min_y))
  = Placed i (Rround_half_even (fst t - min_x))
      (Rround_half_even (snd t - min_y))
      (Z.of_nat (fst (shape img))) (Z.of_nat (snd (shape img))).
Proof.
  intros (Hin & _) Hit Hh Hw.
  destruct (Hin _ Hit) as (Hx1 & Hx2 & Hy1 & Hy2).
  unfold item_w, item_h in *. cbn [fst snd] in *.
  apply place_full; [| | | |exact Hh|exact Hw].
  - apply Rround_nonneg; lra.
  - apply Rround_nonneg; lra.
  - pose proof (Rround_bounds (fst t - min_x)%R) as [_ Hb].
    pose proof (Rceil_plus_IZR (fst t - min_x)%R
                  (Z.of_nat (snd (shape img)))) as Hc.
    pose proof (@Rceil_le (fst t - min_x + IZR (Z.of_nat (snd (shape img))))%R
                  (max_x - min_x)%R ltac:(lra)) as Hm.
    lia.
  - pose proof (Rround_bounds (snd t - min_y)%R) as [_ Hb].
    pose proof (Rceil_plus_IZR (snd t - min_y)%R
                  (Z.of_nat (fst (shape img)))) as Hc.
    pose proof (@Rceil_le (snd t - min_y + IZR (Z.of_nat (fst (shape img))))%R
                  (max_y - min_y)%R ltac:(lra)) as Hm.
    lia.
Qed.

(** [blend_average] in real arithmetic, for a non-empty list of placed
    images: it returns, on the canvas of the tight bounding box. *)
Lemma blend_average_R {pixel} (images : list (image pixel))
      (translations : list (R * R)) :
  combine images translations <> [] ->
  exists min_x max_x min_y max_y ps,
    compute_canvas_bounds images translations
    = (Some min_x, Some max_x, Some min_y, Some max_y)
    /\ tight_bounding_box (combine images translations)
         (min_x, max_x, min_y, max_y)
    /\ blend_average images translations
       = Ok {| canvas_width := Rceil (max_x - min_x);
               canvas_height := Rceil (max_y - min_y);
               placements := ps |}
    /\ length ps = length (combine images translations)
    /\ forall k img t,
        nth_error (combine images translations) k = Some (img, t) ->
        nth_error ps k
        = Some (place (Rceil (max_x - min_x)) (Rceil (max_y - min_y)) k img
                  (Rround_half_even (fst t - min_x))
                  (Rround_half_even (snd t - min_y))).
Proof.
  intros Hne.
  destruct (compute_canvas_bounds_tight images translations Hne)
    as (min_x & max_x & min_y & max_y & Hb & Ht).
  assert (Hcw : (0 <= Rceil (max_x - min_x))%Z /\ (0 <= Rceil (max_y - min_y))%Z).
  { destruct Ht as (Hin & (i1 & Hi1 & E1) & _ & (i3 & Hi3 & E3) & _).
    destruct (Hin _ Hi1) as (_ & Hx & _ & _).
    destruct (Hin _ Hi3) as (_ & _ & _ & Hy).
    pose proof (IZR_of_nat_nonneg (snd (shape (fst i1)))).
    pose proof (IZR_of_nat_nonneg (fst (shape (fst i3)))).
    unfold item_w, item_h in *.
    split; apply Rceil_nonneg; lra. }
  destruct Hcw as [Hcw Hch].
  destruct (place_loop_R min_x min_y (Rceil (max_x - min_x))
              (Rceil (max_y - min_y)) (combine images translations) 0)
    as (ps & El & Hlen & Hnth).
  exists min_x, max_x, min_y, max_y, ps.
  split; [exact Hb|]. split; [exact Ht|]. split; [|split; [exact Hlen|]].
  - unfold blend_average. rewrite Hb.
    destruct images as [|img0 images']; [simpl in Hne; contradiction|].
    cbn [length Nat.eqb canvas_extent fceil R_rounding fsub R_arith bind].
    destruct (Z.ltb_spec (Rceil (max_x - min_x)) 0); [lia|].
    destruct (Z.ltb_spec (Rceil (max_y - min_y)) 0); [lia|].
    cbn [orb]. rewrite El. reflexivity.
  - intros k img t Hk. rewrite (Hnth k img t Hk). reflexivity.
Qed.

(** C9, as the code has it.  In any arithmetic, whenever [blend_average]
    returns: the canvas is [ceil(max - min)] of the bounds wide and high,
    there is one placement decision per image that has an offset, made on
    the offsets rounded to integers, and the image is skipped, with a
    warning and no error, exactly when it has no pixel on the canvas.  In
    real arithmetic, for a non-empty list of placed images: the bounds are
    the tight bounding box of every image's corners at its offset,
    [blend_average] returns, an image is skipped exactly when one of its
    dimensions is 0, and every image with positive dimensions is placed in
    full at its rounded offset. *)
Theorem compositor_bounds_and_skips :
  (forall (F : Type) (A : Arith F) (Rd : Rounding F) (pixel : Type)
          (images : list (image pixel)) (translations : list (F * F))
          (c : composite),
      blend_average images translations = Ok c ->
      exists min_x max_x min_y max_y,
        compute_canvas_bounds images translations
        = (Some min_x, Some max_x, Some min_y, Some max_y)
        /\ fceil (max_x -! min_x) = Ok (canvas_width c)
        /\ fceil (max_y -! min_y) = Ok (canvas_height c)
        /\ length (placements c) = length (combine images translations)
        /\ forall k img t,
            nth_error (combine images translations) k = Some (img, t) ->
            exists x_offset y_offset p,
              fround (fst t -! min_x) = Ok x_offset
              /\ fround (snd t -! min_y) = Ok y_offset
              /\ nth_error (placements c) k = Some p
              /\ p = place (canvas_width c) (canvas_height c) k img
                       x_offset y_offset
              /\ (p = Skipped k
                  <-> no_pixel_on_canvas (canvas_width c) (canvas_height c)
                        img x_offset y_offset = true))
  /\ (forall (pixel : Type) (images : list (image pixel))
             (translations : list (R * R)),
      combine images translations <> [] ->
      exists min_x max_x min_y max_y c,
        compute_canvas_bounds images translations
        = (Some min_x, Some max_x, Some min_y, Some max_y)
        /\ tight_bounding_box (combine images translations)
             (min_x, max_x, min_y, max_y)
        /\ blend_average images translations = Ok c
        /\ canvas_width c = Rceil (max_x - min_x)
        /\ canvas_height c = Rceil (max_y - min_y)
        /\ length (placements c) = length (combine images translations)
        /\ forall k img t,
            nth_error (combine images translations) k = Some (img, t) ->
            let p :=
              place (canvas_width c) (canvas_height c) k img
                (Rround_half_even (fst t - min_x))
                (Rround_half_even (snd t - min_y)) in
            nth_error (placements c) k = Some p
            /\ (p = Skipped k
                <-> fst (shape img) = 0%nat \/ snd (shape img) = 0%nat)
            /\ ((0 < fst (shape img))%nat -> (0 < snd (shape img))%nat ->
                p = Placed k (Rround_half_even (fst t - min_x))
                      (Rround_half_even (snd t - min_y))
                      (Z.of_nat (fst (shape img)))
                      (Z.of_nat (snd (shape img))))).
Proof.
  split.
  - intros F A Rd pixel images translations c Hc.
    destruct (blend_average_Ok _ _ Hc)
      as (min_x & max_x & min_y & max_y & Hb & Hcw & Hch & _ & _ & Hl).
    exists min_x, max_x, min_y, max_y.
    destruct (place_loop_spec _ _ _ _ _ _ Hl) as [Hlen Hnth].
    refine (conj Hb (conj Hcw (conj Hch (conj Hlen _)))).
    intros k img t Hk.
    destruct (Hnth k img t Hk) as (xo & yo & Hx & Hy & Hp).
    exists xo, yo, (place (canvas_width c) (canvas_height c) k img xo yo).
    refine (conj Hx (conj Hy (conj Hp (conj eq_refl _)))).
    apply place_skips_iff.
  - intros pixel images translations Hne.
    destruct (blend_average_R images translations Hne)
      as (min_x & max_x & min_y & max_y & ps & Hb & Ht & Hc & Hlen & Hnth).
    exists min_x, max_x, min_y, max_y. eexists.
    refine (conj Hb (conj Ht (conj Hc (conj eq_refl (conj eq_refl _))))).
    cbn [placements canvas_width canvas_height].
    split; [exact Hlen|].
    intros k img t Hk.
    split; [|split].
    + exact (Hnth k img t Hk).
    + split.
      * intros Hs.
        destruct (Nat.eq_dec (fst (shape img)) 0) as [|Hh]; [now left|].
        destruct (Nat.eq_dec (snd (shape img)) 0) as [|Hw]; [now right|].
        rewrite (@place_full_R _ _ _ _ _ _ k img t Ht) in Hs;
          [discriminate | eapply nth_error_In; exact Hk | lia | lia].
      * apply place_degenerate.
    + intros Hh Hw. apply (@place_full_R _ _ _ _ _ _ k img t Ht);
        [eapply nth_error_In; exact Hk | exact Hh | exact Hw].
Qed.

(** The theorem on worked inputs.  In binary64, a 3x1 image and an image
    with no columns placed beside it: the first is placed and the second,
    which has no pixel on the canvas, is skipped.  In real arithmetic, a
    1x1 image and an image with no columns: [blend_average] returns, the
    first image is placed in full and the second is skipped. *)
Lemma compositor_bounds_and_skips_witness :
  (exists c,
      blend_average [column 3; [[]; []]] [(0, 0); (5, 1)]%float = Ok c
      /\ nth_error (placements c) 0 = Some (Placed 0 0 0 3 1)
      /\ nth_error (placements c) 1 = Some (Skipped 1))
  /\ (exists c,
        blend_average [[[tt]]; [[]]] [(0, 0); (1, 0)]%R = Ok c
        /\ length (placements c) = 2%nat
        /\ (exists x y, nth_error (placements c) 0 = Some (Placed 0 x y 1 1))
        /\ nth_error (placements c) 1 = Some (Skipped 1)).
Proof.
  destruct compositor_bounds_and_skips as [Hany Hreal]. split.
  - assert (Hc : blend_average [column 3; [[]; []]] [(0, 0); (5, 1)]%float
                 = Ok {| canvas_width := 5; canvas_height := 3;
                         placements := [Placed 0 0 0 3 1; Skipped 1] |})
      by (vm_compute; reflexivity).
    eexists. split; [exact Hc|].
    destruct (Hany _ _ _ _ _ _ _ Hc)
      as (min_x & max_x & min_y & max_y & _ & _ & _ & _ & Hk).
    split; [reflexivity|].
    destruct (Hk 1%nat [[]; []] (5, 1)%float eq_refl)
      as (xo & yo & p & _ & _ & Hp & _ & Hskip).
    rewrite Hp. f_equal. apply Hskip.
    cbn [placements nth_error] in Hp. injection Hp as <-.
    apply Hskip. reflexivity.
  - assert (Hne : combine [[[tt]]; [[]]] [(0, 0); (1, 0)]%R <> [])
      by discriminate.
    destruct (Hreal _ [[[tt]]; [[]]] [(0, 0); (1, 0)]%R Hne)
      as (min_x & max_x & min_y & max_y & c & _ & _ & Hc & _ & _ & Hl & Hk).
    exists c. split; [exact Hc|]. split; [exact Hl|]. split.
    + destruct (Hk 0%nat [[tt]] (0, 0)%R eq_refl) as (Hp & _ & Hfull).
      rewrite Hp, (Hfull ltac:(simpl; lia) ltac:(simpl; lia)).
      eexists. eexists. reflexivity.
    + destruct (Hk 1%nat [[]] (1, 0)%R eq_refl) as (Hp & Hskip & _).
      rewrite Hp. f_equal. apply Hskip. right. reflexivity.
Defined.

(** C9 as stated fails: an image that has no pixel on the canvas is
    skipped and [blend_average] returns normally.  In binary64 a 3x1 image
    at vertical offset 1e17 has [1e17 + 3 = 1e17], the canvas is 0 pixels
    high, the image lies outside it and is skipped; and an image with no
    columns placed beside a 3x1 image is skipped as well. *)
Lemma compositor_skips_without_raising :
  (1e17 + 3 = 1e17)%float
  /\ blend_average [column 3] [(0, 1e17)]%float
     = Ok {| canvas_width := 1; canvas_height := 0;
             placements := [Skipped 0] |}
  /\ no_pixel_on_canvas 1 0 (column 3) 0 0 = true
  /\ blend_average [column 3; [[]; []]] [(0, 0); (5, 1)]%float
     = Ok {| canvas_width := 5; canvas_height := 3;
             placements := [Placed 0 0 0 3 1; Skipped 1] |}
  /\ no_pixel_on_canvas 5 3 ([[]; []] : image float) 5 1 = true.
Proof. repeat split; vm_compute; reflexivity. Qed.

(** ** Border trim *)

(** [np.where] lists, in increasing order, the indices at which the vector
    is set. *)
Lemma np_where_In (v : list bool) i :
  In i (np_where v) <-> nth i v false = true.
Proof.
  unfold np_where. rewrite filter_In, in_seq. split.
  - intros [_ Hi]; exact Hi.
  - intros Hi. split; [|exact Hi].
    destruct (Nat.lt_ge_cases i (length v)) as [Hlt|Hge]; [lia|].
    rewrite nth_overflow in Hi by exact Hge. discriminate.
Qed.

Lemma filter_seq_bounds (P : nat -> bool) n :
  forall a i d,
    In i (filter P (seq a n)) ->
    (hd d (filter P (seq a n)) <= i <= last (filter P (seq a n)) d)%nat.
Proof.
  induction n as [|n IH]; intros a i d Hi.
  - destruct Hi.
  - simpl in *. destruct (P a).
    + assert (Hge : forall j, In j (filter P (seq (S a) n)) -> (a <= j)%nat).
      { intros j Hj. apply filter_In in Hj. destruct Hj as [Hj _].
        apply in_seq in Hj. lia. }
      cbn [hd]. destruct Hi as [<-|Hi].
      * split; [lia|].
        destruct (filter P (seq (S a) n)) as [|j l] eqn:E; [simpl; lia|].
        change (last (a :: j :: l) d) with (last (j :: l) d).
        specialize (IH (S a) j d). rewrite E in IH.
        specialize (IH (or_introl eq_refl)).
        specialize (Hge j (or_introl eq_refl)). cbn [hd] in IH. lia.
      * split; [apply Hge; exact Hi|].
        destruct (filter P (seq (S a) n)) as [|j l] eqn:E; [destruct Hi|].
        change (last (a :: j :: l) d) with (last (j :: l) d).
        specialize (IH (S a) i d). rewrite E in IH. apply IH. exact Hi.
    + apply IH. exact Hi.
Qed.

Lemma hd_In {A} (d : A) (l : list A) : l <> [] -> In (hd d l) l.
Proof. destruct l; [contradiction | intros _; left; reflexivity]. Qed.

Lemma last_In {A} (d : A) (l : list A) : l <> [] -> In (last l d) l.
Proof.
  induction l as [|a l IH]; [contradiction|]. intros _.
  destruct l as [|b l]; [left; reflexivity|].
  right. apply IH. discriminate.
Qed.

(** First and last set index of a vector with a set entry. *)
Lemma np_where_first_last (v : list bool) i0 :
  nth i0 v false = true ->
  nth (hd O (np_where v)) v false = true
  /\ nth (last (np_where v) O) v false = true
  /\ forall i, nth i v false = true ->
       (hd O (np_where v) <= i <= last (np_where v) O)%nat.
Proof.
  intros Hi0.
  assert (Hne : np_where v <> []).
  { intros E. apply np_where_In in Hi0. rewrite E in Hi0. destruct Hi0. }
  split; [|split].
  - apply np_where_In, hd_In, Hne.
  - apply np_where_In, last_In, Hne.
  - intros i Hi. apply np_where_In in Hi.
    apply filter_seq_bounds. exact Hi.
Qed.

Lemma existsb_id_nth (v : list bool) :
  existsb (fun b => b) v = true <-> exists i, nth i v false = true.
Proof.
  rewrite existsb_exists. split.
  - intros (b & Hin & Hb). subst b.
    destruct (In_nth v true false Hin) as (i & _ & Hi). now exists i.
  - intros (i & Hi). exists true. split; [|reflexivity].
    destruct (Nat.lt_ge_cases i (length v)) as [Hlt|Hge].
    + rewrite <- Hi. apply nth_In. exact Hlt.
    + rewrite nth_overflow in Hi by exact Hge. discriminate.
Qed.

Lemma nth_map_false {A} (f : A -> bool) (row : list A) x :
  nth x (map f row) false
  = match nth_error row x with Some p => f p | None => false end.
Proof.
  revert x; induction row as [|p row IH]; intros [|x]; simpl;
    try reflexivity. apply IH.
Qed.

Section CropFacts.
Context {pixel : Type}.
Variable gray : pixel -> Z.
Variable threshold : Z.

Lemma non_black_mask_nth (img : image pixel) y x :
  nth x (nth y (non_black_mask gray img threshold) []) false = bright_at gray img threshold y x.
Proof.
  unfold non_black_mask, bright_at.
  change (@nil bool) with (map (fun p => (threshold <? gray p)%Z) []).
  rewrite map_nth, nth_map_false.
  destruct (nth_error img y) as [row|] eqn:E.
  - now rewrite (nth_error_nth _ _ _ E).
  - apply nth_error_None in E. rewrite nth_overflow by exact E.
    now destruct x.
Qed.

Lemma bright_at_in_range (img : image pixel) w y x :
  Forall (fun row => length row = w) img ->
  bright_at gray img threshold y x = true ->
  (y < length img)%nat /\ (x < w)%nat.
Proof.
  intros Hrect. unfold bright_at.
  destruct (nth_error img y) as [row|] eqn:Ey; [|discriminate].
  destruct (nth_error row x) as [p|] eqn:Ex; [|discriminate]. intros _.
  split.
  - apply nth_error_Some. congruence.
  - rewrite Forall_forall in Hrect.
    rewrite <- (Hrect row (nth_error_In _ _ Ey)).
    apply nth_error_Some. congruence.
Qed.

Lemma any_rows_nth (img : image pixel) y :
  nth y (any_rows (non_black_mask gray img threshold)) false = true
  <-> exists x, bright_at gray img threshold y x = true.
Proof.
  unfold any_rows.
  change false with (existsb (fun b : bool => b) []) at 1.
  rewrite map_nth, existsb_id_nth.
  split; intros (x & Hx); exists x;
    [rewrite <- non_black_mask_nth | rewrite non_black_mask_nth]; exact Hx.
Qed.

Lemma any_cols_nth (img : image pixel) w x :
  nth x (any_cols w (non_black_mask gray img threshold)) false = true
  <-> (x < w)%nat /\ exists y, bright_at gray img threshold y x = true.
Proof.
  unfold any_cols.
  destruct (Nat.lt_ge_cases x w) as [Hlt|Hge].
  - rewrite (nth_indep _ false
               (existsb (fun row => nth O row false) (non_black_mask gray img threshold)))
      by (rewrite length_map, length_seq; exact Hlt).
    rewrite (map_nth (fun x0 => existsb (fun row => nth x0 row false)
                                  (non_black_mask gray img threshold))).
    rewrite seq_nth by exact Hlt. cbn [Nat.add].
    rewrite existsb_exists. split.
    + intros (row & Hin & Hx). split; [exact Hlt|].
      destruct (In_nth _ _ [] Hin) as (y & _ & Hy).
      exists y. rewrite <- non_black_mask_nth, Hy. exact Hx.
    + intros (_ & y & Hy). rewrite <- non_black_mask_nth in Hy.
      exists (nth y (non_black_mask gray img threshold) []). split; [|exact Hy].
      destruct (Nat.lt_ge_cases y (length (non_black_mask gray img threshold))) as [Hl|Hg].
      * apply nth_In. exact Hl.
      * rewrite (nth_overflow _ _ Hg) in Hy. destruct x; discriminate.
  - rewrite nth_overflow by (rewrite length_map, length_seq; exact Hge).
    split; [discriminate | intros [Hc _]; lia].
Qed.

End CropFacts.

Section CropCases.
Context {pixel : Type}.
Variable gray : pixel -> Z.
Variable threshold : Z.

(** The two outcomes of the trim on a rectangular, non-empty image. *)
Lemma crop_panorama_cases (img : image pixel) (w : nat) :
  (0 < length img)%nat -> (0 < w)%nat ->
  Forall (fun row => length row = w) img ->
  ((forall y x, bright_at gray img threshold y x = false)
   /\ crop_panorama gray img threshold = Ok img)
  \/ (exists y_min y_max x_min x_max,
         crop_panorama gray img threshold
         = Ok (map (slice x_min (x_max + 1)) (slice y_min (y_max + 1) img))
         /\ (forall y x, bright_at gray img threshold y x = true ->
               (y_min <= y <= y_max)%nat /\ (x_min <= x <= x_max)%nat)
         /\ (exists x, bright_at gray img threshold y_min x = true)
         /\ (exists x, bright_at gray img threshold y_max x = true)
         /\ (exists y, bright_at gray img threshold y x_min = true)
         /\ (exists y, bright_at gray img threshold y x_max = true)).
Proof.
  intros Hh Hw Hrect.
  assert (Hshape : shape img = (length img, w)).
  { unfold shape. f_equal. destruct img as [|row rest]; [simpl in Hh; lia|].
    inversion Hrect; subst. reflexivity. }
  unfold crop_panorama. rewrite Hshape.
  assert (Hsize : (length img * w =? 0)%nat = false)
    by (apply Nat.eqb_neq; nia).
  rewrite Hsize. cbv zeta.
  set (rows := any_rows (non_black_mask gray img threshold)).
  set (cols := any_cols w (non_black_mask gray img threshold)).
  destruct (existsb (fun b => b) rows) eqn:Er.
  - right. apply existsb_id_nth in Er. destruct Er as (y0 & Hy0).
    pose proof Hy0 as Hb0. apply any_rows_nth in Hb0.
    destruct Hb0 as (x0 & Hb0).
    destruct (@bright_at_in_range _ gray threshold _ _ _ _ Hrect Hb0) as [_ Hx0w].
    assert (Hx0 : nth x0 cols false = true)
      by (apply any_cols_nth; split; [exact Hx0w | exists y0; exact Hb0]).
    assert (Ec : existsb (fun b => b) cols = true)
      by (apply existsb_id_nth; exists x0; exact Hx0).
    rewrite Ec. cbn [negb orb].
    destruct (np_where_first_last rows y0 Hy0) as (Hr1 & Hr2 & Hr3).
    destruct (np_where_first_last cols x0 Hx0) as (Hc1 & Hc2 & Hc3).
    exists (hd O (np_where rows)), (last (np_where rows) O),
      (hd O (np_where cols)), (last (np_where cols) O).
    split; [reflexivity|]. split; [|repeat split].
    + intros y x Hb. split.
      * apply Hr3. apply any_rows_nth. exists x; exact Hb.
      * apply Hc3. apply any_cols_nth.
        destruct (@bright_at_in_range _ gray threshold _ _ _ _ Hrect Hb) as [_ Hxw].
        split; [exact Hxw | exists y; exact Hb].
    + apply any_rows_nth. exact Hr1.
    + apply any_rows_nth. exact Hr2.
    + apply any_cols_nth in Hc1. apply Hc1.
    + apply any_cols_nth in Hc2. apply Hc2.
  - left. cbn [negb orb]. split; [|reflexivity].
    intros y x. destruct (bright_at gray img threshold y x) eqn:Hb;
      [|reflexivity].
    assert (Hy : nth y rows false = true)
      by (apply any_rows_nth; exists x; exact Hb).
    assert (Et : existsb (fun b => b) rows = true)
      by (apply existsb_id_nth; exists y; exact Hy).
    congruence.
Qed.

End CropCases.

(** An array without pixels is refused. *)
Lemma crop_panorama_empty_raises {pixel} (gray : pixel -> Z) (threshold : Z) :
  crop_panorama gray [] threshold = Raise ValueError
  /\ crop_panorama gray [[]; []] threshold = Raise ValueError.
Proof. split; reflexivity. Qed.

(** C8.  On a rectangular, non-empty image: if no pixel exceeds the
    threshold the image is returned unmodified; otherwise the result is the
    sub-image on the tight bounding box of the pixels that exceed it (every
    such pixel lies in the box and each side of the box holds one).  In
    particular, when those pixels are exactly an interior rectangle
    surrounded by a border [b] pixels wide on every side (10 in the
    example), the result is exactly that interior.  The threshold defaults
    to 10. *)
Theorem crop_to_tight_bounding_box (pixel : Type) (gray : pixel -> Z)
        (img : image pixel) (threshold : Z) (w : nat) :
  (0 < length img)%nat -> (0 < w)%nat ->
  Forall (fun row => length row = w) img ->
  ((forall y x, bright_at gray img threshold y x = false) ->
   crop_panorama gray img threshold = Ok img)
  /\ ((exists y x, bright_at gray img threshold y x = true) ->
      exists y_min y_max x_min x_max,
        crop_panorama gray img threshold
        = Ok (map (slice x_min (x_max + 1)) (slice y_min (y_max + 1) img))
        /\ (forall y x, bright_at gray img threshold y x = true ->
              (y_min <= y <= y_max)%nat /\ (x_min <= x <= x_max)%nat)
        /\ (exists x, bright_at gray img threshold y_min x = true)
        /\ (exists x, bright_at gray img threshold y_max x = true)
        /\ (exists y, bright_at gray img threshold y x_min = true)
        /\ (exists y, bright_at gray img threshold y x_max = true))
  /\ (forall b hi wi,
         (0 < hi)%nat -> (0 < wi)%nat ->
         length img = (b + hi + b)%nat -> w = (b + wi + b)%nat ->
         (forall y x, bright_at gray img threshold y x = true
                      <-> (b <= y < b + hi)%nat /\ (b <= x < b + wi)%nat) ->
         crop_panorama gray img threshold
         = Ok (map (slice b (b + wi)) (slice b (b + hi) img)))
  /\ default_threshold = 10%Z.
Proof.
  intros Hh Hw Hrect.
  pose proof (crop_panorama_cases gray threshold Hh Hw Hrect) as Hcases.
  split; [|split; [|split]].
  - intros Hdark.
    destruct Hcases as [[_ Hc]|(y1 & y2 & x1 & x2 & _ & _ & (x & Hb) & _)];
      [exact Hc|].
    rewrite Hdark in Hb. discriminate.
  - intros (y & x & Hb).
    destruct Hcases as [[Hdark _]|Hbox]; [|exact Hbox].
    rewrite Hdark in Hb. discriminate.
  - intros b hi wi Hhi Hwi Hlen Hwid Hin.
    destruct Hcases
      as [[Hdark _]|(y1 & y2 & x1 & x2 & Hc & Hall & (xa & Ha) & (xb & Hb)
                     & (yc & Hcx) & (yd & Hd))].
    + assert (Hb : bright_at gray img threshold b b = true)
        by (apply Hin; lia).
      rewrite Hdark in Hb. discriminate.
    + assert (H00 : bright_at gray img threshold b b = true)
        by (apply Hin; lia).
      assert (H11 : bright_at gray img threshold (b + hi - 1) (b + wi - 1)
                    = true) by (apply Hin; lia).
      apply Hall in H00, H11. apply Hin in Ha, Hb, Hcx, Hd.
      replace y1 with b in Hc by lia.
      replace x1 with b in Hc by lia.
      replace (y2 + 1)%nat with (b + hi)%nat in Hc by lia.
      replace (x2 + 1)%nat with (b + wi)%nat in Hc by lia.
      exact Hc.
  - reflexivity.
Qed.

(** The theorem at the worked canvas: the 10-pixel border is removed and
    the single interior pixel is left. *)
Lemma crop_to_tight_bounding_box_witness :
  (0 < length bordered_example)%nat
  /\ (0 < 21)%nat
  /\ Forall (fun row => length row = 21%nat) bordered_example
  /\ crop_panorama (fun p : Z => p) bordered_example 10 = Ok [[200%Z]].
Proof.
  assert (Hh : (0 < length bordered_example)%nat) by (vm_compute; lia).
  assert (Hw : (0 < 21)%nat) by lia.
  assert (Hrect : Forall (fun row => length row = 21%nat) bordered_example)
    by (repeat constructor).
  refine (conj Hh (conj Hw (conj Hrect _))).
  destruct (crop_to_tight_bounding_box (fun p : Z => p) 10 Hh Hw Hrect)
    as (_ & _ & Hborder & _).
  rewrite (Hborder 10%nat 1%nat 1%nat);
    [vm_compute; reflexivity | lia | lia | reflexivity | reflexivity |].
  intros y x.
  do 22 (destruct y as [|y];
         [do 22 (destruct x as [|x];
                 [vm_compute; split; intros; first [reflexivity | lia
                                                   | discriminate]|]);
          vm_compute; split; intros; first [lia | discriminate]|]).
  vm_compute. split; intros; first [lia | discriminate].
Defined.

(** C8 as stated fails on a canvas without pixels: no pixel exceeds the
    threshold, and the trim raises [ValueError] instead of returning the
    canvas.  The compositor returns such a canvas in binary64 for a 3x1
    image at vertical offset 1e17. *)
Lemma crop_of_an_empty_canvas_raises :
  (forall (gray : bgr -> Z) y x,
      bright_at gray [] default_threshold y x = false)
  /\ (forall gray : bgr -> Z,
         crop_panorama gray [] default_threshold = Raise ValueError)
  /\ (forall (gray : bgr -> Z) y x,
         bright_at gray [[]; []] default_threshold y x = false)
  /\ (forall gray : bgr -> Z,
         crop_panorama gray [[]; []] default_threshold = Raise ValueError)
  /\ blend_average_image
       [[[(9, 9, 9)%Z]; [(9, 9, 9)%Z]; [(9, 9, 9)%Z]]] [(0, 1e17)]%float
     = Ok [].
Proof.
  split; [|split; [|split; [|split]]].
  - intros gray [|y] x; reflexivity.
  - reflexivity.
  - intros gray [|[|[|y]]] [|x]; reflexivity.
  - reflexivity.
  - vm_compute. reflexivity.
Qed.

(** ** The pipeline properties on the worked instance *)


(** Two images of heights 2 and 3: the first and the last image have 5
    matches, all inliers, so the gate is closed and step 6 ends normally
    with the focal length unchanged and the skip logged. *)
Lemma drift_correction_gate_witness :
  let st := ex_aligned [column 2; column 3] in
  exists res g',
    first_last_estimate ex_match ex_points counter_randint ex_config st
    = Some (res, g')
    /\ should_apply_drift_correction res default_min_inlier_ratio = false
    /\ exists st',
        _apply_drift_correction ex_match ex_points counter_randint
          ex_config st = Ok st'
        /\ focal_length st' = focal_length st
        /\ drift_json st' = drift_json st
        /\ warnings st' = warnings st ++ [DriftSkipped].
Proof.
  intros st.
  destruct (first_last_estimate ex_match ex_points counter_randint ex_config st)
    as [[res g']|] eqn:Hest; [|vm_compute in Hest; discriminate].
  exists res, g'. split; [reflexivity|].
  assert (Hgate : should_apply_drift_correction res default_min_inlier_ratio
                  = false).
  { vm_compute in Hest. injection Hest as <- <-. vm_compute. reflexivity. }
  split; [exact Hgate|].
  destruct (drift_correction_gate ex_match ex_points counter_randint
              ex_config st) as (_ & _ & _ & Hstep).
  destruct (Hstep res g' Hest) as [_ Hskip].
  exact (Hskip Hgate).
Defined.

(** Two images of height 6, every pair with 12 matches displaced by
    (0, 50): drift correction is applied and the focal length becomes
    [500 * (1 - (50 / 500) / (2 * pi))], about 492.04, while the images
    that reach the compositor are the projections made at 500, which
    differ from the projections at the corrected focal length. *)
Lemma blend_consumes_original_projections_witness :
  let imgs := [column 6; column 6] in
  exists st',
    run_to_drift ex_warp ex_features ex_match ex_points counter_randint
      ex_config (ex_loaded imgs) = Ok st'
    /\ focal_length st'
       = (500 * (1 - (50 / 500) / (2 * Binary64.np_pi)))%float
    /\ warped_images st' = map (fun img => ex_warp img 500%float) imgs
    /\ warped_images st'
       <> map (fun img => ex_warp img (focal_length st')) imgs.
Proof.
  intros imgs.
  destruct (run_to_drift ex_warp ex_features ex_match ex_points
              counter_randint ex_config (ex_loaded imgs))
    as [st'|e] eqn:Hrun; [|vm_compute in Hrun; discriminate].
  exists st'. split; [reflexivity|].
  destruct (blend_consumes_original_projections ex_warp ex_features ex_match
              ex_points counter_randint ex_render ex_config (ex_loaded imgs)
              Hrun) as [Hw _].
  assert (Hf : focal_length st'
               = (500 * (1 - (50 / 500) / (2 * Binary64.np_pi)))%float).
  { vm_compute in Hrun. injection Hrun as <-. vm_compute. reflexivity. }
  split; [exact Hf|]. split; [exact Hw|].
  rewrite Hw, Hf. vm_compute. discriminate.
Defined.

(** ** Feature matcher *)

Lemma subsequence_refl {A} (l : list A) : subsequence l l.
Proof. induction l; constructor; assumption. Qed.

Section MatcherFacts.
Context {F : Type} `{Arith F}.

Lemma ratio_test_In (r : F) (ms : list (list (DMatch F))) m :
  In m (ratio_test r ms)
  <-> exists n, In [m; n] ms /\ (distance m <! r *! distance n) = true.
Proof.
  induction ms as [|match_pair rest IH].
  - simpl. split; [intros [] | intros (n & [] & _)].
  - assert (Hskip : (forall a b, match_pair <> [a; b]) ->
                    (exists n, In [m; n] (match_pair :: rest)
                               /\ (distance m <! r *! distance n) = true)
                    <-> (exists n, In [m; n] rest
                                   /\ (distance m <! r *! distance n) = true)).
    { intros Hne. split; intros (n & Hin & Ht); exists n; (split; [|exact Ht]).
      - destruct Hin as [E|Hin]; [exfalso; eapply Hne; exact E | exact Hin].
      - right; exact Hin. }
    destruct match_pair as [|a [|b [|c tl]]]; cbn [ratio_test].
    + rewrite IH, Hskip; [reflexivity | discriminate].
    + rewrite IH, Hskip; [reflexivity | discriminate].
    + destruct (distance a <! r *! distance b) eqn:Et.
      * cbn [In]. rewrite IH. split.
        -- intros [<-|(n & Hin & Ht)].
           ++ exists b. split; [left; reflexivity | exact Et].
           ++ exists n. split; [right; exact Hin | exact Ht].
        -- intros (n & [E|Hin] & Ht).
           ++ injection E as -> ->. left; reflexivity.
           ++ right. exists n. split; assumption.
      * rewrite IH. split.
        -- intros (n & Hin & Ht). exists n. split; [right; exact Hin | exact Ht].
        -- intros (n & [E|Hin] & Ht).
           ++ injection E as -> ->. congruence.
           ++ exists n. split; assumption.
    + rewrite IH, Hskip; [reflexivity | discriminate].
Qed.

Lemma ratio_test_length (r : F) (ms : list (list (DMatch F))) :
  (length (ratio_test r ms) <= length ms)%nat.
Proof.
  induction ms as [|match_pair rest IH]; [simpl; lia|].
  destruct match_pair as [|a [|b [|c tl]]]; cbn [ratio_test length];
    try lia.
  destruct (distance a <! r *! distance b); cbn [length]; lia.
Qed.

Lemma ratio_test_subsequence (r : F) (ms : list (list (DMatch F))) :
  subsequence (ratio_test r ms) (flat_map (firstn 1) ms).
Proof.
  induction ms as [|match_pair rest IH]; [constructor|].
  destruct match_pair as [|a [|b [|c tl]]]; cbn [ratio_test flat_map firstn app].
  - exact IH.
  - constructor; exact IH.
  - destruct (distance a <! r *! distance b); constructor; exact IH.
  - constructor; exact IH.
Qed.

End MatcherFacts.

(** X1.  [match_features] returns no match when a descriptor set is
    [None].  Otherwise a match is returned exactly when it is the nearest
    neighbour [m] of a query that has two neighbours [m], [n] with
    [m.distance < ratio_threshold * n.distance]; there are at most as many
    matches as queries, and they come in the order of the queries. *)
Theorem match_features_keeps_the_pairs_that_pass
        (F : Type) (A : Arith F) (descriptors : Type)
        (flann_knnMatch bf_knnMatch :
           descriptors -> descriptors -> list (list (DMatch F)))
        (d1 d2 : descriptors) (ratio_threshold : F) (use_flann : bool) :
  let matches :=
    if use_flann then flann_knnMatch d1 d2 else bf_knnMatch d1 d2 in
  let good :=
    match_features flann_knnMatch bf_knnMatch (Some d1) (Some d2)
      ratio_threshold use_flann in
  (forall m,
      In m good
      <-> exists n, In [m; n] matches
                    /\ (distance m <! ratio_threshold *! distance n) = true)
  /\ (length good <= length matches)%nat
  /\ subsequence good (flat_map (firstn 1) matches)
  /\ (forall d,
         match_features flann_knnMatch bf_knnMatch None d
           ratio_threshold use_flann = []
         /\ match_features flann_knnMatch bf_knnMatch d None
              ratio_threshold use_flann = []).
Proof.
  intros matches good. subst good. cbn [match_features]. fold matches.
  split; [|split; [|split]].
  - intros m. apply ratio_test_In.
  - apply ratio_test_length.
  - apply ratio_test_subsequence.
  - intros d. split; [reflexivity | destruct d; reflexivity].
Qed.

Lemma ratio_test_monotone_R (r1 r2 : R) (ms : list (list (DMatch R))) :
  Forall (Forall (fun m => (0 <= distance m)%R)) ms ->
  (r1 <= r2)%R ->
  subsequence (ratio_test r1 ms) (ratio_test r2 ms).
Proof.
  intros Hpos Hr. induction Hpos as [|match_pair rest Hp _ IH]; [constructor|].
  destruct match_pair as [|a [|b [|c tl]]]; cbn [ratio_test]; try exact IH.
  cbn [flt fmul R_arith].
  assert (Hb : (0 <= distance b)%R).
  { inversion Hp as [|? ? _ Hp']; subst. inversion Hp'; subst. assumption. }
  destruct (Rltb (distance a) (r1 * distance b)) eqn:E1;
    destruct (Rltb (distance a) (r2 * distance b)) eqn:E2.
  - apply subsequence_keep. exact IH.
  - apply Rltb_true in E1. apply Rltb_false in E2.
    assert (r1 * distance b <= r2 * distance b)%R
      by (apply Rmult_le_compat_r; assumption).
    lra.
  - apply subsequence_skip. exact IH.
  - exact IH.
Qed.

(** X2.  In real arithmetic, with distances that are not negative, raising
    the ratio threshold only adds matches: the matches kept at a threshold
    are kept, in the same order, at every larger one. *)
Theorem match_features_grows_with_the_ratio
        (descriptors : Type)
        (flann_knnMatch bf_knnMatch :
           descriptors -> descriptors -> list (list (DMatch R)))
        (d1 d2 : option descriptors) (r1 r2 : R) (use_flann : bool) :
  (forall a b,
      Forall (Forall (fun m => (0 <= distance m)%R)) (flann_knnMatch a b)
      /\ Forall (Forall (fun m => (0 <= distance m)%R)) (bf_knnMatch a b)) ->
  (r1 <= r2)%R ->
  subsequence
    (match_features flann_knnMatch bf_knnMatch d1 d2 r1 use_flann)
    (match_features flann_knnMatch bf_knnMatch d1 d2 r2 use_flann).
Proof.
  intros Hpos Hr. unfold match_features.
  destruct d1 as [a|], d2 as [b|]; try constructor.
  destruct (Hpos a b) as [Hf Hb].
  destruct use_flann; apply ratio_test_monotone_R; assumption.
Qed.

Section MatchPointsFacts.
Context {F : Type} `{Arith F}.
Variable np_float32 : F -> F.

Lemma points_at_spec (keypoints : list (F * F)) (idx : DMatch F -> nat)
      (matches : list (DMatch F)) :
  match points_at np_float32 keypoints idx matches with
  | Ok pts =>
      length pts = length matches
      /\ forall k m,
          nth_error matches k = Some m ->
          exists pt,
            nth_error keypoints (idx m) = Some pt
            /\ nth_error pts k
               = Some (np_float32 (fst pt), np_float32 (snd pt))
  | Raise e =>
      e = IndexError
      /\ exists m, In m matches /\ (length keypoints <= idx m)%nat
  end.
Proof.
  induction matches as [|m rest IH]; cbn [points_at].
  - split; [reflexivity|]. intros [|k] m Hk; discriminate.
  - destruct (nth_error keypoints (idx m)) as [pt|] eqn:Ept.
    + destruct (points_at np_float32 keypoints idx rest) as [pts|e];
        cbn [bind].
      * destruct IH as [Hlen Hnth]. split; [simpl; now rewrite Hlen|].
        intros [|k] m' Hk; simpl in Hk.
        -- injection Hk as <-. exists pt. split; [exact Ept | reflexivity].
        -- apply Hnth. exact Hk.
      * destruct IH as [He (m' & Hin & Hout)]. split; [exact He|].
        exists m'. split; [right; exact Hin | exact Hout].
    + split; [reflexivity|]. exists m. split; [left; reflexivity|].
      apply nth_error_None. exact Ept.
Qed.

End MatchPointsFacts.

(** X3.  [extract_match_points] either returns two arrays with one row per
    match, row [k] holding the coordinates of the keypoints that match [k]
    names in the first and in the second image, or raises [IndexError], and
    it raises only when some match names a keypoint that does not exist.
    The two arrays it hands to the estimator therefore always have the same
    length. *)
Theorem extract_match_points_rows_follow_the_matches
        (F : Type) (A : Arith F) (np_float32 : F -> F)
        (keypoints1 keypoints2 : list (F * F)) (matches : list (DMatch F)) :
  match extract_match_points np_float32 keypoints1 keypoints2 matches with
  | Ok (pts1, pts2) =>
      length pts1 = length matches
      /\ length pts2 = length matches
      /\ forall k m,
          nth_error matches k = Some m ->
          exists a b,
            nth_error keypoints1 (queryIdx m) = Some a
            /\ nth_error keypoints2 (trainIdx m) = Some b
            /\ nth_error pts1 k = Some (np_float32 (fst a), np_float32 (snd a))
            /\ nth_error pts2 k = Some (np_float32 (fst b), np_float32 (snd b))
  | Raise e =>
      e = IndexError
      /\ exists m,
          In m matches
          /\ ((length keypoints1 <= queryIdx m)%nat
              \/ (length keypoints2 <= trainIdx m)%nat)
  end.
Proof.
  unfold extract_match_points.
  pose proof (points_at_spec np_float32 keypoints1 (fun m => queryIdx m) matches)
    as H1.
  pose proof (points_at_spec np_float32 keypoints2 (fun m => trainIdx m) matches)
    as H2.
  destruct (points_at np_float32 keypoints1 _ matches) as [pts1|e1]; cbn [bind].
  - destruct (points_at np_float32 keypoints2 _ matches) as [pts2|e2];
      cbn [bind].
    + destruct H1 as [L1 N1], H2 as [L2 N2].
      refine (conj L1 (conj L2 _)). intros k m Hk.
      destruct (N1 k m Hk) as (a & Ha & Hpa).
      destruct (N2 k m Hk) as (b & Hb & Hpb).
      exists a, b. auto.
    + destruct H2 as [He (m & Hin & Hout)]. split; [exact He|].
      exists m. split; [exact Hin | right; exact Hout].
  - destruct H1 as [He (m & Hin & Hout)]. split; [exact He|].
    exists m. split; [exact Hin | left; exact Hout].
Qed.

(** ** Focal length from EXIF *)

Lemma and_then_not_none {A B} (m : outcome A) (k : A -> outcome (option B)) :
  (forall a, k a <> Returns None) -> and_then m k <> Returns None.
Proof.
  intros Hk. destruct m as [a|e]; simpl; [apply Hk | discriminate].
Qed.

(** X4.  [estimate_focal_length_from_exif] returns [None] exactly when the
    dictionary has no ["FocalLengthValue"]: with that key present it
    returns a number or raises, whatever the other entries and the sensor
    width. *)
Theorem exif_estimate_is_none_iff_focal_length_missing
        (F : Type) (A : Arith F) (T : Truth F)
        (exif_data : exif_dict F) (image_width : nat)
        (sensor_width_mm : option F) :
  estimate_focal_length_from_exif exif_data image_width sensor_width_mm
  = Returns None
  <-> lookup "FocalLengthValue" exif_data = None.
Proof.
  unfold estimate_focal_length_from_exif.
  destruct (lookup "FocalLengthValue" exif_data) as [focal_mm|].
  - split; [|discriminate]. intros Hn. exfalso. revert Hn.
    apply and_then_not_none. intros sensor.
    apply and_then_not_none. intros r. discriminate.
  - split; reflexivity.
Qed.

Lemma R_truthy (x : R) : ftruthy x = true <-> x <> 0%R.
Proof.
  cbn [ftruthy R_truth]. destruct (Req_dec_T x 0); split; intros;
    try easy; try discriminate.
Qed.

Lemma pydiv_R (a b : R) :
  b <> 0%R -> pydiv a b = Returns (a / b)%R.
Proof.
  intros Hb. unfold pydiv. apply R_truthy in Hb. rewrite Hb. reflexivity.
Qed.

Lemma pydiv_R_zero (a : R) : pydiv a 0%R = Raises ZeroDivisionError.
Proof.
  unfold pydiv. cbn [ftruthy R_truth].
  destruct (Req_dec_T 0 0); [reflexivity | contradiction].
Qed.

(** X5.  In real arithmetic, when the dictionary holds a physical focal
    length that is not 0 and a positive 35 mm equivalent, and no sensor
    width is given, the estimate is [focal_35mm * image_width / 36]: the
    physical focal length cancels out. *)
Theorem exif_estimate_from_35mm_equivalent
        (exif_data : exif_dict R) (image_width : nat) (focal_mm focal_35mm : R) :
  lookup "FocalLengthValue" exif_data = Some focal_mm ->
  lookup "FocalLengthIn35mmFilm" exif_data = Some focal_35mm ->
  focal_mm <> 0%R ->
  (0 < focal_35mm)%R ->
  estimate_focal_length_from_exif exif_data image_width None
  = Returns (Some (focal_35mm * IZR (Z.of_nat image_width) / 36)%R).
Proof.
  intros Hmm H35 Hnz Hpos.
  unfold estimate_focal_length_from_exif, sensor_width_from_35mm.
  rewrite Hmm, H35.
  assert (Ht : ftruthy focal_35mm = true) by (apply R_truthy; lra).
  assert (Hl : (fzero <! focal_35mm) = true) by (apply Rltb_true; exact Hpos).
  rewrite Ht, Hl. cbn [andb].
  rewrite (pydiv_R focal_35mm Hnz). cbn [and_then].
  assert (Hc : (focal_35mm / focal_mm)%R <> 0%R).
  { intros E. apply (f_equal (fun x => (x * focal_mm)%R)) in E.
    unfold Rdiv in E. rewrite Rmult_assoc, Rinv_l, Rmult_1_r, Rmult_0_l in E
      by exact Hnz. lra. }
  cbn [fofZ R_arith].
  rewrite (pydiv_R 36 Hc). cbn [and_then].
  assert (Hs : (36 / (focal_35mm / focal_mm))%R <> 0%R).
  { unfold Rdiv. apply Rmult_integral_contrapositive_currified; [lra|].
    apply Rinv_neq_0_compat. exact Hc. }
  unfold fofnat. cbn [fofZ R_arith].
  rewrite (pydiv_R (IZR (Z.of_nat image_width)) Hs). cbn [and_then].
  do 2 f_equal. cbn [fmul R_arith]. field. split; lra.
Qed.

Lemma aps_c_sensor_width_R : aps_c_sensor_width (F := R) <> 0%R.
Proof. unfold aps_c_sensor_width. cbn [fofZ fdiv R_arith]. lra. Qed.

(** X6.  In real arithmetic [estimate_focal_length_from_exif] raises only
    [ZeroDivisionError], and exactly in two cases, both with a physical
    focal length present: the sensor width given is 0; or no sensor width
    is given, the 35 mm equivalent is positive and the physical focal
    length is 0. *)
Theorem exif_estimate_raises_iff_divisor_is_zero
        (exif_data : exif_dict R) (image_width : nat)
        (sensor_width_mm : option R) (e : py_exn) :
  estimate_focal_length_from_exif exif_data image_width sensor_width_mm
  = Raises e
  <-> e = ZeroDivisionError
      /\ exists focal_mm,
          lookup "FocalLengthValue" exif_data = Some focal_mm
          /\ (sensor_width_mm = Some 0%R
              \/ (sensor_width_mm = None
                  /\ focal_mm = 0%R
                  /\ exists focal_35mm,
                      lookup "FocalLengthIn35mmFilm" exif_data = Some focal_35mm
                      /\ (0 < focal_35mm)%R)).
Proof.
  unfold estimate_focal_length_from_exif, sensor_width_from_35mm.
  destruct (lookup "FocalLengthValue" exif_data) as [focal_mm|];
    [|split; [discriminate | intros (_ & f & Hf & _); discriminate]].
  destruct sensor_width_mm as [s|]; cbn [and_then].
  - destruct (Req_dec_T s 0) as [->|Hs].
    + rewrite pydiv_R_zero. cbn [and_then]. split.
      * intros [= <-]. split; [reflexivity|]. exists focal_mm. auto.
      * intros [-> _]. reflexivity.
    + rewrite (pydiv_R _ Hs). cbn [and_then]. split; [discriminate|].
      intros (_ & f & _ & [[= E]|[E _]]); [contradiction | discriminate].
  - assert (Haps : forall P : Prop,
               and_then (pydiv (fofnat image_width) aps_c_sensor_width)
                 (fun r => Returns (Some (focal_mm *! r))) = Raises e -> P).
    { intros P. rewrite (pydiv_R _ aps_c_sensor_width_R). discriminate. }
    destruct (lookup "FocalLengthIn35mmFilm" exif_data) as [focal_35mm|];
      cbn [and_then].
    + destruct (Rlt_dec 0 focal_35mm) as [Hpos|Hneg].
      * assert (Ht : ftruthy focal_35mm = true) by (apply R_truthy; lra).
        assert (Hl : (fzero <! focal_35mm) = true)
          by (apply Rltb_true; exact Hpos).
        rewrite Ht, Hl. cbn [andb].
        destruct (Req_dec_T focal_mm 0) as [->|Hnz].
        -- rewrite pydiv_R_zero. cbn [and_then]. split.
           ++ intros [= <-]. split; [reflexivity|]. exists 0%R.
              split; [reflexivity|]. right.
              refine (conj eq_refl (conj eq_refl _)).
              exists focal_35mm. auto.
           ++ intros [-> _]. reflexivity.
        -- rewrite (pydiv_R focal_35mm Hnz). cbn [and_then].
           assert (Hc : (focal_35mm / focal_mm)%R <> 0%R).
           { unfold Rdiv. apply Rmult_integral_contrapositive_currified;
               [lra | apply Rinv_neq_0_compat; exact Hnz]. }
           cbn [fofZ R_arith]. rewrite (pydiv_R 36 Hc). cbn [and_then].
           assert (Hs : (36 / (focal_35mm / focal_mm))%R <> 0%R).
           { unfold Rdiv. apply Rmult_integral_contrapositive_currified;
               [lra | apply Rinv_neq_0_compat; exact Hc]. }
           rewrite (pydiv_R _ Hs). cbn [and_then]. split; [discriminate|].
           intros (_ & f & [= <-] & [E|(_ & E & _)]);
             [discriminate | contradiction].
      * assert (Hl : (fzero <! focal_35mm) = false)
          by (apply Rltb_false; unfold fzero; cbn [fofZ R_arith]; lra).
        rewrite Hl, andb_false_r. cbn [and_then]. split; [apply Haps|].
        intros (_ & f & _ & [E|(_ & _ & f35 & [= <-] & Hp)]);
          [discriminate | contradiction].
    + split; [apply Haps|].
      intros (_ & f & _ & [E|(_ & _ & f35 & E & _)]); discriminate.
Qed.

(** ** Focal length selection *)

Section LoadImagesFacts.
Context {F : Type} `{Arith F} `{Truth F}.
Context {pixel : Type}.

Lemma cli_focal_length_some (cfg : load_config F) f :
  cli_focal_length cfg = Some f
  <-> config_focal_length cfg = Some f /\ ftruthy f = true.
Proof.
  unfold cli_focal_length.
  destruct (config_focal_length cfg) as [f0|].
  - destruct (ftruthy f0) eqn:E; split.
    + intros [= <-]. auto.
    + intros [[= <-] _]. reflexivity.
    + discriminate.
    + intros [[= <-] Ht]. congruence.
  - split; [discriminate | intros [E _]; discriminate].
Qed.

(** The focal length step 1 settles on, whatever the branch taken. *)
Lemma load_images_focal_length_cases (cfg : load_config F)
      (loaded : list (image pixel * string * exif_dict F)) f m :
  _load_images cfg loaded = Returns (f, m) ->
  (cli_focal_length cfg = Some f
   \/ f = default_focal_length cfg
   \/ ftruthy f = true)
  /\ meta_focal_length m = f
  /\ meta_num_images m = length loaded.
Proof.
  unfold _load_images.
  destruct (cli_focal_length cfg) as [f0|] eqn:Ecli; cbn [and_then].
  - intros [= <- <-]. cbn. auto.
  - destruct (String.eqb (focal_length_source cfg) "exif").
    + destruct loaded as [|[[first_image name] first_exif] rest];
        [discriminate|].
      destruct (estimate_focal_length_from_exif first_exif
                  (snd (shape first_image)) None) as [[est|]|e];
        cbn [and_then]; [| |discriminate].
      * destruct (ftruthy est) eqn:Et; cbn [and_then];
          intros [= <- <-]; cbn; auto.
      * intros [= <- <-]. cbn. auto.
    + cbn [and_then]. intros [= <- <-]. cbn. auto.
Qed.

End LoadImagesFacts.

(** X7.  When the configured default focal length is not zero, the focal
    length step 1 stores is never zero, whichever of the command line, the
    EXIF estimate and the default it comes from; the metadata records that
    same focal length and the number of images loaded. *)
Theorem load_images_focal_length_is_never_zero
        (F : Type) (A : Arith F) (T : Truth F) (pixel : Type)
        (cfg : load_config F)
        (loaded : list (image pixel * string * exif_dict F))
        (f : F) (m : metadata F) :
  ftruthy (default_focal_length cfg) = true ->
  _load_images cfg loaded = Returns (f, m) ->
  ftruthy f = true
  /\ meta_focal_length m = f
  /\ meta_num_images m = length loaded.
Proof.
  intros Hd Hl.
  destruct (load_images_focal_length_cases cfg loaded Hl)
    as ([Hc|[->|Ht]] & Hm & Hn).
  - apply cli_focal_length_some in Hc. destruct Hc as [_ Ht]. auto.
  - auto.
  - auto.
Qed.

(** ** Pixel accumulation *)

Lemma add_at_length {A B} (f : A -> B -> A) (patch : list B) (row : list A) :
  forall offset, length (add_at f offset patch row) = length row.
Proof.
  revert patch; induction row as [|c row IH]; intros patch offset.
  - reflexivity.
  - destruct offset as [|o]; cbn [add_at].
    + destruct patch as [|p patch]; [reflexivity|].
      cbn [length]. now rewrite IH.
    + cbn [length]. now rewrite IH.
Qed.

Lemma add_region_shape {A B} (f : A -> B -> A) (y x : nat)
      (patch : list (list B)) (a : list (list A)) (h w : nat) :
  length a = h -> Forall (fun row => length row = w) a ->
  length (add_region f y x patch a) = h
  /\ Forall (fun row => length row = w) (add_region f y x patch a).
Proof.
  intros Hh Hw. unfold add_region. split; [now rewrite add_at_length|].
  clear Hh. revert y patch.
  induction Hw as [|row a Hrow Ha IH]; intros y patch; [constructor|].
  destruct y as [|y]; cbn [add_at].
  - destruct patch as [|prow patch].
    + constructor; [exact Hrow | exact Ha].
    + constructor; [now rewrite add_at_length | apply IH].
  - constructor; [exact Hrow | apply IH].
Qed.

Lemma zip_with_rows_shape {A B C} (g : A -> B -> C)
      (a : list (list A)) (b : list (list B)) (h w : nat) :
  length a = h -> Forall (fun row => length row = w) a ->
  length b = h -> Forall (fun row => length row = w) b ->
  length (zip_with (zip_with g) a b) = h
  /\ Forall (fun row => length row = w) (zip_with (zip_with g) a b).
Proof.
  intros Ha Hwa Hb Hwb. split; [rewrite zip_with_length; congruence|].
  assert (Hl : length a = length b) by congruence. clear Ha Hb.
  revert b Hwb Hl.
  induction Hwa as [|ra a Hra _ IH]; intros [|rb b] Hwb Hl;
    simpl in *; try constructor; try discriminate.
  - inversion Hwb; subst. rewrite zip_with_length; congruence.
  - inversion Hwb; subst. apply IH; [assumption | lia].
Qed.

Section RenderFacts.
Context {F : Type} `{Arith F} `{Truncation F}.

Lemma accumulate_shape (images : list (image bgr)) (p : placement)
      (buffers : list (list (F * F * F)) * list (list F)) (h w : nat) :
  (length (fst buffers) = h
   /\ Forall (fun row => length row = w) (fst buffers))
  /\ (length (snd buffers) = h
      /\ Forall (fun row => length row = w) (snd buffers)) ->
  (length (fst (accumulate images buffers p)) = h
   /\ Forall (fun row => length row = w) (fst (accumulate images buffers p)))
  /\ (length (snd (accumulate images buffers p)) = h
      /\ Forall (fun row => length row = w)
           (snd (accumulate images buffers p))).
Proof.
  intros [[Hc1 Hc2] [Hw1 Hw2]]. destruct p as [i x y ph pw|i];
    cbn [accumulate fst snd].
  - split; apply add_region_shape; assumption.
  - auto.
Qed.

Lemma accumulate_fold_shape (images : list (image bgr))
      (ps : list placement) (h w : nat) :
  forall buffers : list (list (F * F * F)) * list (list F),
    (length (fst buffers) = h
     /\ Forall (fun row => length row = w) (fst buffers))
    /\ (length (snd buffers) = h
        /\ Forall (fun row => length row = w) (snd buffers)) ->
    (length (fst (fold_left (accumulate images) ps buffers)) = h
     /\ Forall (fun row => length row = w)
          (fst (fold_left (accumulate images) ps buffers)))
    /\ (length (snd (fold_left (accumulate images) ps buffers)) = h
        /\ Forall (fun row => length row = w)
             (snd (fold_left (accumulate images) ps buffers))).
Proof.
  induction ps as [|p ps IH]; intros buffers Hb; [exact Hb|].
  cbn [fold_left]. apply IH. apply accumulate_shape. exact Hb.
Qed.

Lemma repeat_rows_shape {A} (c : A) (h w : nat) :
  length (repeat (repeat c w) h) = h
  /\ Forall (fun row => length row = w) (repeat (repeat c w) h).
Proof.
  split; [apply repeat_length|].
  apply Forall_forall. intros row Hin. apply repeat_spec in Hin. subst row.
  apply repeat_length.
Qed.

Lemma render_average_shape (images : list (image bgr)) (c : composite) :
  length (render_average images c) = Z.to_nat (canvas_height c)
  /\ Forall (fun row => length row = Z.to_nat (canvas_width c))
       (render_average images c).
Proof.
  unfold render_average.
  pose proof (accumulate_fold_shape images (placements c)
                (h := Z.to_nat (canvas_height c))
                (w := Z.to_nat (canvas_width c))
                (repeat (repeat (fzero, fzero, fzero)
                           (Z.to_nat (canvas_width c)))
                        (Z.to_nat (canvas_height c)),
                 repeat (repeat fzero (Z.to_nat (canvas_width c)))
                        (Z.to_nat (canvas_height c)))) as Hfold.
  cbn [fst snd] in Hfold.
  specialize (Hfold (conj (repeat_rows_shape _ _ _) (repeat_rows_shape _ _ _))).
  destruct (fold_left (accumulate images) (placements c) _)
    as [canvas weights].
  cbn [fst snd] in Hfold. destruct Hfold as [[Hc1 Hc2] [Hw1 Hw2]].
  apply zip_with_rows_shape; assumption.
Qed.

End RenderFacts.

(** X10.  When [blend_average] returns, in any arithmetic and whatever the
    images and offsets, the panorama has exactly [canvas_height] rows of
    [canvas_width] pixels each, also when images were clipped or skipped. *)
Theorem blend_average_image_has_the_canvas_shape
        (F : Type) (A : Arith F) (Rd : Rounding F) (T : Truncation F)
        (images : list (image bgr)) (translations : list (F * F)) :
  match blend_average images translations with
  | Ok c =>
      exists panorama,
        blend_average_image images translations = Ok panorama
        /\ length panorama = Z.to_nat (canvas_height c)
        /\ Forall (fun row => length row = Z.to_nat (canvas_width c)) panorama
  | Raise e => blend_average_image images translations = Raise e
  end.
Proof.
  unfold blend_average_image.
  destruct (blend_average images translations) as [c|e]; cbn [bind].
  - exists (render_average images c). split; [reflexivity|].
    apply render_average_shape.
  - reflexivity.
Qed.

Lemma Rfloor_IZR (n : Z) : Rfloor (IZR n) = n.
Proof.
  destruct (Rfloor_spec (IZR n)) as [Hlo Hhi].
  apply le_IZR in Hlo. rewrite <- plus_IZR in Hhi. apply lt_IZR in Hhi. lia.
Qed.

Lemma Rceil_IZR (n : Z) : Rceil (IZR n) = n.
Proof. apply Rceil_unique. lra. Qed.

Lemma Rround_half_even_0 : Rround_half_even 0 = 0%Z.
Proof.
  pose proof (Rround_bounds 0) as Hb.
  rewrite (Rfloor_IZR 0), (Rceil_IZR 0) in Hb. lia.
Qed.

Lemma ftrunc_IZR (n : Z) : ftrunc (IZR n) = n.
Proof.
  cbn [ftrunc R_truncation].
  destruct (Rltb (IZR n) 0); [apply Rceil_IZR | apply Rfloor_IZR].
Qed.

Lemma add_at_full {A B} (f : A -> B -> A) (patch : list B) (row : list A) :
  length patch = length row -> add_at f 0 patch row = zip_with f row patch.
Proof.
  revert patch; induction row as [|c row IH]; intros [|p patch] Hl;
    simpl in *; try reflexivity; try discriminate.
  f_equal. apply IH. lia.
Qed.

Lemma add_region_full {A B} (f : A -> B -> A)
      (patch : list (list B)) (a : list (list A)) (w : nat) :
  length patch = length a ->
  Forall (fun row => length row = w) patch ->
  Forall (fun row => length row = w) a ->
  add_region f 0 0 patch a = zip_with (zip_with f) a patch.
Proof.
  intros Hl Hp Ha. unfold add_region. rewrite add_at_full by exact Hl.
  revert patch Hl Hp.
  induction Ha as [|row a Hrow _ IH]; intros [|prow patch] Hl Hp;
    simpl in *; try reflexivity; try discriminate.
  inversion Hp; subst. f_equal.
  - apply add_at_full. congruence.
  - apply IH; [lia | assumption].
Qed.

Lemma map_fixed {A} (f : A -> A) (l : list A) :
  Forall (fun a => f a = a) l -> map f l = l.
Proof.
  induction 1 as [|a l Ha _ IH]; simpl; [reflexivity | now rewrite Ha, IH].
Qed.

Lemma crop_to_full {pixel} (img : image pixel) (w : nat) :
  Forall (fun row => length row = w) img ->
  crop_to (length img) w img = img.
Proof.
  intros Hw. unfold crop_to. rewrite firstn_all.
  apply map_fixed. eapply Forall_impl; [|exact Hw].
  intros row <-. apply firstn_all.
Qed.

(** One pixel of a single image on an empty canvas, in real arithmetic. *)
Lemma single_pixel_R (p : bgr) :
  uint8 p ->
  to_uint8 (normalise (add_colour ((fzero, fzero, fzero) : R * R * R) p)
              (add_weight (fzero : R) p)) = p.
Proof.
  destruct p as [[b g] r]. intros (Hb & Hg & Hr).
  unfold add_colour, add_weight, mask_value, normalise, to_uint8, fzero.
  destruct ((0 <? b)%Z || (0 <? g)%Z || (0 <? r)%Z)%bool eqn:Em;
    cbn [fofZ fadd fmul fdiv flt R_arith].
  - assert (Hlt : Rltb 0 (0 + 1) = true) by (apply Rltb_true; lra).
    rewrite Hlt.
    replace ((0 + IZR b * 1) / (0 + 1))%R with (IZR b) by field.
    replace ((0 + IZR g * 1) / (0 + 1))%R with (IZR g) by field.
    replace ((0 + IZR r * 1) / (0 + 1))%R with (IZR r) by field.
    now rewrite !ftrunc_IZR.
  - apply orb_false_iff in Em. destruct Em as [Em Er].
    apply orb_false_iff in Em. destruct Em as [Eb Eg].
    apply Z.ltb_ge in Eb, Eg, Er.
    assert (b = 0%Z) by lia. assert (g = 0%Z) by lia.
    assert (r = 0%Z) by lia. subst b g r.
    assert (Hlt : Rltb 0 (0 + 0) = false) by (apply Rltb_false; lra).
    rewrite Hlt.
    replace (0 + 0 * 0)%R with (IZR 0) by ring.
    now rewrite !ftrunc_IZR.
Qed.

Lemma single_row_R (row : list bgr) :
  Forall uint8 row ->
  zip_with (fun c wt => to_uint8 (normalise c wt))
    (zip_with add_colour
       (repeat ((fzero, fzero, fzero) : R * R * R) (length row)) row)
    (zip_with add_weight (repeat (fzero : R) (length row)) row)
  = row.
Proof.
  induction 1 as [|p row Hp _ IH]; [reflexivity|].
  cbn [length repeat zip_with]. rewrite IH. f_equal.
  apply single_pixel_R. exact Hp.
Qed.

Lemma single_image_R (img : image bgr) (w : nat) :
  Forall (fun row => length row = w) img ->
  Forall (Forall uint8) img ->
  zip_with (zip_with (fun c wt => to_uint8 (normalise c wt)))
    (zip_with (zip_with add_colour)
       (repeat (repeat ((fzero, fzero, fzero) : R * R * R) w) (length img))
       img)
    (zip_with (zip_with add_weight)
       (repeat (repeat (fzero : R) w) (length img)) img)
  = img.
Proof.
  intros Hw Hu. induction Hw as [|row img Hrow _ IH]; [reflexivity|].
  inversion Hu; subst.
  cbn [length repeat zip_with]. rewrite IH by assumption. f_equal.
  apply single_row_R. assumption.
Qed.

(** The canvas and the placement of a single image, in real arithmetic:
    the canvas has the size of the image and the image sits at (0, 0). *)
Lemma blend_average_single_R {pixel} (img : image pixel) (t : R * R) (w : nat) :
  (0 < length img)%nat -> (0 < w)%nat ->
  Forall (fun row => length row = w) img ->
  blend_average [img] [t]
  = Ok {| canvas_width := Z.of_nat w;
          canvas_height := Z.of_nat (length img);
          placements :=
            [Placed 0 0 0 (Z.of_nat (length img)) (Z.of_nat w)] |}.
Proof.
  intros Hh Hw Hrect.
  assert (Hshape : shape img = (length img, w)).
  { unfold shape. f_equal. destruct img as [|row rest]; [simpl in Hh; lia|].
    inversion Hrect; subst. reflexivity. }
  destruct t as [tx ty].
  unfold blend_average, compute_canvas_bounds.
  cbn [length Nat.eqb combine fold_left].
  rewrite (bounds_step_R (None, None, None, None) (img, (tx, ty))).
  unfold item_w, item_h. cbn [fst snd]. rewrite Hshape. cbn [fst snd].
  cbn [canvas_extent fceil R_rounding fsub R_arith bind].
  assert (Ecw : Rceil (tx + IZR (Z.of_nat w) - tx) = Z.of_nat w)
    by (apply Rceil_unique; lra).
  assert (Ech : Rceil (ty + IZR (Z.of_nat (length img)) - ty)
                = Z.of_nat (length img))
    by (apply Rceil_unique; lra).
  rewrite Ecw, Ech.
  destruct (Z.ltb_spec (Z.of_nat w) 0); [lia|].
  destruct (Z.ltb_spec (Z.of_nat (length img)) 0); [lia|].
  cbn [orb place_loop fround R_rounding fsub R_arith bind fst snd].
  replace (tx - tx)%R with 0%R by ring.
  replace (ty - ty)%R with 0%R by ring.
  rewrite Rround_half_even_0.
  rewrite place_full; rewrite ?Hshape; cbn [fst snd]; try lia.
  reflexivity.
Qed.

(** The pixels accumulated for the canvas of a single image. *)
Lemma render_average_single_R (img : image bgr) (w : nat) :
  Forall (fun row => length row = w) img ->
  Forall (Forall uint8) img ->
  render_average (F := R) [img]
    {| canvas_width := Z.of_nat w;
       canvas_height := Z.of_nat (length img);
       placements := [Placed 0 0 0 (Z.of_nat (length img)) (Z.of_nat w)] |}
  = img.
Proof.
  intros Hrect Hu.
  unfold render_average.
  cbn [canvas_width canvas_height placements fold_left accumulate fst snd nth].
  rewrite !Nat2Z.id. change (Z.to_nat 0) with 0%nat.
  rewrite (crop_to_full Hrect).
  rewrite (add_region_full add_colour (w := w));
    [|now rewrite repeat_length | exact Hrect | apply repeat_rows_shape].
  rewrite (add_region_full add_weight (w := w));
    [|now rewrite repeat_length | exact Hrect | apply repeat_rows_shape].
  apply single_image_R; assumption.
Qed.

(** *** The buffers, cell by cell *)

Lemma add_at_nth {A B} (f : A -> B -> A) (row : list A) d dp :
  forall (patch : list B) o k,
    nth k (add_at f o patch row) d
    = if ((o <=? k)%nat && (k <? o + length patch)%nat
          && (k <? length row)%nat)%bool
      then f (nth k row d) (nth (k - o) patch dp)
      else nth k row d.
Proof.
  induction row as [|c row IH]; intros patch o k.
  - cbn [add_at length]. rewrite andb_false_r. reflexivity.
  - destruct o as [|o].
    + destruct patch as [|p patch].
      * cbn [add_at length]. cbn. reflexivity.
      * destruct k as [|k]; [reflexivity|].
        cbn [add_at nth length]. rewrite IH, Nat.sub_0_r. reflexivity.
    + destruct k as [|k]; [reflexivity|].
      cbn [add_at nth length]. rewrite IH. reflexivity.
Qed.

Lemma add_region_nth {A B} (f : A -> B -> A) (patch : list (list B))
      (a : list (list A)) d dp y0 x0 y x :
  nth x (nth y (add_region f y0 x0 patch a) []) d
  = if ((y0 <=? y)%nat && (y <? y0 + length patch)%nat
        && (y <? length a)%nat)%bool
    then
      if ((x0 <=? x)%nat && (x <? x0 + length (nth (y - y0) patch []))%nat
          && (x <? length (nth y a []))%nat)%bool
      then f (nth x (nth y a []) d) (nth (x - x0) (nth (y - y0) patch []) dp)
      else nth x (nth y a []) d
    else nth x (nth y a []) d.
Proof.
  unfold add_region.
  rewrite (add_at_nth (fun row patch_row => add_at f x0 patch_row row)
             a [] [] patch y0 y).
  destruct ((y0 <=? y)%nat && (y <? y0 + length patch)%nat
            && (y <? length a)%nat)%bool; [|reflexivity].
  apply add_at_nth.
Qed.

Lemma crop_to_length {pixel} (img : image pixel) (h w : nat) :
  (h <= length img)%nat -> length (crop_to h w img) = h.
Proof.
  intros Hh. unfold crop_to. rewrite length_map. now apply firstn_length_le.
Qed.

Lemma crop_to_nth {pixel} (img : image pixel) (h w r : nat) :
  (r < h)%nat ->
  nth r (crop_to h w img) [] = firstn w (nth r img []).
Proof.
  intros Hr. unfold crop_to.
  rewrite <- (firstn_nil pixel w) at 1. rewrite map_nth, nth_firstn.
  apply Nat.ltb_lt in Hr. now rewrite Hr.
Qed.

Lemma nth_in_rows {A} (a : list (list A)) (w y : nat) :
  Forall (fun row => length row = w) a -> (y < length a)%nat ->
  length (nth y a []) = w.
Proof.
  intros Hw Hy. rewrite Forall_forall in Hw. apply Hw. now apply nth_In.
Qed.

Lemma nth_rectangular {pixel} (images : list (image pixel)) i :
  Forall rectangular images -> rectangular (nth i images []).
Proof.
  intros Hr. destruct (Nat.lt_ge_cases i (length images)) as [Hi|Hi].
  - rewrite Forall_forall in Hr. apply Hr. now apply nth_In.
  - rewrite nth_overflow by exact Hi. constructor.
Qed.

(** One placement decision seen from one cell of a buffer. *)
Lemma add_region_cell {A} (f : A -> bgr -> A) (images : list (image bgr))
      (cw ch : Z) (a : list (list A)) d i px py ph pw y x :
  placement_fits images cw ch (Placed i px py ph pw) ->
  rectangular (nth i images []) ->
  length a = Z.to_nat ch ->
  Forall (fun row => length row = Z.to_nat cw) a ->
  (y < Z.to_nat ch)%nat -> (x < Z.to_nat cw)%nat ->
  nth x (nth y (add_region f (Z.to_nat py) (Z.to_nat px)
                  (crop_to (Z.to_nat ph) (Z.to_nat pw) (nth i images [])) a)
           []) d
  = add_under f images y x (nth x (nth y a []) d) (Placed i px py ph pw).
Proof.
  intros (Hx & Hy & Hh & Hw & Hcw & Hch) Hrect Hla Hwa Hyc Hxc.
  set (img := nth i images []) in *.
  unfold shape in Hh, Hw. cbn [fst snd] in Hh, Hw.
  rewrite (add_region_nth f _ a d (0, 0, 0)%Z).
  rewrite crop_to_length by lia.
  unfold add_under, pixel_under. fold img.
  assert (Hrow : ((Z.to_nat py <=? y)%nat
                  && (y <? Z.to_nat py + Z.to_nat ph)%nat
                  && (y <? length a)%nat)%bool
                 = ((py <=? Z.of_nat y)%Z && (Z.of_nat y <? py + ph)%Z)%bool).
  { destruct (Nat.leb_spec (Z.to_nat py) y),
      (Nat.ltb_spec y (Z.to_nat py + Z.to_nat ph)),
      (Nat.ltb_spec y (length a)), (Z.leb_spec py (Z.of_nat y)),
      (Z.ltb_spec (Z.of_nat y) (py + ph)); cbn [andb]; try reflexivity; lia. }
  rewrite Hrow.
  destruct ((py <=? Z.of_nat y)%Z && (Z.of_nat y <? py + ph)%Z)%bool eqn:Er;
    cbn [andb]; [|reflexivity].
  apply andb_true_iff in Er. destruct Er as [Er1 Er2].
  apply Z.leb_le in Er1. apply Z.ltb_lt in Er2.
  rewrite crop_to_nth by lia.
  assert (Hrl : length (nth (y - Z.to_nat py) img []) = snd (shape img)).
  { apply nth_in_rows; [exact Hrect | lia]. }
  unfold shape in Hrl. cbn [snd] in Hrl.
  rewrite firstn_length_le by lia.
  rewrite (@nth_in_rows _ a _ y Hwa) by lia.
  assert (Hcol : ((Z.to_nat px <=? x)%nat
                  && (x <? Z.to_nat px + Z.to_nat pw)%nat
                  && (x <? Z.to_nat cw)%nat)%bool
                 = ((px <=? Z.of_nat x)%Z && (Z.of_nat x <? px + pw)%Z)%bool).
  { destruct (Nat.leb_spec (Z.to_nat px) x),
      (Nat.ltb_spec x (Z.to_nat px + Z.to_nat pw)),
      (Nat.ltb_spec x (Z.to_nat cw)), (Z.leb_spec px (Z.of_nat x)),
      (Z.ltb_spec (Z.of_nat x) (px + pw)); cbn [andb]; try reflexivity; lia. }
  rewrite Hcol.
  destruct ((px <=? Z.of_nat x)%Z && (Z.of_nat x <? px + pw)%Z)%bool eqn:Ec;
    cbn [andb].
  - apply andb_true_iff in Ec. destruct Ec as [Ec1 Ec2].
    apply Z.leb_le in Ec1. apply Z.ltb_lt in Ec2.
    rewrite nth_firstn.
    assert (Hin : (x - Z.to_nat px <? Z.to_nat pw)%nat = true)
      by (apply Nat.ltb_lt; lia).
    rewrite Hin. reflexivity.
  - reflexivity.
Qed.

Section RenderCells.
Context {F : Type} `{Arith F} `{Truncation F}.

(** The two buffers after the placement loop, seen from one cell. *)
Lemma accumulate_cells (images : list (image bgr)) (cw ch : Z) (y x : nat)
      (dc : F * F * F) (dw : F) (ps : list placement) :
  Forall rectangular images ->
  Forall (placement_fits images cw ch) ps ->
  (y < Z.to_nat ch)%nat -> (x < Z.to_nat cw)%nat ->
  forall buffers : list (list (F * F * F)) * list (list F),
    (length (fst buffers) = Z.to_nat ch
     /\ Forall (fun row => length row = Z.to_nat cw) (fst buffers))
    /\ (length (snd buffers) = Z.to_nat ch
        /\ Forall (fun row => length row = Z.to_nat cw) (snd buffers)) ->
    nth x (nth y (fst (fold_left (accumulate images) ps buffers)) []) dc
    = fold_left (add_under add_colour images y x) ps
        (nth x (nth y (fst buffers) []) dc)
    /\ nth x (nth y (snd (fold_left (accumulate images) ps buffers)) []) dw
       = fold_left (add_under add_weight images y x) ps
           (nth x (nth y (snd buffers) []) dw).
Proof.
  intros Hrect Hfit Hy Hx.
  induction Hfit as [|p ps Hp _ IH]; intros buffers Hshape; [split; reflexivity|].
  cbn [fold_left].
  destruct (IH (accumulate images buffers p)
              (accumulate_shape images p buffers Hshape)) as [IHc IHw].
  rewrite IHc, IHw.
  destruct Hshape as [[Hc1 Hc2] [Hw1 Hw2]].
  destruct p as [i px py ph pw|i]; cbn [accumulate fst snd].
  - rewrite (add_region_cell add_colour (a := fst buffers) dc Hp
               (nth_rectangular i Hrect) Hc1 Hc2 Hy Hx).
    rewrite (add_region_cell add_weight (a := snd buffers) dw Hp
               (nth_rectangular i Hrect) Hw1 Hw2 Hy Hx).
    split; reflexivity.
  - split; reflexivity.
Qed.

Lemma zip_with_rows_nth {A B C} (g : A -> B -> C)
      (a : list (list A)) (b : list (list B)) (h w y x : nat) da db dc :
  length a = h -> Forall (fun row => length row = w) a ->
  length b = h -> Forall (fun row => length row = w) b ->
  (y < h)%nat -> (x < w)%nat ->
  nth x (nth y (zip_with (zip_with g) a b) []) dc
  = g (nth x (nth y a []) da) (nth x (nth y b []) db).
Proof.
  intros Ha Hwa Hb Hwb Hy Hx.
  rewrite (zip_with_nth (zip_with g) a b [] [] []) by lia.
  apply zip_with_nth.
  - rewrite (@nth_in_rows _ a w y Hwa); lia.
  - rewrite (@nth_in_rows _ b w y Hwb); lia.
Qed.

Lemma nth_repeat_rows {A} (c : A) (h w y x : nat) :
  nth x (nth y (repeat (repeat c w) h) []) c = c.
Proof.
  destruct (Nat.lt_ge_cases y h) as [Hy|Hy].
  - rewrite (nth_indep _ [] (repeat c w)) by (now rewrite repeat_length).
    rewrite nth_repeat. apply nth_repeat.
  - rewrite (nth_overflow (repeat (repeat c w) h) [])
      by (now rewrite repeat_length).
    now destruct x.
Qed.

(** A cell of the panorama is computed from the pixels the placement
    decisions put on that cell, in the order of the decisions. *)
Lemma render_average_cell (images : list (image bgr)) (c : composite)
      (y x : nat) :
  Forall rectangular images ->
  Forall (placement_fits images (canvas_width c) (canvas_height c))
         (placements c) ->
  (y < Z.to_nat (canvas_height c))%nat ->
  (x < Z.to_nat (canvas_width c))%nat ->
  nth x (nth y (render_average images c) []) (0, 0, 0)%Z
  = to_uint8
      (normalise
         (fold_left (add_under add_colour images y x) (placements c)
            (fzero, fzero, fzero))
         (fold_left (add_under add_weight images y x) (placements c) fzero)).
Proof.
  intros Hrect Hfit Hy Hx. unfold render_average.
  set (canvas0 := repeat (repeat (fzero, fzero, fzero)
                            (Z.to_nat (canvas_width c)))
                         (Z.to_nat (canvas_height c))).
  set (weights0 := repeat (repeat fzero (Z.to_nat (canvas_width c)))
                          (Z.to_nat (canvas_height c))).
  assert (Hshape0 :
            (length (fst (canvas0, weights0)) = Z.to_nat (canvas_height c)
             /\ Forall (fun row => length row = Z.to_nat (canvas_width c))
                  (fst (canvas0, weights0)))
            /\ (length (snd (canvas0, weights0)) = Z.to_nat (canvas_height c)
                /\ Forall (fun row => length row = Z.to_nat (canvas_width c))
                     (snd (canvas0, weights0))))
    by (split; apply repeat_rows_shape).
  pose proof (accumulate_fold_shape images (placements c) _ Hshape0) as Hsh.
  pose proof (accumulate_cells (fzero, fzero, fzero) fzero Hrect Hfit Hy Hx
                (canvas0, weights0) Hshape0) as Hcells.
  destruct (fold_left (accumulate images) (placements c) (canvas0, weights0))
    as [canvas weights].
  cbn [fst snd] in Hsh, Hcells.
  destruct Hsh as [[Hc1 Hc2] [Hw1 Hw2]]. destruct Hcells as [Hcc Hcw].
  rewrite (@zip_with_rows_nth _ _ _
             (fun c0 wt => to_uint8 (normalise c0 wt))
             canvas weights _ _ y x (fzero, fzero, fzero) fzero (0, 0, 0)%Z
             Hc1 Hc2 Hw1 Hw2 Hy Hx).
  rewrite Hcc, Hcw. subst canvas0 weights0. now rewrite !nth_repeat_rows.
Qed.

End RenderCells.

Lemma nth_error_combine {A B} (l1 : list A) (l2 : list B) k a b :
  nth_error (combine l1 l2) k = Some (a, b) ->
  nth_error l1 k = Some a /\ nth_error l2 k = Some b.
Proof.
  revert l2 k; induction l1 as [|x l1 IH]; intros [|y l2] [|k] Hk;
    simpl in *; try discriminate.
  - injection Hk as <- <-. auto.
  - apply IH. exact Hk.
Qed.

Section PlacementBounds.
Context {F : Type} `{Arith F} `{Rounding F}.
Context {pixel : Type}.

(** What the placement loop records for position [k]. *)
Lemma blend_average_placement (images : list (image pixel))
      (translations : list (F * F)) (c : composite) k p :
  blend_average images translations = Ok c ->
  nth_error (placements c) k = Some p ->
  (p = Skipped k \/ exists x y h w, p = Placed k x y h w)
  /\ placement_fits images (canvas_width c) (canvas_height c) p.
Proof.
  intros Hc Hp.
  destruct (blend_average_Ok _ _ Hc)
    as (min_x & max_x & min_y & max_y & _ & _ & _ & _ & _ & Hl).
  destruct (place_loop_spec _ _ _ _ _ _ Hl) as [Hlen Hnth].
  destruct (nth_error (combine images translations) k) as [[img t]|] eqn:Ek.
  - destruct (Hnth k img t Ek) as (xo & yo & _ & _ & Hq).
    rewrite Hq in Hp. injection Hp as <-. cbn [Nat.add].
    destruct (nth_error_combine _ _ _ Ek) as [Himg _].
    destruct (place (canvas_width c) (canvas_height c) k img xo yo)
      as [j x y h w|j] eqn:Ep.
    + destruct (place_extent _ _ _ _ _ _ Ep)
        as (Ej & Hx & Hy & Hh & Hw & Hcw & Hch).
      subst j. split; [right; now exists x, y, h, w|].
      cbn [placement_fits].
      assert (E : nth k images [] = img) by (apply nth_error_nth; exact Himg).
      rewrite E. auto 10.
    + split; [|exact I]. left.
      destruct (place_cases (canvas_width c) (canvas_height c) k img xo yo)
        as [Hs|(x & y & h & w & Hq' & _)]; congruence.
  - apply nth_error_None in Ek. rewrite <- Hlen in Ek.
    apply nth_error_None in Ek. congruence.
Qed.

Lemma blend_average_fits (images : list (image pixel))
      (translations : list (F * F)) (c : composite) :
  blend_average images translations = Ok c ->
  Forall (placement_fits images (canvas_width c) (canvas_height c))
         (placements c).
Proof.
  intros Hc. apply Forall_forall. intros p Hin.
  apply In_nth_error in Hin. destruct Hin as [k Hk].
  apply (blend_average_placement _ _ k Hc Hk).
Qed.

Lemma blend_average_placements_length (images : list (image pixel))
      (translations : list (F * F)) (c : composite) :
  blend_average images translations = Ok c ->
  length (placements c) = Nat.min (length images) (length translations).
Proof.
  intros Hc.
  destruct (blend_average_Ok _ _ Hc)
    as (min_x & max_x & min_y & max_y & _ & _ & _ & _ & _ & Hl).
  destruct (place_loop_spec _ _ _ _ _ _ Hl) as [Hlen _].
  now rewrite Hlen, length_combine.
Qed.

End PlacementBounds.

(** X12.  Whenever [blend_average] gets past its checks, in any
    arithmetic: it takes one decision per image that has an offset, the
    decision at position [k] is about image [k], and every extent it places
    is non-empty, starts at a non-negative offset, ends inside the canvas
    and is no larger than its image, so that no slice of the canvas or of
    an image is out of range. *)
Theorem blend_average_places_inside_canvas_and_image
        (F : Type) (A : Arith F) (Rd : Rounding F) (pixel : Type)
        (images : list (image pixel)) (translations : list (F * F))
        (c : composite) :
  blend_average images translations = Ok c ->
  length (placements c) = Nat.min (length images) (length translations)
  /\ forall k p,
      nth_error (placements c) k = Some p ->
      (p = Skipped k \/ exists x y h w, p = Placed k x y h w)
      /\ placement_fits images (canvas_width c) (canvas_height c) p.
Proof.
  intros Hc. split; [now apply blend_average_placements_length|].
  intros k p Hk. now apply (blend_average_placement _ _ k Hc).
Qed.

(** X13.  In any arithmetic, for rectangular images: the pixel
    [blend_average] returns at a canvas cell is computed from the image
    pixels its placement decisions put on that cell alone (pixel
    [(y - y_offset, x - x_offset)] of each placed image whose extent covers
    the cell), accumulated in the order of the images and normalised by the
    weight accumulated the same way. *)
Theorem blend_average_pixel_depends_on_the_pixels_placed_on_it
        (F : Type) (A : Arith F) (Rd : Rounding F) (T : Truncation F)
        (images : list (image bgr)) (translations : list (F * F))
        (c : composite) (y x : nat) :
  Forall rectangular images ->
  blend_average images translations = Ok c ->
  (y < Z.to_nat (canvas_height c))%nat ->
  (x < Z.to_nat (canvas_width c))%nat ->
  exists panorama,
    blend_average_image images translations = Ok panorama
    /\ nth x (nth y panorama []) (0, 0, 0)%Z
       = to_uint8
           (normalise
              (fold_left (add_under add_colour images y x) (placements c)
                 (fzero, fzero, fzero))
              (fold_left (add_under add_weight images y x) (placements c)
                 fzero)).
Proof.
  intros Hrect Hc Hy Hx. unfold blend_average_image. rewrite Hc. cbn [bind].
  exists (render_average images c). split; [reflexivity|].
  apply render_average_cell; [exact Hrect | | exact Hy | exact Hx].
  now apply (blend_average_fits images translations).
Qed.

Lemma fold_add_under_none {A} (f : A -> bgr -> A) (images : list (image bgr))
      (y x : nat) (ps : list placement) (acc : A) :
  (forall p, In p ps -> pixel_under images p y x = None) ->
  fold_left (add_under f images y x) ps acc = acc.
Proof.
  revert acc; induction ps as [|p ps IH]; intros acc Hn; [reflexivity|].
  cbn [fold_left]. unfold add_under at 2.
  rewrite (Hn p (or_introl eq_refl)). apply IH.
  intros q Hq. apply Hn. right; exact Hq.
Qed.

(** X14.  In an arithmetic where [0 < 0] is false and 0 converts to the
    integer 0 (real arithmetic and binary64 both), for rectangular images:
    a canvas cell that no placed extent covers is black in the panorama. *)
Theorem canvas_cell_that_no_image_covers_is_black
        (F : Type) (A : Arith F) (Rd : Rounding F) (T : Truncation F)
        (images : list (image bgr)) (translations : list (F * F))
        (c : composite) (y x : nat) :
  (fzero <! fzero) = false ->
  ftrunc (fzero : F) = 0%Z ->
  Forall rectangular images ->
  blend_average images translations = Ok c ->
  (y < Z.to_nat (canvas_height c))%nat ->
  (x < Z.to_nat (canvas_width c))%nat ->
  (forall p, In p (placements c) -> pixel_under images p y x = None) ->
  exists panorama,
    blend_average_image images translations = Ok panorama
    /\ nth x (nth y panorama []) (0, 0, 0)%Z = (0, 0, 0)%Z.
Proof.
  intros Hlt Htr Hrect Hc Hy Hx Hnone.
  unfold blend_average_image. rewrite Hc. cbn [bind].
  exists (render_average images c). split; [reflexivity|].
  rewrite render_average_cell;
    [|exact Hrect | now apply (blend_average_fits images translations)
     | exact Hy | exact Hx].
  rewrite !fold_add_under_none by exact Hnone.
  unfold normalise. rewrite Hlt. unfold to_uint8. now rewrite Htr.
Qed.

(** *** The average, in integers *)

Lemma fold_add_under {A} (f : A -> bgr -> A) (images : list (image bgr))
      (y x : nat) (ps : list placement) :
  forall acc,
    fold_left (add_under f images y x) ps acc
    = fold_left f (pixels_under images ps y x) acc.
Proof.
  induction ps as [|p ps IH]; intros acc; [reflexivity|].
  cbn [fold_left pixels_under flat_map]. rewrite fold_left_app.
  unfold add_under at 2.
  destruct (pixel_under images p y x) as [q|]; cbn [fold_left]; apply IH.
Qed.

Lemma Rfloor_unique (x : R) (q : Z) :
  (IZR q <= x < IZR q + 1)%R -> Rfloor x = q.
Proof.
  intros [Hlo Hhi]. destruct (Rfloor_spec x) as [Flo Fhi].
  assert (H1 : (IZR q < IZR (Rfloor x) + 1)%R) by lra.
  assert (H2 : (IZR (Rfloor x) < IZR q + 1)%R) by lra.
  rewrite <- plus_IZR in H1, H2. apply lt_IZR in H1, H2. lia.
Qed.

(** Truncating an exact quotient of a natural number by a positive one is
    integer division. *)
Lemma ftrunc_quotient (s n : Z) :
  (0 <= s)%Z -> (0 < n)%Z -> ftrunc (IZR s / IZR n)%R = (s / n)%Z.
Proof.
  intros Hs Hn. cbn [ftrunc R_truncation].
  assert (Hn' : (0 < IZR n)%R) by (apply IZR_lt; exact Hn).
  assert (Hs' : (0 <= IZR s)%R) by (apply IZR_le; exact Hs).
  assert (Hx : (IZR s / IZR n * IZR n = IZR s)%R) by (field; lra).
  assert (Hnonneg : (0 <= IZR s / IZR n)%R).
  { apply Rmult_le_pos; [exact Hs'|].
    apply Rlt_le, Rinv_0_lt_compat. exact Hn'. }
  assert (Hlt : Rltb (IZR s / IZR n) 0 = false) by (apply Rltb_false; lra).
  rewrite Hlt. apply Rfloor_unique.
  pose proof (Z.div_mod s n ltac:(lia)) as Hdm.
  pose proof (Z.mod_pos_bound s n Hn) as [Hr0 Hr1].
  apply (f_equal IZR) in Hdm. rewrite plus_IZR, mult_IZR in Hdm.
  apply IZR_le in Hr0. apply IZR_lt in Hr1.
  set (q := IZR (s / n)) in *. set (r := IZR (s mod n)) in *.
  set (xq := (IZR s / IZR n)%R) in *.
  split; nra.
Qed.

Lemma uint8_black (p : bgr) :
  uint8 p -> non_black p = false -> p = (0, 0, 0)%Z.
Proof.
  destruct p as [[b g] r]. intros (Hb & Hg & Hr) Hn. cbn [non_black] in Hn.
  apply orb_false_iff in Hn. destruct Hn as [Hn Er].
  apply orb_false_iff in Hn. destruct Hn as [Eb Eg].
  apply Z.ltb_ge in Eb, Eg, Er.
  repeat f_equal; lia.
Qed.

Lemma mask_value_non_black {F : Type} `{Arith F} (p : bgr) :
  mask_value p = if non_black p then fofZ 1 else fofZ 0.
Proof. destruct p as [[b g] r]. reflexivity. Qed.

(** The two accumulators over a list of [uint8] pixels, in real
    arithmetic: the channel sums, and the number of non-black pixels. *)
Lemma fold_add_colour_R (qs : list bgr) :
  Forall uint8 qs ->
  forall cb cg cr : R,
    fold_left add_colour qs (cb, cg, cr)
    = ((cb + IZR (channel_sum blue qs))%R,
       (cg + IZR (channel_sum green qs))%R,
       (cr + IZR (channel_sum red qs))%R).
Proof.
  induction 1 as [|q qs Hq _ IH]; intros cb cg cr.
  - cbn. f_equal; [f_equal|]; ring.
  - cbn [fold_left]. unfold add_colour at 2.
    rewrite mask_value_non_black.
    destruct (non_black q) eqn:En.
    + destruct q as [[b g] r]. rewrite IH.
      unfold channel_sum, blue, green, red.
      cbn [map fold_right fst snd fofZ fadd fmul R_arith].
      rewrite !plus_IZR. f_equal; [f_equal|]; ring.
    + rewrite (uint8_black q Hq En). rewrite IH.
      unfold channel_sum, blue, green, red.
      cbn [map fold_right fst snd fofZ fadd fmul R_arith].
      rewrite !plus_IZR. f_equal; [f_equal|]; ring.
Qed.

Lemma fold_add_weight_R (qs : list bgr) :
  forall wt : R,
    fold_left add_weight qs wt
    = (wt + IZR (Z.of_nat (length (filter non_black qs))))%R.
Proof.
  induction qs as [|q qs IH]; intros wt.
  - cbn. ring.
  - cbn [fold_left filter]. rewrite IH. unfold add_weight.
    rewrite mask_value_non_black.
    destruct (non_black q); cbn [length fofZ fadd R_arith].
    + rewrite Nat2Z.inj_succ, succ_IZR. ring.
    + ring.
Qed.

Lemma channel_sum_nonneg (channel : bgr -> Z) (qs : list bgr) :
  Forall (fun q => (0 <= channel q)%Z) qs -> (0 <= channel_sum channel qs)%Z.
Proof.
  unfold channel_sum. induction 1 as [|q qs Hq _ IH]; cbn; lia.
Qed.

Lemma channel_sum_all_black (channel : bgr -> Z) (qs : list bgr) :
  Forall uint8 qs -> filter non_black qs = [] ->
  channel (0, 0, 0)%Z = 0%Z ->
  channel_sum channel qs = 0%Z.
Proof.
  intros Hu Hf Hc. unfold channel_sum.
  induction Hu as [|q qs Hq _ IH]; [reflexivity|].
  cbn [filter] in Hf. destruct (non_black q) eqn:En; [discriminate|].
  rewrite (uint8_black q Hq En). cbn [map fold_right]. rewrite Hc, IH by exact Hf.
  reflexivity.
Qed.

Lemma nth_Forall {A} (P : A -> Prop) (l : list A) (n : nat) (d : A) :
  Forall P l -> P d -> P (nth n l d).
Proof.
  intros Hl Hd. destruct (Nat.lt_ge_cases n (length l)) as [Hn|Hn].
  - rewrite Forall_forall in Hl. apply Hl. now apply nth_In.
  - now rewrite nth_overflow.
Qed.

Lemma pixels_under_uint8 (images : list (image bgr)) (ps : list placement)
      (y x : nat) :
  Forall (Forall (Forall uint8)) images ->
  Forall uint8 (pixels_under images ps y x).
Proof.
  intros Hu. unfold pixels_under.
  induction ps as [|p ps IH]; [constructor|].
  cbn [flat_map]. apply Forall_app. split; [|exact IH].
  destruct p as [i px py ph pw|i]; cbn [pixel_under]; [|constructor].
  destruct (_ && _ && _ && _)%bool; [|constructor].
  constructor; [|constructor].
  apply nth_Forall; [|cbn; lia].
  apply nth_Forall; [|constructor].
  apply nth_Forall; [exact Hu | constructor].
Qed.

(** X15.  In real arithmetic, for rectangular [uint8] images and placement
    decisions that fit (as those of [blend_average] do): each channel of a
    panorama pixel is the integer quotient of the sum of that channel over
    the image pixels placed on the cell by the number of those pixels that
    are not black.  A black pixel of an image that covers the cell does not
    count in the average, and a cell with no non-black pixel is black. *)
Theorem blend_average_pixel_is_the_integer_mean_of_the_non_black_pixels
        (images : list (image bgr)) (c : composite) (y x : nat) :
  Forall rectangular images ->
  Forall (Forall (Forall uint8)) images ->
  Forall (placement_fits images (canvas_width c) (canvas_height c))
         (placements c) ->
  (y < Z.to_nat (canvas_height c))%nat ->
  (x < Z.to_nat (canvas_width c))%nat ->
  let qs := pixels_under images (placements c) y x in
  let n := Z.of_nat (length (filter non_black qs)) in
  nth x (nth y (render_average (F := R) images c) []) (0, 0, 0)%Z
  = if (n =? 0)%Z then (0, 0, 0)%Z
    else ((channel_sum blue qs / n)%Z,
          (channel_sum green qs / n)%Z,
          (channel_sum red qs / n)%Z).
Proof.
  intros Hrect Hu Hfit Hy Hx qs n.
  rewrite (@render_average_cell R _ _ images c y x Hrect Hfit Hy Hx).
  rewrite !fold_add_under. fold qs.
  pose proof (pixels_under_uint8 (placements c) y x Hu) as Hq. fold qs in Hq.
  rewrite (fold_add_colour_R Hq), fold_add_weight_R. fold n.
  unfold normalise, fzero. cbn [fofZ flt fdiv R_arith].
  replace (0 + IZR (channel_sum blue qs))%R with (IZR (channel_sum blue qs))
    by ring.
  replace (0 + IZR (channel_sum green qs))%R with (IZR (channel_sum green qs))
    by ring.
  replace (0 + IZR (channel_sum red qs))%R with (IZR (channel_sum red qs))
    by ring.
  replace (0 + IZR n)%R with (IZR n) by ring.
  destruct (Z.eqb_spec n 0) as [En|En].
  - assert (Hf : filter non_black qs = [])
      by (apply length_zero_iff_nil; lia).
    rewrite En.
    assert (Hlt : Rltb 0 0 = false) by (apply Rltb_false; lra).
    rewrite Hlt. unfold to_uint8.
    rewrite !(channel_sum_all_black _ Hq Hf) by reflexivity.
    now rewrite !ftrunc_IZR.
  - assert (Hn : (0 < n)%Z) by lia.
    assert (Hlt : Rltb 0 (IZR n) = true)
      by (apply Rltb_true, IZR_lt; exact Hn).
    rewrite Hlt. unfold to_uint8.
    assert (Hnn : forall channel,
               (forall p, uint8 p -> (0 <= channel p)%Z) ->
               (0 <= channel_sum channel qs)%Z).
    { intros channel Hc. apply channel_sum_nonneg.
      eapply Forall_impl; [|exact Hq]. exact Hc. }
    rewrite !ftrunc_quotient; try exact Hn; try reflexivity.
    + apply Hnn. intros [[b g] r] (_ & _ & Hr). cbn. lia.
    + apply Hnn. intros [[b g] r] (_ & Hg & _). cbn. lia.
    + apply Hnn. intros [[b g] r] (Hb & _ & _). cbn. lia.
Qed.

(** ** Cylindrical projector *)

Lemma for_each_returns {A B} (body : A -> outcome B) (g : A -> B) (l : list A) :
  (forall a, In a l -> body a = Returns (g a)) ->
  for_each body l = Returns (map g l).
Proof.
  induction l as [|a l IH]; intros Hb; [reflexivity|].
  cbn [for_each map]. rewrite (Hb a (or_introl eq_refl)). cbn [and_then].
  rewrite IH by (intros a' Ha'; apply Hb; right; exact Ha').
  reflexivity.
Qed.

Lemma zip_with_map {A B C D} (f : B -> C -> D) (g : A -> B) (k : A -> C)
      (l : list A) :
  zip_with f (map g l) (map k l) = map (fun a => f (g a) (k a)) l.
Proof.
  induction l as [|a l IH]; [reflexivity|].
  cbn [map zip_with]. now rewrite IH.
Qed.

Lemma nth_error_seq_lt (s n i : nat) :
  (i < n)%nat -> nth_error (seq s n) i = Some (s + i)%nat.
Proof.
  revert s i; induction n as [|n IH]; intros s i Hi; [lia|].
  destruct i as [|i]; cbn [seq nth_error].
  - now rewrite Nat.add_0_r.
  - rewrite IH by lia. f_equal. lia.
Qed.

Lemma nth_error_map_seq {A} (g : nat -> A) (n i : nat) :
  (i < n)%nat -> nth_error (map g (seq 0 n)) i = Some (g i).
Proof.
  intros Hi. rewrite nth_error_map, nth_error_seq_lt by exact Hi.
  reflexivity.
Qed.

Section WarpFacts.
Context {F : Type} `{Arith F} `{Truth F}.
Context {pixel : Type}.
Variable np_cos : F -> F.
Variable np_tan : F -> F.
Variable np_float32 : F -> F.
Variable sample : image pixel -> F -> F -> pixel.

(** With a focal length that is not 0 the loop body computes the position
    the specification gives. *)
Lemma planar_position_returns (f : F) (c : F * F) (x_cyl y_cyl : nat) :
  ftruthy f = true ->
  planar_position np_cos np_tan f c x_cyl y_cyl
  = Returns (source_position np_cos np_tan f c x_cyl y_cyl).
Proof.
  intros Hf. unfold planar_position, source_position, pydiv.
  destruct c as [xc yc]. rewrite Hf. reflexivity.
Qed.

Lemma planar_position_raises (f : F) (c : F * F) (x_cyl y_cyl : nat) :
  ftruthy f = false ->
  planar_position np_cos np_tan f c x_cyl y_cyl = Raises ZeroDivisionError.
Proof.
  intros Hf. unfold planar_position, pydiv.
  destruct c as [xc yc]. rewrite Hf. reflexivity.
Qed.

(** The pixels [warp_cylindrical] returns, when its loops run through. *)
Lemma warp_cylindrical_returns (img : image pixel) (f : F)
      (center : option (F * F)) :
  ftruthy f = true \/ fst (shape img) = 0%nat \/ snd (shape img) = 0%nat ->
  let c :=
    match center with
    | None => default_center (fst (shape img)) (snd (shape img))
    | Some c => c
    end in
  warp_cylindrical np_cos np_tan np_float32 sample img f center
  = Returns
      (map (fun y_cyl =>
              map (fun x_cyl =>
                     let p := source_position np_cos np_tan f c x_cyl y_cyl in
                     sample img (np_float32 (fst p)) (np_float32 (snd p)))
                  (seq 0 (snd (shape img))))
           (seq 0 (fst (shape img)))).
Proof.
  intros Hrun c. unfold warp_cylindrical.
  destruct (shape img) as [h w]. cbn [fst snd] in *. fold c.
  unfold coordinate_maps.
  assert (Hpos :
    for_each
      (fun y_cyl =>
         for_each (fun x_cyl => planar_position np_cos np_tan f c x_cyl y_cyl)
                  (seq 0 w))
      (seq 0 h)
    = Returns (map (fun y_cyl =>
                      map (fun x_cyl =>
                             source_position np_cos np_tan f c x_cyl y_cyl)
                          (seq 0 w))
                   (seq 0 h))).
  { destruct Hrun as [Hf|[->| ->]].
    - apply for_each_returns. intros y _.
      apply for_each_returns. intros x _.
      now apply planar_position_returns.
    - reflexivity.
    - apply for_each_returns. intros y _. reflexivity. }
  rewrite Hpos. cbn [and_then fst snd]. unfold remap.
  rewrite !map_map, zip_with_map. f_equal.
  apply map_ext. intros y. rewrite !map_map, zip_with_map. reflexivity.
Qed.

(** C1, as the code has it.  With a focal length that is not 0 (or an
    image without pixels) [warp_cylindrical] returns an image of the
    dimensions of the input, whose pixel [(x_cyl, y_cyl)] is the value
    [cv2.remap] gives the position [(x_src, y_src)] with
    [x_src = f * u / cos(th) + xc], [y_src = f * tan(th) + yc],
    [th = (y_cyl - yc) / f] and [u = (x_cyl - xc) / f], both coordinates
    rounded to [float32]; the centre defaults to [(w / 2, h / 2)].  When
    the sampler returns the border value for every position a full pixel
    or more outside the source, the pixel is that value there.  With focal
    length 0 and an image that has a pixel the first division raises
    [ZeroDivisionError]. *)
Theorem warp_cylindrical_samples_the_back_projection
        (zero : pixel)
        (sample_border :
           forall src x y, beyond_border src x y = true ->
                           sample src x y = zero)
        (img : image pixel) (f : F) (center : option (F * F)) :
  let h := fst (shape img) in
  let w := snd (shape img) in
  let xc := fst match center with
                | None => (fofnat w /! fofZ 2, fofnat h /! fofZ 2)
                | Some c => c
                end in
  let yc := snd match center with
                | None => (fofnat w /! fofZ 2, fofnat h /! fofZ 2)
                | Some c => c
                end in
  (ftruthy f = true \/ h = 0%nat \/ w = 0%nat ->
   exists warped,
     warp_cylindrical np_cos np_tan np_float32 sample img f center
     = Returns warped
     /\ length warped = h
     /\ Forall (fun row => length row = w) warped
     /\ shape warped = shape img
     /\ forall y_cyl x_cyl,
         (y_cyl < h)%nat -> (x_cyl < w)%nat ->
         let th := (fofnat y_cyl -! yc) /! f in
         let u := (fofnat x_cyl -! xc) /! f in
         let x_src := f *! u /! np_cos th +! xc in
         let y_src := f *! np_tan th +! yc in
         exists row p,
           nth_error warped y_cyl = Some row
           /\ nth_error row x_cyl = Some p
           /\ p = sample img (np_float32 x_src) (np_float32 y_src)
           /\ (beyond_border img (np_float32 x_src) (np_float32 y_src) = true ->
               p = zero))
  /\ (ftruthy f = false -> (0 < h)%nat -> (0 < w)%nat ->
      warp_cylindrical np_cos np_tan np_float32 sample img f center
      = Raises ZeroDivisionError).
Proof.
  intros h w xc yc. split.
  - intros Hrun.
    pose proof (warp_cylindrical_returns img f center Hrun) as Hw.
    cbv zeta in Hw. fold h w in Hw.
    eexists. split; [exact Hw|].
    split; [now rewrite length_map, length_seq|].
    split; [apply Forall_map, Forall_forall; intros y _;
            now rewrite length_map, length_seq|].
    split.
    { unfold shape at 1. rewrite length_map, length_seq. fold h.
      destruct (shape img) as [h0 w0] eqn:Es. subst h w. cbn [fst snd].
      f_equal. destruct h0 as [|h0]; cbn [seq map hd length].
      - unfold shape in Es. injection Es as Eh Ew.
        apply length_zero_iff_nil in Eh. subst img. exact Ew.
      - now rewrite length_map, length_seq. }
    intros y_cyl x_cyl Hy Hx th u x_src y_src.
    eexists. eexists.
    split; [apply (nth_error_map_seq _ Hy)|].
    split; [apply (nth_error_map_seq _ Hx)|].
    assert (Ep : source_position np_cos np_tan f
                   match center with
                   | None => default_center h w
                   | Some c => c
                   end x_cyl y_cyl
                 = (x_src, y_src)).
    { subst x_src y_src th u xc yc. unfold source_position, default_center.
      destruct center as [[cx cy]|]; reflexivity. }
    cbv zeta. rewrite Ep. cbn [fst snd]. split; [reflexivity|].
    apply sample_border.
  - intros Hf Hh Hw. unfold warp_cylindrical, coordinate_maps.
    destruct (shape img) as [h0 w0]. subst h w. cbn [fst snd] in *.
    destruct h0 as [|h0]; [lia|]. destruct w0 as [|w0]; [lia|].
    cbn [seq for_each]. rewrite planar_position_raises by exact Hf.
    reflexivity.
Qed.

End WarpFacts.

(** *** The sampler in real arithmetic *)

Lemma pixel_or_border_outside (src : image R) (y x : Z) :
  (y < 0 \/ x < 0 \/ Z.of_nat (fst (shape src)) <= y
   \/ Z.of_nat (snd (shape src)) <= x)%Z ->
  pixel_or_border src y x = 0%R.
Proof.
  intros Hout. unfold pixel_or_border.
  destruct (shape src) as [h w]. cbn [fst snd] in Hout.
  destruct (Z.ltb_spec y 0); [reflexivity|].
  destruct (Z.ltb_spec x 0); [reflexivity|].
  destruct (Z.leb_spec (Z.of_nat h) y); [reflexivity|].
  destruct (Z.leb_spec (Z.of_nat w) x); [reflexivity|].
  lia.
Qed.

Lemma Rfloor_le_neg1 (x : R) : (x <= -1)%R -> (Rfloor x <= -1)%Z.
Proof.
  intros Hx. destruct (Rfloor_spec x) as [Hlo _].
  apply le_IZR. lra.
Qed.

Lemma Rfloor_ge_IZR (x : R) (n : Z) : (IZR n <= x)%R -> (n <= Rfloor x)%Z.
Proof.
  intros Hx. destruct (Rfloor_spec x) as [_ Hhi].
  assert (Hlt : (IZR n < IZR (Rfloor x) + 1)%R) by lra.
  rewrite <- plus_IZR in Hlt. apply lt_IZR in Hlt. lia.
Qed.

(** One side of the interpolation vanishes when the position is a full
    pixel or more below 0: the lower neighbour is outside, and the upper
    one is outside or has weight 0. *)
Lemma weight_left_of_border (x : R) (lo hi : R) :
  (x <= -1)%R ->
  ((Rfloor x < 0)%Z -> lo = 0%R) ->
  ((Rfloor x + 1 < 0)%Z -> hi = 0%R) ->
  ((1 - (x - IZR (Rfloor x))) * lo + (x - IZR (Rfloor x)) * hi = 0)%R.
Proof.
  intros Hx Hlo Hhi.
  pose proof (Rfloor_le_neg1 Hx) as Hf.
  rewrite (Hlo ltac:(lia)).
  destruct (Z.eq_dec (Rfloor x) (-1)) as [E|E].
  - destruct (Rfloor_spec x) as [Flo _]. rewrite E in *.
    assert (Ex : x = (-1)%R) by lra. rewrite Ex. lra.
  - rewrite (Hhi ltac:(lia)). lra.
Qed.

(** The sampler returns the border value at every position a full pixel or
    more outside the source. *)
Lemma bilinear_border (src : image R) (x y : R) :
  beyond_border src x y = true -> bilinear src x y = 0%R.
Proof.
  unfold beyond_border. destruct (shape src) as [h w] eqn:Es.
  unfold fofnat. cbn [flt fofZ R_arith].
  rewrite !orb_true_iff, !negb_true_iff, !Rltb_false.
  intros Hout. unfold bilinear. cbv zeta.
  assert (Hh : fst (shape src) = h) by now rewrite Es.
  assert (Hw : snd (shape src) = w) by now rewrite Es.
  destruct Hout as [[[Hx|Hx]|Hy]|Hy].
  - rewrite !(@weight_left_of_border x _ _ Hx); [lra | | | | ];
      intros Hneg; apply pixel_or_border_outside; lia.
  - pose proof (@Rfloor_ge_IZR x (Z.of_nat w) Hx) as Hf.
    rewrite !pixel_or_border_outside by (rewrite ?Hh, ?Hw; lia). lra.
  - set (a := (x - IZR (Rfloor x))%R).
    replace ((1 - (y - IZR (Rfloor y)))
             * ((1 - a) * pixel_or_border src (Rfloor y) (Rfloor x)
                + a * pixel_or_border src (Rfloor y) (Rfloor x + 1))
             + (y - IZR (Rfloor y))
               * ((1 - a) * pixel_or_border src (Rfloor y + 1) (Rfloor x)
                  + a * pixel_or_border src (Rfloor y + 1) (Rfloor x + 1)))%R
      with ((1 - a)
            * ((1 - (y - IZR (Rfloor y)))
               * pixel_or_border src (Rfloor y) (Rfloor x)
               + (y - IZR (Rfloor y))
                 * pixel_or_border src (Rfloor y + 1) (Rfloor x))
            + a * ((1 - (y - IZR (Rfloor y)))
                   * pixel_or_border src (Rfloor y) (Rfloor x + 1)
                   + (y - IZR (Rfloor y))
                     * pixel_or_border src (Rfloor y + 1) (Rfloor x + 1)))%R
      by ring.
    rewrite !(@weight_left_of_border y _ _ Hy); [lra | | | | ];
      intros Hneg; apply pixel_or_border_outside; lia.
  - pose proof (@Rfloor_ge_IZR y (Z.of_nat h) Hy) as Hf.
    rewrite !pixel_or_border_outside by (rewrite ?Hh, ?Hw; lia). lra.
Qed.

Lemma sqrt3_bounds : (4 / 3 < sqrt 3 < 2)%R.
Proof.
  split.
  - apply Rsqr_incrst_0; [|lra | apply sqrt_pos].
    rewrite Rsqr_sqrt by lra. unfold Rsqr. lra.
  - apply Rsqr_incrst_0; [|apply sqrt_pos | lra].
    rewrite Rsqr_sqrt by lra. unfold Rsqr. lra.
Qed.

(** The position the projector computes for the pixel in column 0 of row 1
    of the worked source, at focal length [3 / pi] and centre
    [(1 / 2, 0)]: half a pixel to the left of the source, between rows 1
    and 2. *)
Lemma ex_source_position :
  source_position cos tan (3 / PI)%R (1 / 2, 0)%R 0 1
  = ((- (1 / 2))%R, (3 * sqrt 3 / PI)%R).
Proof.
  unfold source_position, fofnat. cbn [fofZ fsub fmul fdiv fadd R_arith].
  pose proof PI_neq0 as Hpi.
  replace ((IZR (Z.of_nat 1) - 0) / (3 / PI))%R with (PI / 3)%R
    by (cbn; field; exact Hpi).
  rewrite cos_PI3, tan_PI3. f_equal; cbn; field; exact Hpi.
Qed.

Lemma ex_source_row : Rfloor (3 * sqrt 3 / PI) = 1%Z.
Proof.
  pose proof sqrt3_bounds as [Hlo Hhi].
  pose proof PI_4 as H4. pose proof PI2_3_2 as H3.
  assert (Hpi : (0 < PI)%R) by lra.
  apply Rfloor_unique. split.
  - apply Rmult_le_reg_r with PI; [exact Hpi|].
    replace (3 * sqrt 3 / PI * PI)%R with (3 * sqrt 3)%R by (field; lra).
    lra.
  - apply Rmult_lt_reg_r with PI; [exact Hpi|].
    replace (3 * sqrt 3 / PI * PI)%R with (3 * sqrt 3)%R by (field; lra).
    lra.
Qed.

Lemma ex_source_column : Rfloor (- (1 / 2)) = (-1)%Z.
Proof. apply Rfloor_unique. lra. Qed.

(** The theorem at the worked source, with the sampler in real arithmetic
    and maps stored without rounding: the projection returns an image of
    three rows and one column. *)
Lemma warp_cylindrical_samples_the_back_projection_witness :
  ftruthy (3 / PI)%R = true
  /\ exists warped,
      warp_cylindrical cos tan (fun x : R => x) bilinear ex_source (3 / PI)%R
        (Some (1 / 2, 0)%R) = Returns warped
      /\ length warped = 3%nat
      /\ Forall (fun row => length row = 1%nat) warped.
Proof.
  assert (Hf : ftruthy (3 / PI)%R = true).
  { apply R_truthy. pose proof PI_RGT_0.
    apply Rgt_not_eq. apply Rdiv_lt_0_compat; lra. }
  split; [exact Hf|].
  destruct (@warp_cylindrical_samples_the_back_projection R _ _ R cos tan
              (fun x : R => x) bilinear 0%R bilinear_border ex_source
              (3 / PI)%R (Some (1 / 2, 0)%R)) as [Hret _].
  destruct (Hret (or_introl Hf)) as (warped & Hw & Hlen & Hrows & _).
  exists warped. auto.
Defined.

(** C1 as stated fails just outside the source: the pixel in column 0 of
    row 1 of the worked projection is sampled at [x_src = -1/2], outside
    the source bounds, and is 100, the edge pixel blended with the border,
    not 0.  And with focal length 0 the projection raises. *)
Lemma warp_cylindrical_blends_the_edge_with_the_border :
  source_position cos tan (3 / PI)%R (1 / 2, 0)%R 0 1
  = ((- (1 / 2))%R, (3 * sqrt 3 / PI)%R)
  /\ (exists warped,
         warp_cylindrical cos tan (fun x : R => x) bilinear ex_source
           (3 / PI)%R (Some (1 / 2, 0)%R) = Returns warped
         /\ nth 0 (nth 1 warped []) 0%R = 100%R)
  /\ 100%R <> 0%R
  /\ warp_cylindrical cos tan (fun x : R => x) bilinear ex_source 0%R
       (Some (1 / 2, 0)%R) = Raises ZeroDivisionError.
Proof.
  split; [exact ex_source_position|]. split; [|split; [lra|]].
  - assert (Hf : ftruthy (3 / PI)%R = true).
    { apply R_truthy. pose proof PI_RGT_0.
      apply Rgt_not_eq. apply Rdiv_lt_0_compat; lra. }
    eexists. split.
    + apply (warp_cylindrical_returns cos tan (fun x : R => x) bilinear
               ex_source (3 / PI)%R (Some (1 / 2, 0)%R) (or_introl Hf)).
    + cbn [ex_source shape length hd fst snd seq map nth].
      rewrite ex_source_position. cbn [fst snd].
      unfold bilinear. cbv zeta.
      rewrite ex_source_row, ex_source_column.
      assert (E00 : pixel_or_border ex_source 1 (-1) = 0%R)
        by (vm_compute; reflexivity).
      assert (E01 : pixel_or_border ex_source 1 (-1 + 1) = 200%R)
        by (vm_compute; reflexivity).
      assert (E10 : pixel_or_border ex_source (1 + 1) (-1) = 0%R)
        by (vm_compute; reflexivity).
      assert (E11 : pixel_or_border ex_source (1 + 1) (-1 + 1) = 200%R)
        by (vm_compute; reflexivity).
      rewrite E00, E01, E10, E11. lra.
  - unfold warp_cylindrical, coordinate_maps.
    cbn [ex_source shape length hd fst snd seq for_each].
    unfold planar_position. rewrite pydiv_R_zero. reflexivity.
Qed.

(** ** Sequence accumulator: the closed form *)

Lemma cumulative_loop_closed_R (cx cy : R) (pairwise : list (R * R)) :
  forall i,
    (i < length pairwise)%nat ->
    nth i (cumulative_loop cx cy pairwise) (0, 0)%R
    = (cx, (cy - fold_right Rplus 0 (map snd (firstn (S i) pairwise)))%R).
Proof.
  revert cy; induction pairwise as [|[dx dy] rest IH]; intros cy i Hi;
    [simpl in Hi; lia|].
  destruct i as [|i].
  - cbn. f_equal. ring.
  - cbn [cumulative_loop nth]. rewrite IH by (simpl in Hi; lia).
    cbn [firstn map fold_right snd fsub R_arith]. f_equal. ring.
Qed.

(** X16.  In real arithmetic the offset of image [i] is
    [(0, -(dy_0 + ... + dy_(i-1)))]: the negated sum of the vertical
    components of the pairwise translations before it, and nothing of their
    horizontal components. *)
Theorem cumulative_offset_is_the_negated_sum_of_the_steps_before
        (pairwise : list (R * R)) (i : nat) :
  (i <= length pairwise)%nat ->
  nth i (compute_cumulative_translations pairwise) (0, 0)%R
  = (0, - fold_right Rplus 0 (map snd (firstn i pairwise)))%R.
Proof.
  intros Hi. unfold compute_cumulative_translations.
  destruct i as [|i].
  - cbn. f_equal. ring.
  - cbn [nth]. rewrite cumulative_loop_closed_R by lia.
    unfold fzero. cbn [fofZ R_arith]. f_equal. ring.
Qed.

(** ** Robust translation estimator: the result record *)

Lemma count_true_le_length (mask : list bool) :
  (count_true mask <= length mask)%nat.
Proof.
  unfold count_true. induction mask as [|b mask IH]; [simpl; lia|].
  cbn [filter]. destruct b; cbn [length]; lia.
Qed.

Section EstimatorRecord.
Context {F : Type} `{Arith F}.
Context {rng : Type}.
Variable randint : rng -> nat -> nat * rng.

Lemma inlier_mask_length (pts1 pts2 : list (F * F)) (threshold : F) t :
  length pts1 = length pts2 ->
  length (inlier_mask pts1 pts2 threshold t) = length pts1.
Proof. intros Hl. unfold inlier_mask. now apply zip_with_length. Qed.

(** The mask, the count and the number of points agree. *)
Lemma estimate_record (pts1 pts2 : list (F * F)) (threshold : F)
      (max_iters : nat) (g : rng) :
  length pts1 = length pts2 ->
  let res :=
    fst (estimate_pure_translation_ransac randint pts1 pts2 threshold
           max_iters g) in
  length (inliers res) = length pts1
  /\ num_inliers res = count_true (inliers res)
  /\ (num_inliers res <= length pts1)%nat
  /\ inlier_ratio res
     = if (length pts1 <? 1)%nat then fzero
       else fofnat (num_inliers res) /! fofnat (length pts1).
Proof.
  intros Hl. cbv zeta. unfold estimate_pure_translation_ransac.
  destruct (Nat.ltb_spec (length pts1) 1) as [Hlt|Hn].
  - cbn. repeat split; lia.
  - pose proof (ransac_loop_samples randint pts1 pts2 threshold max_iters g
                  (initial_best (length pts1))) as Hloop.
    destruct (ransac_loop randint pts1 pts2 threshold max_iters g
                (initial_best (length pts1))) as [b g'].
    cbn [fst] in Hloop.
    assert (Hpos : (0 <? length pts1)%nat = true) by (apply Nat.ltb_lt; lia).
    rewrite Hpos. cbn [fst inliers num_inliers inlier_ratio].
    assert (Hb : length (best_mask b) = length pts1
                 /\ best_inliers b = count_true (best_mask b)).
    { destruct (run_best_cases pts1 pts2 threshold
                  (samples randint (length pts1) max_iters g)
                  (initial_best (length pts1)))
        as [[_ Hr]|(j & idx & _ & _ & _ & _ & Hr)];
        rewrite Hr in Hloop; subst b.
      - cbn [initial_best best_mask best_inliers].
        rewrite repeat_length, count_true_repeat_false. auto.
      - cbn [winner best_mask best_inliers]. unfold score.
        split; [now apply inlier_mask_length | reflexivity]. }
    destruct Hb as [Hb1 Hb2].
    refine (conj Hb1 (conj Hb2 (conj _ eq_refl))).
    rewrite Hb2, <- Hb1. apply count_true_le_length.
Qed.

End EstimatorRecord.

(** X17.  Given two point arrays of the same length, in any arithmetic and
    for any generator, the estimator returns a mask with one entry per
    point pair, an inlier count equal to the number of entries set in that
    mask, and a count that does not exceed the number of pairs. *)
Theorem estimator_mask_and_count_agree
        (F : Type) (A : Arith F) (rng : Type)
        (randint : rng -> nat -> nat * rng) (pts1 pts2 : list (F * F))
        (threshold : F) (max_iters : nat) (g : rng) :
  length pts1 = length pts2 ->
  let res :=
    fst (estimate_pure_translation_ransac randint pts1 pts2 threshold
           max_iters g) in
  length (inliers res) = length pts1
  /\ num_inliers res = count_true (inliers res)
  /\ (num_inliers res <= length pts1)%nat.
Proof.
  intros Hl res.
  destruct (estimate_record randint pts1 pts2 threshold max_iters g Hl)
    as (H1 & H2 & H3 & _).
  auto.
Qed.

(** X18.  In real arithmetic, given two point arrays of the same length,
    the inlier ratio the estimator returns lies between 0 and 1. *)
Theorem estimator_inlier_ratio_is_a_fraction
        (rng : Type) (randint : rng -> nat -> nat * rng)
        (pts1 pts2 : list (R * R)) (threshold : R) (max_iters : nat)
        (g : rng) :
  length pts1 = length pts2 ->
  (0 <= inlier_ratio
          (fst (estimate_pure_translation_ransac randint pts1 pts2 threshold
                  max_iters g)) <= 1)%R.
Proof.
  intros Hl.
  destruct (estimate_record randint pts1 pts2 threshold max_iters g Hl)
    as (_ & _ & Hle & Hr).
  rewrite Hr. destruct (Nat.ltb_spec (length pts1) 1) as [Hlt|Hn].
  - unfold fzero. cbn [fofZ R_arith]. lra.
  - set (k := num_inliers _) in *.
    unfold fofnat. cbn [fofZ fdiv R_arith].
    assert (Hk : (0 <= IZR (Z.of_nat k))%R) by (apply IZR_le; lia).
    assert (Hkn : (IZR (Z.of_nat k) <= IZR (Z.of_nat (length pts1)))%R)
      by (apply IZR_le; lia).
    assert (Hnp : (0 < IZR (Z.of_nat (length pts1)))%R)
      by (apply IZR_lt; lia).
    split.
    + apply Rmult_le_pos; [exact Hk|].
      apply Rlt_le, Rinv_0_lt_compat. exact Hnp.
    + apply (Rmult_le_reg_r (IZR (Z.of_nat (length pts1)))); [exact Hnp|].
      unfold Rdiv. rewrite Rmult_assoc, Rinv_l by lra. lra.
Qed.

(** ** Drift corrector: the correction in real arithmetic *)

(** X19.  In real arithmetic, for a focal length that is not 0, the
    corrected focal length is [f - dy_gap / (2 * pi)]: it is shorter than
    [f] exactly when the gap is positive and equal to [f] exactly when
    the gap is 0; and the correction per pair times the number of images
    is the gap angle. *)
Theorem drift_correction_subtracts_the_gap_over_two_pi
        (translations : list (pair_record R)) (first_last : ransac_result R)
        (f : R) (image_width : nat) :
  f <> 0%R ->
  let c := correct_drift translations first_last f image_width in
  let dy_gap := snd (translation first_last) in
  corrected_focal_length c = (f - dy_gap / (2 * PI))%R
  /\ ((corrected_focal_length c < f)%R <-> (0 < dy_gap)%R)
  /\ (corrected_focal_length c = f <-> dy_gap = 0%R)
  /\ (correction_per_pair c * IZR (Z.of_nat (num_images c)))%R = gap_angle c
  /\ num_images c = S (length translations).
Proof.
  intros Hf c dy_gap. pose proof PI_RGT_0 as Hpi.
  assert (Hc : corrected_focal_length c = (f - dy_gap / (2 * PI))%R).
  { subst c dy_gap. cbn. field. split; lra. }
  assert (Hk : (0 < / (2 * PI))%R) by (apply Rinv_0_lt_compat; lra).
  split; [exact Hc|]. rewrite Hc. unfold Rdiv.
  split; [split; intros; nra|]. split; [split; intros; nra|].
  split.
  - subst c. cbn [correct_drift correction_per_pair num_images gap_angle].
    unfold fofnat. cbn [fofZ fdiv R_arith].
    assert (Hn : (0 < IZR (Z.of_nat (length translations + 1)))%R)
      by (apply IZR_lt; lia).
    field. lra.
  - subst c. cbn. lia.
Qed.

(** ** Robust translation estimator: correspondences without outliers *)

Lemma count_true_repeat_true n : count_true (repeat true n) = n.
Proof.
  unfold count_true. induction n as [|n IH]; [reflexivity|].
  cbn [repeat filter length]. now rewrite IH.
Qed.

Lemma select_repeat_true {A} (l : list A) :
  select (repeat true (length l)) l = l.
Proof. induction l as [|a l IH]; [reflexivity|]. cbn. now rewrite IH. Qed.

Lemma nth_repeat_lt {A} (v d : A) n i :
  (i < n)%nat -> nth i (repeat v n) d = v.
Proof.
  intros Hi. rewrite (nth_indep _ d v) by (now rewrite repeat_length).
  apply nth_repeat.
Qed.

Lemma insert_sorted_repeat_R (v : R) k :
  insert_sorted v (repeat v k) = repeat v (S k).
Proof.
  induction k as [|k IH]; [reflexivity|].
  cbn [repeat insert_sorted]. cbn [flt R_arith].
  assert (E : Rltb v v = false) by (apply Rltb_false; lra).
  rewrite E, IH. reflexivity.
Qed.

Lemma np_sort_repeat_R (v : R) n : np_sort (repeat v n) = repeat v n.
Proof.
  induction n as [|n IH]; [reflexivity|].
  cbn [repeat np_sort fold_right]. fold (np_sort (repeat v n)).
  rewrite IH. apply insert_sorted_repeat_R.
Qed.

(** The median of a constant array is the constant. *)
Lemma np_median_repeat_R (v : R) n :
  (1 <= n)%nat -> np_median (repeat v n) = v.
Proof.
  intros Hn. unfold np_median. rewrite np_sort_repeat_R, repeat_length.
  destruct n as [|n]; [lia|].
  assert (Hhalf : (S n / 2 < S n)%nat) by (apply Nat.div_lt; lia).
  destruct (Nat.even (S n)).
  - rewrite !nth_repeat_lt by lia. cbn [fofZ fadd fdiv R_arith]. field.
  - now rewrite nth_repeat_lt by lia.
Qed.

Section ExactRecovery.
Variables tx ty : R.
Variable pts1 : list (R * R).
Variable threshold : R.
Hypothesis threshold_pos : (0 < threshold)%R.

Lemma shifted_hypothesis idx :
  (idx < length pts1)%nat ->
  hypothesis pts1 (map (fun p => (fst p + tx, snd p + ty)%R) pts1) idx
  = (tx, ty).
Proof.
  intros Hi. unfold hypothesis.
  rewrite (nth_indep (map _ pts1) origin
             ((fun p => (fst p + tx, snd p + ty)%R) (origin (F := R))))
    by (now rewrite length_map).
  rewrite (map_nth (fun p => (fst p + tx, snd p + ty)%R)).
  destruct (nth idx pts1 origin) as [x y].
  cbn [fst snd fsub R_arith]. f_equal; ring.
Qed.

Lemma shifted_mask :
  inlier_mask pts1 (map (fun p => (fst p + tx, snd p + ty)%R) pts1)
    threshold (tx, ty)
  = repeat true (length pts1).
Proof.
  unfold inlier_mask. induction pts1 as [|[x y] rest IH]; [reflexivity|].
  cbn [map zip_with length repeat]. rewrite IH. f_equal.
  unfold np_norm. cbn [fst snd fadd fsub fmul fsqrt flt R_arith].
  apply Rltb_true.
  replace (x + tx - (x + tx))%R with 0%R by ring.
  replace (y + ty - (y + ty))%R with 0%R by ring.
  replace (0 * 0 + 0 * 0)%R with 0%R by ring.
  rewrite sqrt_0. exact threshold_pos.
Qed.

Lemma shifted_refine :
  (1 <= length pts1)%nat ->
  refine pts1 (map (fun p => (fst p + tx, snd p + ty)%R) pts1)
    (repeat true (length pts1))
  = (tx, ty).
Proof.
  intros Hn. unfold refine.
  rewrite select_repeat_true.
  rewrite <- (length_map (fun p => (fst p + tx, snd p + ty)%R) pts1) at 1 2.
  rewrite select_repeat_true.
  assert (Ex : zip_with fsub
                 (map fst (map (fun p => (fst p + tx, snd p + ty)%R) pts1))
                 (map fst pts1)
               = repeat tx (length pts1)).
  { clear Hn. induction pts1 as [|[x y] rest IH]; [reflexivity|].
    cbn [map zip_with length repeat fst]. rewrite IH. f_equal.
    cbn [fsub R_arith]. ring. }
  assert (Ey : zip_with fsub
                 (map snd (map (fun p => (fst p + tx, snd p + ty)%R) pts1))
                 (map snd pts1)
               = repeat ty (length pts1)).
  { clear Hn Ex. induction pts1 as [|[x y] rest IH]; [reflexivity|].
    cbn [map zip_with length repeat snd]. rewrite IH. f_equal.
    cbn [fsub R_arith]. ring. }
  rewrite Ex, Ey, !np_median_repeat_R by exact Hn. reflexivity.
Qed.

End ExactRecovery.

(** X20.  In real arithmetic, when every point of the second array is the
    corresponding point of the first displaced by the same [(tx, ty)],
    with at least one pair, one iteration, a positive threshold and draws
    in range: the estimator returns exactly [(tx, ty)], marks every pair an
    inlier and reports the ratio 1, whichever pairs it samples. *)
Theorem estimator_recovers_a_common_translation
        (rng : Type) (randint : rng -> nat -> nat * rng)
        (pts1 : list (R * R)) (tx ty threshold : R) (max_iters : nat)
        (g : rng) :
  (forall g' m, (0 < m)%nat -> (fst (randint g' m) < m)%nat) ->
  (1 <= length pts1)%nat ->
  (1 <= max_iters)%nat ->
  (0 < threshold)%R ->
  let pts2 := map (fun p => (fst p + tx, snd p + ty)%R) pts1 in
  let res :=
    fst (estimate_pure_translation_ransac randint pts1 pts2 threshold
           max_iters g) in
  translation res = (tx, ty)
  /\ inliers res = repeat true (length pts1)
  /\ num_inliers res = length pts1
  /\ inlier_ratio res = 1%R.
Proof.
  intros Hrange Hn Hit Ht pts2 res. subst res.
  unfold estimate_pure_translation_ransac.
  destruct (Nat.ltb_spec (length pts1) 1) as [Hlt|_]; [lia|].
  pose proof (ransac_loop_samples randint pts1 pts2 threshold max_iters g
                (initial_best (length pts1))) as Hloop.
  destruct (ransac_loop randint pts1 pts2 threshold max_iters g
              (initial_best (length pts1))) as [b g'].
  cbn [fst] in Hloop.
  pose proof (samples_in_range randint max_iters g Hrange
                (n := length pts1) ltac:(lia)) as Hin.
  assert (Hwin : forall idx, (idx < length pts1)%nat ->
                 winner pts1 pts2 threshold idx
                 = {| best_inliers := length pts1;
                      best_translation := (tx, ty);
                      best_mask := repeat true (length pts1) |}).
  { intros idx Hidx. unfold winner, score. subst pts2.
    rewrite (shifted_hypothesis tx ty pts1 Hidx).
    rewrite (shifted_mask tx ty pts1 Ht), count_true_repeat_true.
    reflexivity. }
  assert (Hb : b = {| best_inliers := length pts1;
                      best_translation := (tx, ty);
                      best_mask := repeat true (length pts1) |}).
  { rewrite Forall_forall in Hin.
    destruct (run_best_cases pts1 pts2 threshold
                (samples randint (length pts1) max_iters g)
                (initial_best (length pts1)))
      as [[Hall _]|(j & idx & Hj & _ & _ & _ & Hr)].
    - exfalso. destruct max_iters as [|k]; [lia|].
      cbn [samples] in Hall, Hin.
      destruct (randint g (length pts1)) as [idx0 g0].
      inversion Hall as [|? ? H0 _]; subst.
      assert (Hidx0 : (idx0 < length pts1)%nat)
        by (apply Hin; left; reflexivity).
      pose proof (Hwin idx0 Hidx0) as Hw.
      apply (f_equal (@best_inliers R)) in Hw. cbn in Hw, H0. lia.
    - rewrite Hloop, Hr. apply Hwin. apply Hin.
      eapply nth_error_In. exact Hj. }
  clear Hloop. subst b.
  cbn [best_inliers best_mask best_translation fst translation
       inliers num_inliers inlier_ratio].
  assert (Hpos : (0 <? length pts1)%nat = true) by (apply Nat.ltb_lt; lia).
  rewrite Hpos. subst pts2. rewrite (shifted_refine tx ty pts1 Hn).
  refine (conj eq_refl (conj eq_refl (conj eq_refl _))).
  unfold fofnat. cbn [fofZ fdiv R_arith].
  assert (Hnz : (0 < IZR (Z.of_nat (length pts1)))%R) by (apply IZR_lt; lia).
  field. lra.
Qed.

(** ** Border trim: trimming twice *)

Lemma slice_length {A} (lo hi : nat) (a : list A) :
  (hi <= length a)%nat -> length (slice lo hi a) = (hi - lo)%nat.
Proof.
  intros Hhi. unfold slice. rewrite length_firstn, length_skipn. lia.
Qed.

Lemma slice_nth_error {A} (lo hi : nat) (a : list A) i :
  nth_error (slice lo hi a) i
  = if (i <? hi - lo)%nat then nth_error a (lo + i) else None.
Proof.
  unfold slice. rewrite nth_error_firstn.
  destruct (i <? hi - lo)%nat; [apply nth_error_skipn | reflexivity].
Qed.

Lemma slice_whole {A} (a : list A) : slice 0 (length a) a = a.
Proof. unfold slice. rewrite Nat.sub_0_r. cbn [skipn]. apply firstn_all. Qed.

Lemma slice_In {A} (lo hi : nat) (a : list A) x :
  In x (slice lo hi a) -> In x a.
Proof.
  unfold slice. intros Hin.
  rewrite <- (firstn_skipn lo a). apply in_or_app. right.
  rewrite <- (firstn_skipn (hi - lo) (skipn lo a)). apply in_or_app. left.
  exact Hin.
Qed.

Section CropTwice.
Context {pixel : Type}.
Variable gray : pixel -> Z.
Variable threshold : Z.

(** The pixels of a sub-image are those of the image, displaced. *)
Lemma bright_at_slice (img : image pixel) y1 y2e x1 x2e y x :
  bright_at gray (map (slice x1 x2e) (slice y1 y2e img)) threshold y x
  = ((y <? y2e - y1)%nat && (x <? x2e - x1)%nat
     && bright_at gray img threshold (y1 + y) (x1 + x))%bool.
Proof.
  unfold bright_at. rewrite nth_error_map, slice_nth_error.
  destruct (y <? y2e - y1)%nat; cbn [andb option_map]; [|reflexivity].
  destruct (nth_error img (y1 + y)) as [row|]; cbn [option_map];
    [|now rewrite andb_false_r].
  rewrite slice_nth_error.
  destruct (x <? x2e - x1)%nat; reflexivity.
Qed.

Lemma slice_rectangular (img : image pixel) (w y1 y2e x1 x2e : nat) :
  Forall (fun row => length row = w) img ->
  (y2e <= length img)%nat -> (x2e <= w)%nat ->
  length (map (slice x1 x2e) (slice y1 y2e img)) = (y2e - y1)%nat
  /\ Forall (fun row => length row = (x2e - x1)%nat)
       (map (slice x1 x2e) (slice y1 y2e img)).
Proof.
  intros Hrect Hy Hx. rewrite length_map, slice_length by exact Hy.
  split; [reflexivity|].
  apply Forall_map, Forall_forall. intros row Hin.
  apply slice_length. apply slice_In in Hin.
  rewrite Forall_forall in Hrect. rewrite (Hrect row Hin). exact Hx.
Qed.

(** X21.  On a rectangular, non-empty image [crop_panorama] returns a
    rectangular, non-empty image no larger than its input, and trimming
    that result again returns it unchanged. *)
Theorem crop_panorama_is_idempotent (img : image pixel) (w : nat) :
  (0 < length img)%nat -> (0 < w)%nat ->
  Forall (fun row => length row = w) img ->
  exists out h' w',
    crop_panorama gray img threshold = Ok out
    /\ crop_panorama gray out threshold = Ok out
    /\ length out = h' /\ Forall (fun row => length row = w') out
    /\ (0 < h' <= length img)%nat /\ (0 < w' <= w)%nat.
Proof.
  intros Hh Hw Hrect.
  destruct (crop_panorama_cases gray threshold Hh Hw Hrect)
    as [[_ Hc]|(y1 & y2 & x1 & x2 & Hc & Hall & (xa & Ha) & (xb & Hb)
                & (yc & Hcc) & (yd & Hd))].
  - exists img, (length img), w. rewrite Hc. repeat split; auto; lia.
  - pose proof (Hall _ _ Ha) as [Hya Hxa].
    pose proof (Hall _ _ Hb) as [Hyb Hxb].
    pose proof (Hall _ _ Hcc) as [Hyc Hxc].
    pose proof (Hall _ _ Hd) as [Hyd Hxd].
    destruct (@bright_at_in_range _ gray threshold _ _ _ _ Hrect Ha) as [Ra1 Ra2].
    destruct (@bright_at_in_range _ gray threshold _ _ _ _ Hrect Hb) as [Rb1 Rb2].
    destruct (@bright_at_in_range _ gray threshold _ _ _ _ Hrect Hcc) as [Rc1 Rc2].
    destruct (@bright_at_in_range _ gray threshold _ _ _ _ Hrect Hd) as [Rd1 Rd2].
    set (out := map (slice x1 (x2 + 1)) (slice y1 (y2 + 1) img)) in *.
    destruct (@slice_rectangular img w y1 (y2 + 1) x1 (x2 + 1) Hrect
                ltac:(lia) ltac:(lia)) as [Hlo Hro].
    fold out in Hlo, Hro.
    exists out, (y2 + 1 - y1)%nat, (x2 + 1 - x1)%nat.
    refine (conj Hc (conj _ (conj Hlo (conj Hro (conj _ _))))); try lia.
    assert (Hbo : forall y x,
               bright_at gray out threshold y x
               = ((y <? y2 + 1 - y1)%nat && (x <? x2 + 1 - x1)%nat
                  && bright_at gray img threshold (y1 + y) (x1 + x))%bool)
      by (intros; apply bright_at_slice).
    assert (Bright : forall y x,
               (y1 <= y <= y2)%nat -> (x1 <= x <= x2)%nat ->
               bright_at gray img threshold y x = true ->
               bright_at gray out threshold (y - y1) (x - x1) = true).
    { intros y x Hy Hx Hbr. rewrite Hbo.
      replace (y1 + (y - y1))%nat with y by lia.
      replace (x1 + (x - x1))%nat with x by lia.
      rewrite Hbr.
      assert (E1 : (y - y1 <? y2 + 1 - y1)%nat = true)
        by (apply Nat.ltb_lt; lia).
      assert (E2 : (x - x1 <? x2 + 1 - x1)%nat = true)
        by (apply Nat.ltb_lt; lia).
      now rewrite E1, E2. }
    assert (Hho : (0 < length out)%nat) by lia.
    assert (Hwo : (0 < x2 + 1 - x1)%nat) by lia.
    destruct (crop_panorama_cases gray threshold Hho Hwo Hro)
      as [[Hdark _]|(y1' & y2' & x1' & x2' & Hc' & Hall' & (xa' & Ha')
                     & (xb' & Hb') & (yc' & Hcc') & (yd' & Hd'))].
    + pose proof (Bright y1 xa ltac:(lia) ltac:(lia) Ha) as Hbr.
      rewrite Hdark in Hbr. discriminate.
    + pose proof (Hall' _ _ (Bright y1 xa ltac:(lia) ltac:(lia) Ha)) as [Ta _].
      pose proof (Hall' _ _ (Bright y2 xb ltac:(lia) ltac:(lia) Hb)) as [Tb _].
      pose proof (Hall' _ _ (Bright yc x1 ltac:(lia) ltac:(lia) Hcc)) as [_ Tc].
      pose proof (Hall' _ _ (Bright yd x2 ltac:(lia) ltac:(lia) Hd)) as [_ Td].
      destruct (@bright_at_in_range _ gray threshold _ _ _ _ Hro Hb')
        as [Sb _].
      destruct (@bright_at_in_range _ gray threshold _ _ _ _ Hro Hd')
        as [_ Sd].
      assert (E1 : y1' = 0%nat) by lia.
      assert (E2 : (y2' + 1 = length out)%nat) by lia.
      assert (E3 : x1' = 0%nat) by lia.
      assert (E4 : (x2' + 1 = x2 + 1 - x1)%nat) by lia.
      rewrite Hc', E1, E2, E3, E4, slice_whole. f_equal.
      apply map_fixed. eapply Forall_impl; [|exact Hro].
      intros row <-. apply slice_whole.
Qed.

End CropTwice.

(** ** Pipeline: the stages together *)

Section PipelineStages.
Context {F : Type} `{Arith F} `{Rounding F}.
Context {pixel feat dmatch rng : Type}.
Variable warp_cylindrical : image pixel -> F -> image pixel.
Variable extract_sift_features : image pixel -> feat.
Variable match_features : feat -> feat -> F -> list dmatch.
Variable extract_match_points :
  feat -> feat -> list dmatch -> list (F * F) * list (F * F).
Variable randint : rng -> nat -> nat * rng.
Variable render : list (image pixel) -> composite -> image pixel.
Variable gray : pixel -> Z.

(** Entry [k] of the list step 4 builds is about the pair [(k, k + 1)]. *)
Lemma match_and_align_loop_pairs (cfg : config F) feats :
  forall i g k r,
    nth_error
      (fst (fst (match_and_align_loop match_features extract_match_points
                   randint cfg i feats g))) k = Some r ->
    pair r = ((i + k)%nat, S (i + k)).
Proof.
  induction feats as [|fa tl IH]; intros i g k r.
  - simpl. destruct k; discriminate.
  - destruct tl as [|fb tl'].
    + simpl. destruct k; discriminate.
    + rewrite match_and_align_loop_step. cbv zeta.
      destruct (length (match_features fa fb (match_ratio_threshold cfg)) <? 4)%nat.
      * specialize (IH (S i) g).
        destruct (match_and_align_loop match_features extract_match_points
                    randint cfg (S i) (fb :: tl') g) as [[recs warns] g'].
        cbn [fst snd] in *. destruct k as [|k]; cbn [nth_error].
        -- intros [= <-]. cbn. now rewrite Nat.add_0_r.
        -- intros Hk. rewrite (IH k r Hk). f_equal; lia.
      * destruct (extract_match_points fa fb _) as [pts1 pts2].
        destruct (estimate_pure_translation_ransac randint pts1 pts2 _ _ g)
          as [res g1].
        specialize (IH (S i) g1).
        destruct (match_and_align_loop match_features extract_match_points
                    randint cfg (S i) (fb :: tl') g1) as [[recs warns] g'].
        cbn [fst snd] in *. destruct k as [|k]; cbn [nth_error].
        -- intros [= <-]. cbn. now rewrite Nat.add_0_r.
        -- intros Hk. rewrite (IH k r Hk). f_equal; lia.
Qed.

(** The loop reads three fields of the configuration. *)
Lemma match_and_align_loop_ext (cfg cfg' : config F) feats :
  match_ratio_threshold cfg' = match_ratio_threshold cfg ->
  ransac_threshold cfg' = ransac_threshold cfg ->
  ransac_max_iters cfg' = ransac_max_iters cfg ->
  forall i g,
    match_and_align_loop match_features extract_match_points randint
      cfg' i feats g
    = match_and_align_loop match_features extract_match_points randint
        cfg i feats g.
Proof.
  intros E1 E2 E3.
  induction feats as [|fa tl IH]; intros i g; [reflexivity|].
  destruct tl as [|fb tl']; [reflexivity|].
  rewrite !match_and_align_loop_step. cbv zeta. rewrite E1, E2, E3.
  destruct (length (match_features fa fb (match_ratio_threshold cfg)) <? 4)%nat.
  - now rewrite IH.
  - destruct (extract_match_points fa fb _) as [pts1 pts2].
    destruct (estimate_pure_translation_ransac randint pts1 pts2 _ _ g)
      as [res g1].
    now rewrite IH.
Qed.

End PipelineStages.

Section PipelineWhole.
Context {F : Type} `{Arith F} `{Rounding F}.
Context {pixel feat dmatch rng : Type}.
Variable warp_cylindrical : image pixel -> F -> image pixel.
Variable extract_sift_features : image pixel -> feat.
Variable match_features : feat -> feat -> F -> list dmatch.
Variable extract_match_points :
  feat -> feat -> list dmatch -> list (F * F) * list (F * F).
Variable randint : rng -> nat -> nat * rng.
Variable render : list (image pixel) -> composite -> image pixel.
Variable gray : pixel -> Z.

(** X23.  When steps 2 to 6 end normally on at least one image: there is
    one projection per loaded image and one pairwise record less, record
    [k] is about the pair [(k, k + 1)], and the accumulator turns the
    records into exactly one offset per projection, every one with
    horizontal component 0; so the compositor's [zip] drops no image. *)
Theorem every_projection_gets_one_offset
        (cfg : config F) (st st' : stitcher F pixel feat rng) :
  run_to_drift warp_cylindrical extract_sift_features match_features
    extract_match_points randint cfg st = Ok st' ->
  images_data st <> [] ->
  let offsets :=
    compute_cumulative_translations
      (map (fun t => pair_translation t) (translations st')) in
  length (warped_images st') = length (images_data st)
  /\ length (translations st') = pred (length (images_data st))
  /\ length offsets = length (warped_images st')
  /\ (forall k r, nth_error (translations st') k = Some r ->
        pair r = (k, S k))
  /\ Forall (fun o => fst o = fzero) offsets.
Proof.
  intros Hrun Hne offsets.
  destruct (run_to_drift_state _ _ _ _ _ _ _ Hrun) as (Hw & Ht & _).
  destruct (aligned_state warp_cylindrical extract_sift_features
              match_features extract_match_points randint cfg st)
    as (Aw & Af & At).
  rewrite Hw, Aw, Ht. rewrite length_map.
  assert (Hlen : length (translations
                           (_match_and_align match_features
                              extract_match_points randint cfg
                              (_extract_features extract_sift_features
                                 (_warp_images warp_cylindrical st))))
                 = pred (length (images_data st))).
  { pose proof (match_and_align_spec match_features extract_match_points
                  randint cfg
                  (_extract_features extract_sift_features
                     (_warp_images warp_cylindrical st))) as [Hl _].
    rewrite Hl. cbn [_extract_features _warp_images features warped_images].
    now rewrite !length_map. }
  refine (conj eq_refl (conj Hlen (conj _ (conj _ _)))).
  - subst offsets. unfold compute_cumulative_translations.
    cbn [length]. rewrite cumulative_loop_length, length_map, Ht, Hlen.
    destruct (images_data st); [contradiction | reflexivity].
  - intros k r Hk. rewrite At in Hk.
    apply match_and_align_loop_pairs in Hk. exact Hk.
  - subst offsets. unfold compute_cumulative_translations.
    constructor; [reflexivity | apply cumulative_loop_x].
Qed.

(** X25.  Two configurations that agree on the matching, estimation and
    blending settings produce the same panorama, whatever their
    [enable_drift_correction] flags: when [run] returns under one of them
    it returns under the other, with the same final image.  Enabling drift
    correction changes the stored focal length at most, never a pixel. *)
Theorem drift_correction_never_changes_the_panorama
        (cfg cfg' : config F) (st st1 : stitcher F pixel feat rng)
        (panorama : image pixel) :
  match_ratio_threshold cfg' = match_ratio_threshold cfg ->
  ransac_threshold cfg' = ransac_threshold cfg ->
  ransac_max_iters cfg' = ransac_max_iters cfg ->
  blend_method cfg' = blend_method cfg ->
  run warp_cylindrical extract_sift_features match_features
    extract_match_points randint render gray cfg st = Ok (st1, panorama) ->
  exists st2,
    run warp_cylindrical extract_sift_features match_features
      extract_match_points randint render gray cfg' st = Ok (st2, panorama).
Proof.
  intros E1 E2 E3 E4 Hrun. unfold run in Hrun |- *.
  destruct (run_to_drift warp_cylindrical extract_sift_features
              match_features extract_match_points randint cfg st)
    as [sa|e] eqn:Ha; [|discriminate].
  cbn [bind] in Hrun.
  destruct (run_to_drift_state _ _ _ _ _ _ _ Ha) as (Hw & Ht & Hf).
  set (aligned := _match_and_align match_features extract_match_points
                    randint cfg
                    (_extract_features extract_sift_features
                       (_warp_images warp_cylindrical st))) in *.
  assert (Hal : _match_and_align match_features extract_match_points
                  randint cfg'
                  (_extract_features extract_sift_features
                     (_warp_images warp_cylindrical st)) = aligned).
  { subst aligned. unfold _match_and_align.
    now rewrite (match_and_align_loop_ext match_features
                   extract_match_points randint cfg cfg' _ E1 E2 E3). }
  assert (Hblend : forall sb : stitcher F pixel feat rng,
             warped_images sb = warped_images aligned ->
             translations sb = translations aligned ->
             _blend_images render cfg' sb = _blend_images render cfg sa).
  { intros sb Hwb Htb. unfold _blend_images.
    now rewrite Hwb, Htb, Hw, Ht, E4. }
  destruct (_blend_images render cfg sa) as [pano|e] eqn:Hb; [|discriminate].
  cbn [bind] in Hrun.
  assert (Hsb : exists sb : stitcher F pixel feat rng,
             run_to_drift warp_cylindrical extract_sift_features
               match_features extract_match_points randint cfg' st = Ok sb
             /\ warped_images sb = warped_images aligned
             /\ translations sb = translations aligned).
  { unfold run_to_drift. rewrite Hal.
    destruct (enable_drift_correction cfg'); [|exists aligned; auto].
    assert (Hwne : warped_images aligned <> []).
    { intros Hnil. unfold _blend_images in Hb. rewrite Hw, Hnil in Hb.
      cbn in Hb. discriminate. }
    assert (Hfne : features aligned <> []).
    { destruct (aligned_state warp_cylindrical extract_sift_features
                  match_features extract_match_points randint cfg st)
        as (Aw & Af & _).
      fold aligned in Aw, Af. rewrite Af, <- Aw.
      destruct (warped_images aligned); [contradiction | discriminate]. }
    destruct (apply_drift_returns match_features extract_match_points
                randint cfg' aligned Hfne Hwne) as [sb Hsb].
    exists sb. split; [exact Hsb|].
    apply apply_drift_keeps_projections in Hsb.
    destruct Hsb as (H1 & _ & _ & H4). auto. }
  destruct Hsb as (sb & Hrb & Hwb & Htb).
  rewrite Hrb. cbn [bind]. rewrite (Hblend sb Hwb Htb). cbn [bind].
  destruct (_crop_and_save gray pano) as [final|e]; [|discriminate].
  cbn [bind] in Hrun |- *. injection Hrun as _ <-.
  exists sb. reflexivity.
Qed.

End PipelineWhole.

(** X24.  When [load_images] returns no image, [run] never returns a
    panorama, whatever the configuration: step 1 raises [IndexError] when
    no focal length is configured and the source is ["exif"]; otherwise
    step 6 raises [IndexError] when drift correction is enabled; and
    otherwise the compositor raises [ValueError]. *)
Theorem run_without_images_raises
        (F : Type) (A : Arith F) (Rd : Rounding F) (T : Truth F)
        (pixel feat dmatch rng : Type)
        (warp_cylindrical : image pixel -> F -> image pixel)
        (extract_sift_features : image pixel -> feat)
        (match_features : feat -> feat -> F -> list dmatch)
        (extract_match_points :
           feat -> feat -> list dmatch -> list (F * F) * list (F * F))
        (randint : rng -> nat -> nat * rng)
        (render : list (image pixel) -> composite -> image pixel)
        (gray : pixel -> Z)
        (lcfg : load_config F) (cfg : config F) (g : rng) :
  PanoramaStitcher_run warp_cylindrical extract_sift_features match_features
    extract_match_points randint render gray lcfg cfg [] g
  = Raises
      (Builtin
         (if match cli_focal_length lcfg with
             | Some _ => false
             | None => String.eqb (focal_length_source lcfg) "exif"
             end
          then IndexError
          else if enable_drift_correction cfg then IndexError
               else ValueError)).
Proof.
  unfold PanoramaStitcher_run, _load_images.
  assert (Hrun : forall f,
             run warp_cylindrical extract_sift_features match_features
               extract_match_points randint render gray cfg
               (loaded_stitcher [] f g)
             = Raise (if enable_drift_correction cfg
                      then IndexError else ValueError)).
  { intros f. unfold run, run_to_drift, _match_and_align.
    cbn [loaded_stitcher map _extract_features _warp_images features
         np_random warped_images images_data match_and_align_loop].
    destruct (enable_drift_correction cfg); reflexivity. }
  destruct (cli_focal_length lcfg) as [f|]; cbn [and_then fst].
  - rewrite Hrun. destruct (enable_drift_correction cfg); reflexivity.
  - destruct (String.eqb (focal_length_source lcfg) "exif");
      cbn [and_then fst]; [reflexivity|].
    rewrite Hrun. destruct (enable_drift_correction cfg); reflexivity.
Qed.

(** X26.  In real arithmetic, with drift correction disabled and any of the
    three blending methods: stitching a single image whose cylindrical
    projection is a rectangular, non-empty [uint8] image returns that
    projection, trimmed by [crop_panorama] with the default threshold. *)
Theorem stitching_one_image_returns_its_trimmed_projection
        (feat dmatch rng : Type)
        (warp_cylindrical : image bgr -> R -> image bgr)
        (extract_sift_features : image bgr -> feat)
        (match_features : feat -> feat -> R -> list dmatch)
        (extract_match_points :
           feat -> feat -> list dmatch -> list (R * R) * list (R * R))
        (randint : rng -> nat -> nat * rng) (gray : bgr -> Z)
        (cfg : config R) (st : stitcher R bgr feat rng)
        (img : image bgr) (w : nat) :
  images_data st = [img] ->
  enable_drift_correction cfg = false ->
  (blend_method cfg = "average" \/ blend_method cfg = "linear"
   \/ blend_method cfg = "multiband")%string ->
  let projected := warp_cylindrical img (focal_length st) in
  (0 < length projected)%nat -> (0 < w)%nat ->
  Forall (fun row => length row = w) projected ->
  Forall (Forall uint8) projected ->
  exists st' final,
    run warp_cylindrical extract_sift_features match_features
      extract_match_points randint (render_average (F := R)) gray cfg st
    = Ok (st', final)
    /\ crop_panorama gray projected default_threshold = Ok final.
Proof.
  intros Himg Hoff Hmethod projected Hh Hw Hrect Hu.
  unfold run, run_to_drift. rewrite Hoff. cbn [bind].
  unfold _match_and_align.
  cbn [_extract_features _warp_images features np_random warped_images].
  rewrite Himg. cbn [map match_and_align_loop]. fold projected.
  unfold _blend_images. cbn [translations warped_images map].
  assert (Hblend : blend_images [projected]
                     (compute_cumulative_translations (@nil (R * R)))
                     (blend_method cfg)
                   = blend_average [projected] [((fzero, fzero) : R * R)]).
  { unfold blend_images, blend_linear.
    destruct Hmethod as [-> | [-> | ->]]; reflexivity. }
  rewrite Hblend,
    (blend_average_single_R ((fzero, fzero) : R * R) Hh Hw Hrect).
  cbn [bind]. rewrite (render_average_single_R Hrect Hu).
  unfold _crop_and_save.
  destruct (crop_panorama_cases gray default_threshold Hh Hw Hrect)
    as [[_ Hc]|(y1 & y2 & x1 & x2 & Hc & _)]; rewrite Hc; cbn [bind];
    eexists; eexists; split; reflexivity.
Qed.

(** ** Compositor: the canvas of a vertical strip *)

Lemma In_combine_of_In {A B} (l1 : list A) (l2 : list B) a :
  length l2 = length l1 -> In a l1 -> exists b, In (a, b) (combine l1 l2).
Proof.
  revert l2; induction l1 as [|x l1 IH]; intros [|y l2] Hl Hin;
    simpl in *; try contradiction; try discriminate.
  destruct Hin as [<-|Hin].
  - exists y. left; reflexivity.
  - destruct (IH l2 ltac:(lia) Hin) as [b Hb]. exists b. right; exact Hb.
Qed.

(** X27.  In real arithmetic, when every image has an offset and all
    offsets have horizontal component 0 (as those of the accumulator do),
    the canvas is exactly as wide as the widest image. *)
Theorem canvas_of_a_vertical_strip_is_as_wide_as_the_widest_image
        (pixel : Type) (images : list (image pixel))
        (translations : list (R * R)) (c : composite) :
  images <> [] ->
  length translations = length images ->
  Forall (fun t => fst t = 0%R) translations ->
  blend_average images translations = Ok c ->
  (forall img, In img images ->
     (Z.of_nat (snd (shape img)) <= canvas_width c)%Z)
  /\ exists img,
      In img images /\ canvas_width c = Z.of_nat (snd (shape img)).
Proof.
  intros Hne Hlen Hzero Hc.
  assert (Hcomb : combine images translations <> []).
  { destruct images as [|i0 images'], translations as [|t0 ts'];
      simpl in *; try contradiction; discriminate. }
  destruct (blend_average_R images translations Hcomb)
    as (min_x & max_x & min_y & max_y & ps & Hb & Ht & Hc' & _).
  destruct Ht as (Hin & (i1 & Hi1 & E1) & (i2 & Hi2 & E2) & _).
  assert (Hx0 : forall it, In it (combine images translations) ->
                           fst (snd it) = 0%R).
  { intros [img t] Hit. apply in_combine_r in Hit.
    rewrite Forall_forall in Hzero. apply (Hzero t Hit). }
  assert (Hmin : min_x = 0%R) by (rewrite <- E1; apply Hx0; exact Hi1).
  assert (Hmax : max_x = item_w i2) by (rewrite <- E2, (Hx0 _ Hi2); ring).
  assert (Hcw : canvas_width c = Z.of_nat (snd (shape (fst i2)))).
  { rewrite Hc' in Hc. injection Hc as <-. cbn [canvas_width].
    rewrite Hmin, Hmax. unfold item_w.
    replace (IZR (Z.of_nat (snd (shape (fst i2)))) - 0)%R
      with (IZR (Z.of_nat (snd (shape (fst i2))))) by ring.
    apply Rceil_IZR. }
  split.
  - intros img Himg.
    destruct (In_combine_of_In images translations img Hlen Himg) as [t Hit].
    destruct (Hin _ Hit) as (_ & Hle & _).
    rewrite (Hx0 _ Hit), Hmax in Hle. unfold item_w in Hle.
    cbn [fst] in Hle. rewrite Hcw. apply le_IZR. lra.
  - exists (fst i2). split; [|exact Hcw].
    destruct i2 as [img t]. apply in_combine_l in Hi2. exact Hi2.
Qed.

(** ** Robust translation estimator: the draws *)

Lemma ransac_loop_advance {F : Type} `{Arith F} {rng : Type}
      (randint : rng -> nat -> nat * rng) (pts1 pts2 : list (F * F))
      (threshold : F) (iters : nat) :
  forall g b,
    snd (ransac_loop randint pts1 pts2 threshold iters g b)
    = advance randint (length pts1) iters g.
Proof.
  induction iters as [|iters IH]; intros g b; [reflexivity|].
  cbn [ransac_loop advance].
  destruct (randint g (length pts1)) as [idx g']. cbn [snd]. apply IH.
Qed.

(** X28.  The estimator draws from the generator exactly [max_iters]
    times, each time below the number of point pairs, whatever the points
    and the threshold; given no point pair it draws nothing.  The state in
    which it leaves the generator does not depend on the data. *)
Theorem estimator_draws_max_iters_times
        (F : Type) (A : Arith F) (rng : Type)
        (randint : rng -> nat -> nat * rng) (pts1 pts2 : list (F * F))
        (threshold : F) (max_iters : nat) (g : rng) :
  snd (estimate_pure_translation_ransac randint pts1 pts2 threshold
         max_iters g)
  = match pts1 with
    | [] => g
    | _ => advance randint (length pts1) max_iters g
    end.
Proof.
  destruct pts1 as [|p rest] eqn:Hp; [reflexivity|].
  rewrite <- Hp. unfold estimate_pure_translation_ransac.
  assert (Hn : (length pts1 <? 1)%nat = false)
    by (subst pts1; reflexivity).
  rewrite Hn.
  pose proof (ransac_loop_advance randint pts1 pts2 threshold max_iters g
                (initial_best (length pts1))) as Hadv.
  destruct (ransac_loop randint pts1 pts2 threshold max_iters g
              (initial_best (length pts1))) as [b g'].
  exact Hadv.
Qed.

(** ** The further properties on worked inputs *)

(** Ratios 0.4 and 0.8 on the worked neighbour lists: the nearest
    neighbour at distance 1 fails [1 < 0.4 * 2] and passes [1 < 0.8 * 2]. *)
Lemma match_features_grows_with_the_ratio_witness :
  (forall a b,
      Forall (Forall (fun m => (0 <= distance m)%R)) (ex_knnMatch a b)
      /\ Forall (Forall (fun m => (0 <= distance m)%R)) (ex_knnMatch a b))
  /\ (2 / 5 <= 4 / 5)%R
  /\ subsequence
       (match_features ex_knnMatch ex_knnMatch (Some tt) (Some tt)
          (2 / 5)%R true)
       (match_features ex_knnMatch ex_knnMatch (Some tt) (Some tt)
          (4 / 5)%R true).
Proof.
  assert (Hpos : forall a b,
             Forall (Forall (fun m => (0 <= distance m)%R)) (ex_knnMatch a b)
             /\ Forall (Forall (fun m => (0 <= distance m)%R))
                  (ex_knnMatch a b)).
  { intros a b. split; repeat constructor; cbn; lra. }
  assert (Hr : (2 / 5 <= 4 / 5)%R) by lra.
  exact (conj Hpos
           (conj Hr
              (@match_features_grows_with_the_ratio unit ex_knnMatch
                 ex_knnMatch (Some tt) (Some tt) (2 / 5)%R (4 / 5)%R true
                 Hpos Hr))).
Defined.

(** A 50 mm lens, 75 mm in 35 mm equivalent, on an image 360 pixels wide:
    [75 * 360 / 36] pixels. *)
Lemma exif_estimate_from_35mm_equivalent_witness :
  lookup "FocalLengthValue" ex_exif = Some 50%R
  /\ lookup "FocalLengthIn35mmFilm" ex_exif = Some 75%R
  /\ 50%R <> 0%R
  /\ (0 < 75)%R
  /\ estimate_focal_length_from_exif ex_exif 360 None
     = Returns (Some (75 * IZR (Z.of_nat 360) / 36)%R).
Proof.
  assert (H1 : lookup "FocalLengthValue" ex_exif = Some 50%R) by reflexivity.
  assert (H2 : lookup "FocalLengthIn35mmFilm" ex_exif = Some 75%R)
    by reflexivity.
  assert (H3 : 50%R <> 0%R) by lra.
  assert (H4 : (0 < 75)%R) by lra.
  exact (conj H1 (conj H2 (conj H3 (conj H4
           (@exif_estimate_from_35mm_equivalent ex_exif 360 50%R 75%R
              H1 H2 H3 H4))))).
Defined.

(** The EXIF source in binary64, default 800: the estimate
    [50 * (2 / (36 / (75 / 50)))] is used and it is not zero. *)
Lemma load_images_focal_length_is_never_zero_witness :
  ftruthy (default_focal_length ex_load_config) = true
  /\ exists f m,
      _load_images ex_load_config ex_loaded_images = Returns (f, m)
      /\ ftruthy f = true
      /\ meta_focal_length m = f
      /\ meta_num_images m = 1%nat.
Proof.
  assert (Hd : ftruthy (default_focal_length ex_load_config) = true)
    by (vm_compute; reflexivity).
  split; [exact Hd|].
  destruct (_load_images ex_load_config ex_loaded_images) as [[f m]|e] eqn:Hl;
    [|vm_compute in Hl; discriminate].
  exists f, m. split; [reflexivity|].
  exact (@load_images_focal_length_is_never_zero float _ _ unit
           ex_load_config ex_loaded_images f m Hd Hl).
Defined.

(** A 3x1 image and an image without columns, in binary64: two decisions,
    the first one a placement that fits. *)
Lemma blend_average_places_inside_canvas_and_image_witness :
  let images := [column 3; [[]; []]] in
  let c := {| canvas_width := 5; canvas_height := 3;
              placements := [Placed 0 0 0 3 1; Skipped 1] |} in
  blend_average images [(0, 0); (5, 1)]%float = Ok c
  /\ length (placements c) = 2%nat
  /\ placement_fits images 5 3 (Placed 0 0 0 3 1).
Proof.
  intros images c.
  assert (Hc : blend_average images [(0, 0); (5, 1)]%float = Ok c)
    by (vm_compute; reflexivity).
  destruct (@blend_average_places_inside_canvas_and_image float _ _ float
              images [(0, 0); (5, 1)]%float c Hc) as [Hl Hp].
  split; [exact Hc|]. split; [exact Hl|].
  exact (proj2 (Hp 0%nat (Placed 0 0 0 3 1) eq_refl)).
Defined.

(** The two overlapping one-row images in binary64: on the middle column
    the pixels (40, 50, 60) and (20, 40, 61) give (30, 45, 60). *)
Lemma blend_average_pixel_depends_on_the_pixels_placed_on_it_witness :
  Forall rectangular ex_overlap_images
  /\ blend_average ex_overlap_images ex_overlap_offsets = Ok ex_overlap_canvas
  /\ (0 < Z.to_nat (canvas_height ex_overlap_canvas))%nat
  /\ (1 < Z.to_nat (canvas_width ex_overlap_canvas))%nat
  /\ exists panorama,
      blend_average_image ex_overlap_images ex_overlap_offsets = Ok panorama
      /\ nth 1 (nth 0 panorama []) (0, 0, 0)%Z = (30, 45, 60)%Z.
Proof.
  assert (Hrect : Forall rectangular ex_overlap_images)
    by (repeat constructor).
  assert (Hc : blend_average ex_overlap_images ex_overlap_offsets
               = Ok ex_overlap_canvas) by (vm_compute; reflexivity).
  assert (Hy : (0 < Z.to_nat (canvas_height ex_overlap_canvas))%nat)
    by (simpl; lia).
  assert (Hx : (1 < Z.to_nat (canvas_width ex_overlap_canvas))%nat)
    by (simpl; lia).
  refine (conj Hrect (conj Hc (conj Hy (conj Hx _)))).
  destruct (@blend_average_pixel_depends_on_the_pixels_placed_on_it
              float _ _ _ ex_overlap_images ex_overlap_offsets
              ex_overlap_canvas 0 1 Hrect Hc Hy Hx)
    as (panorama & Hp & Hn).
  exists panorama. split; [exact Hp|].
  rewrite Hn. vm_compute. reflexivity.
Defined.

(** The two one-pixel images in binary64: the column between them is
    black. *)
Lemma canvas_cell_that_no_image_covers_is_black_witness :
  (fzero <! fzero) = false
  /\ ftrunc (fzero : float) = 0%Z
  /\ Forall rectangular ex_gap_images
  /\ blend_average ex_gap_images ex_gap_offsets = Ok ex_gap_canvas
  /\ (0 < Z.to_nat (canvas_height ex_gap_canvas))%nat
  /\ (1 < Z.to_nat (canvas_width ex_gap_canvas))%nat
  /\ (forall p, In p (placements ex_gap_canvas) ->
        pixel_under ex_gap_images p 0 1 = None)
  /\ exists panorama,
      blend_average_image ex_gap_images ex_gap_offsets = Ok panorama
      /\ nth 1 (nth 0 panorama []) (0, 0, 0)%Z = (0, 0, 0)%Z.
Proof.
  assert (Hlt : ((fzero : float) <! fzero) = false)
    by (vm_compute; reflexivity).
  assert (Htr : ftrunc (fzero : float) = 0%Z) by (vm_compute; reflexivity).
  assert (Hrect : Forall rectangular ex_gap_images) by (repeat constructor).
  assert (Hc : blend_average ex_gap_images ex_gap_offsets = Ok ex_gap_canvas)
    by (vm_compute; reflexivity).
  assert (Hy : (0 < Z.to_nat (canvas_height ex_gap_canvas))%nat)
    by (simpl; lia).
  assert (Hx : (1 < Z.to_nat (canvas_width ex_gap_canvas))%nat)
    by (simpl; lia).
  assert (Hnone : forall p, In p (placements ex_gap_canvas) ->
                            pixel_under ex_gap_images p 0 1 = None).
  { intros p [<-|[<-|[]]]; reflexivity. }
  exact (conj Hlt (conj Htr (conj Hrect (conj Hc (conj Hy (conj Hx
           (conj Hnone
              (@canvas_cell_that_no_image_covers_is_black float _ _ _
                 ex_gap_images ex_gap_offsets ex_gap_canvas 0 1
                 Hlt Htr Hrect Hc Hy Hx Hnone)))))))).
Defined.

(** The two overlapping one-row images in real arithmetic: on the middle
    column (30, 45, 60), the quotients of 60, 90 and 121 by 2. *)
Lemma blend_average_pixel_is_the_integer_mean_of_the_non_black_pixels_witness :
  Forall rectangular ex_overlap_images
  /\ Forall (Forall (Forall uint8)) ex_overlap_images
  /\ Forall (placement_fits ex_overlap_images
               (canvas_width ex_overlap_canvas)
               (canvas_height ex_overlap_canvas))
            (placements ex_overlap_canvas)
  /\ (0 < Z.to_nat (canvas_height ex_overlap_canvas))%nat
  /\ (1 < Z.to_nat (canvas_width ex_overlap_canvas))%nat
  /\ nth 1 (nth 0 (render_average (F := R) ex_overlap_images
                     ex_overlap_canvas) []) (0, 0, 0)%Z
     = (30, 45, 60)%Z.
Proof.
  assert (Hrect : Forall rectangular ex_overlap_images)
    by (repeat constructor).
  assert (Hu : Forall (Forall (Forall uint8)) ex_overlap_images)
    by (repeat constructor; cbn; lia).
  assert (Hfit : Forall (placement_fits ex_overlap_images
                           (canvas_width ex_overlap_canvas)
                           (canvas_height ex_overlap_canvas))
                        (placements ex_overlap_canvas))
    by (repeat constructor; cbn; lia).
  assert (Hy : (0 < Z.to_nat (canvas_height ex_overlap_canvas))%nat)
    by (simpl; lia).
  assert (Hx : (1 < Z.to_nat (canvas_width ex_overlap_canvas))%nat)
    by (simpl; lia).
  refine (conj Hrect (conj Hu (conj Hfit (conj Hy (conj Hx _))))).
  pose proof (@blend_average_pixel_is_the_integer_mean_of_the_non_black_pixels
                ex_overlap_images ex_overlap_canvas 0 1
                Hrect Hu Hfit Hy Hx) as Hm.
  cbv zeta in Hm. rewrite Hm. vm_compute. reflexivity.
Defined.

(** The chain (0, -10), (5, -10): the third offset is
    [(0, -(-10 + (-10 + 0)))]. *)
Lemma cumulative_offset_is_the_negated_sum_of_the_steps_before_witness :
  (2 <= length [(0, -10); (5, -10)]%R)%nat
  /\ nth 2 (compute_cumulative_translations [(0, -10); (5, -10)]%R) (0, 0)%R
     = (0, - (-10 + (-10 + 0)))%R.
Proof.
  assert (Hi : (2 <= length [(0, -10); (5, -10)]%R)%nat) by (simpl; lia).
  exact (conj Hi
           (@cumulative_offset_is_the_negated_sum_of_the_steps_before
              [(0, -10); (5, -10)]%R 2 Hi)).
Defined.

(** Three correspondences in binary64, two of them displaced by (2, 3):
    the mask has three entries, two of them set. *)
Lemma estimator_mask_and_count_agree_witness :
  let pts1 := [(0, 0); (1, 0); (10, 10)]%float in
  let pts2 := [(2, 3); (3, 3); (0, 0)]%float in
  let res :=
    fst (estimate_pure_translation_ransac counter_randint pts1 pts2
           5%float 3 0%nat) in
  length pts1 = length pts2
  /\ length (inliers res) = 3%nat
  /\ num_inliers res = count_true (inliers res)
  /\ (num_inliers res <= 3)%nat.
Proof.
  intros pts1 pts2 res.
  assert (Hl : length pts1 = length pts2) by reflexivity.
  split; [exact Hl|].
  exact (@estimator_mask_and_count_agree float _ nat counter_randint
           pts1 pts2 5%float 3 0%nat Hl).
Defined.

(** One correspondence from (0, 0) to (3, 4) in real arithmetic. *)
Lemma estimator_inlier_ratio_is_a_fraction_witness :
  length [(0, 0)%R] = length [(3, 4)%R]
  /\ (0 <= inlier_ratio
            (fst (estimate_pure_translation_ransac counter_randint
                    [(0, 0)%R] [(3, 4)%R] 5%R 1 0%nat)) <= 1)%R.
Proof.
  assert (Hl : length [(0, 0)%R] = length [(3, 4)%R]) by reflexivity.
  exact (conj Hl
           (@estimator_inlier_ratio_is_a_fraction nat counter_randint
              [(0, 0)%R] [(3, 4)%R] 5%R 1 0%nat Hl)).
Defined.

(** A gap of 50 pixels at focal length 500. *)
Lemma drift_correction_subtracts_the_gap_over_two_pi_witness :
  500%R <> 0%R
  /\ corrected_focal_length
       (correct_drift []
          {| translation := (0, 50)%R; inliers := [];
             num_inliers := 12; inlier_ratio := 1%R |} 500%R 100)
     = (500 - 50 / (2 * PI))%R.
Proof.
  assert (Hf : 500%R <> 0%R) by lra.
  split; [exact Hf|].
  exact (proj1
           (@drift_correction_subtracts_the_gap_over_two_pi []
              {| translation := (0, 50)%R; inliers := [];
                 num_inliers := 12; inlier_ratio := 1%R |} 500%R 100 Hf)).
Defined.

(** Two points displaced by (3, 4), threshold 5, one draw. *)
Lemma estimator_recovers_a_common_translation_witness :
  (forall g' m, (0 < m)%nat -> (fst (counter_randint g' m) < m)%nat)
  /\ (1 <= length [(0, 0); (1, 2)]%R)%nat
  /\ (1 <= 1)%nat
  /\ (0 < 5)%R
  /\ translation
       (fst (estimate_pure_translation_ransac counter_randint
               [(0, 0); (1, 2)]%R
               (map (fun p => (fst p + 3, snd p + 4)%R) [(0, 0); (1, 2)]%R)
               5%R 1 0%nat))
     = (3, 4)%R.
Proof.
  assert (Hn : (1 <= length [(0, 0); (1, 2)]%R)%nat) by (simpl; lia).
  assert (Hi : (1 <= 1)%nat) by lia.
  assert (Ht : (0 < 5)%R) by lra.
  refine (conj counter_randint_in_range (conj Hn (conj Hi (conj Ht _)))).
  exact (proj1
           (@estimator_recovers_a_common_translation nat counter_randint
              [(0, 0); (1, 2)]%R 3%R 4%R 5%R 1 0%nat
              counter_randint_in_range Hn Hi Ht)).
Defined.

(** The worked canvas with its 10-pixel border. *)
Lemma crop_panorama_is_idempotent_witness :
  (0 < length bordered_example)%nat
  /\ (0 < 21)%nat
  /\ Forall (fun row => length row = 21%nat) bordered_example
  /\ exists out h' w',
      crop_panorama (fun p : Z => p) bordered_example 10 = Ok out
      /\ crop_panorama (fun p : Z => p) out 10 = Ok out
      /\ length out = h' /\ Forall (fun row => length row = w') out
      /\ (0 < h' <= length bordered_example)%nat /\ (0 < w' <= 21)%nat.
Proof.
  assert (Hh : (0 < length bordered_example)%nat) by (vm_compute; lia).
  assert (Hw : (0 < 21)%nat) by lia.
  assert (Hrect : Forall (fun row => length row = 21%nat) bordered_example)
    by (repeat constructor).
  exact (conj Hh (conj Hw (conj Hrect
           (@crop_panorama_is_idempotent Z (fun p : Z => p) 10
              bordered_example 21 Hh Hw Hrect)))).
Defined.

(** Two images of heights 2 and 3 through steps 2 to 6 in binary64: two
    projections, one record, two offsets. *)
Lemma every_projection_gets_one_offset_witness :
  let st := ex_loaded [column 2; column 3] in
  exists st',
    run_to_drift ex_warp ex_features ex_match ex_points counter_randint
      ex_config st = Ok st'
    /\ images_data st <> []
    /\ length (warped_images st') = 2%nat
    /\ length (translations st') = 1%nat
    /\ length (compute_cumulative_translations
                 (map (fun t => pair_translation t) (translations st')))
       = length (warped_images st').
Proof.
  intros st.
  destruct (run_to_drift ex_warp ex_features ex_match ex_points
              counter_randint ex_config st) as [st'|e] eqn:Hrun;
    [|vm_compute in Hrun; discriminate].
  assert (Hne : images_data st <> []) by discriminate.
  exists st'. split; [reflexivity|]. split; [exact Hne|].
  destruct (@every_projection_gets_one_offset float _ float nat nat nat
              ex_warp ex_features ex_match ex_points counter_randint
              ex_config st st' Hrun Hne) as (H1 & H2 & H3 & _).
  exact (conj H1 (conj H2 H3)).
Defined.

(** Two images of height 6 in binary64, where drift correction is applied:
    the run without drift correction returns the same panorama. *)
Lemma drift_correction_never_changes_the_panorama_witness :
  let st := ex_loaded [column 6; column 6] in
  match_ratio_threshold ex_config_no_drift = match_ratio_threshold ex_config
  /\ ransac_threshold ex_config_no_drift = ransac_threshold ex_config
  /\ ransac_max_iters ex_config_no_drift = ransac_max_iters ex_config
  /\ blend_method ex_config_no_drift = blend_method ex_config
  /\ exists st1 st2 panorama,
      run ex_warp ex_features ex_match ex_points counter_randint ex_render
        ex_gray ex_config st = Ok (st1, panorama)
      /\ run ex_warp ex_features ex_match ex_points counter_randint
           ex_render ex_gray ex_config_no_drift st = Ok (st2, panorama).
Proof.
  intros st.
  refine (conj eq_refl (conj eq_refl (conj eq_refl (conj eq_refl _)))).
  destruct (run ex_warp ex_features ex_match ex_points counter_randint
              ex_render ex_gray ex_config st) as [[st1 panorama]|e] eqn:Hrun;
    [|vm_compute in Hrun; discriminate].
  destruct (@drift_correction_never_changes_the_panorama float _ _ float
              nat nat nat ex_warp ex_features ex_match ex_points
              counter_randint ex_render ex_gray ex_config ex_config_no_drift
              st st1 panorama eq_refl eq_refl eq_refl eq_refl Hrun)
    as [st2 Hrun2].
  exists st1, st2, panorama. split; [reflexivity | exact Hrun2].
Defined.

(** The worked strip alone, with a projector that returns its input, the
    method ["linear"] and the blue channel as brightness: the panorama is
    the strip trimmed to its one bright pixel. *)
Lemma stitching_one_image_returns_its_trimmed_projection_witness :
  images_data ex_single = [ex_strip]
  /\ enable_drift_correction ex_config_R = false
  /\ (blend_method ex_config_R = "average"
      \/ blend_method ex_config_R = "linear"
      \/ blend_method ex_config_R = "multiband")%string
  /\ (0 < length ex_strip)%nat
  /\ (0 < 2)%nat
  /\ Forall (fun row => length row = 2%nat) ex_strip
  /\ Forall (Forall uint8) ex_strip
  /\ exists st' final,
      run (fun (img : image bgr) (_ : R) => img) (fun _ => tt)
        (fun (_ _ : unit) (_ : R) => @nil unit)
        (fun (_ _ : unit) (_ : list unit) => (@nil (R * R), @nil (R * R)))
        counter_randint (render_average (F := R)) blue ex_config_R ex_single
      = Ok (st', final)
      /\ crop_panorama blue ex_strip default_threshold = Ok final.
Proof.
  assert (Himg : images_data ex_single = [ex_strip]) by reflexivity.
  assert (Hoff : enable_drift_correction ex_config_R = false) by reflexivity.
  assert (Hm : (blend_method ex_config_R = "average"
                \/ blend_method ex_config_R = "linear"
                \/ blend_method ex_config_R = "multiband")%string)
    by (right; left; reflexivity).
  assert (Hh : (0 < length ex_strip)%nat) by (simpl; lia).
  assert (Hw : (0 < 2)%nat) by lia.
  assert (Hrect : Forall (fun row => length row = 2%nat) ex_strip)
    by (repeat constructor).
  assert (Hu : Forall (Forall uint8) ex_strip)
    by (repeat constructor; cbn; lia).
  exact (conj Himg (conj Hoff (conj Hm (conj Hh (conj Hw (conj Hrect
           (conj Hu
              (@stitching_one_image_returns_its_trimmed_projection
                 unit unit nat (fun (img : image bgr) (_ : R) => img)
                 (fun _ => tt) (fun (_ _ : unit) (_ : R) => @nil unit)
                 (fun (_ _ : unit) (_ : list unit) =>
                    (@nil (R * R), @nil (R * R)))
                 counter_randint blue ex_config_R ex_single ex_strip 2
                 Himg Hoff Hm Hh Hw Hrect Hu)))))))).
Defined.

(** One image two columns wide at offset (0, 0) in real arithmetic. *)
Lemma canvas_of_a_vertical_strip_is_as_wide_as_the_widest_image_witness :
  let images := [ex_strip] in
  let c := {| canvas_width := 2; canvas_height := 1;
              placements := [Placed 0 0 0 1 2] |} in
  images <> []
  /\ length [(0, 0)%R] = length images
  /\ Forall (fun t : R * R => fst t = 0%R) [(0, 0)%R]
  /\ blend_average images [(0, 0)%R] = Ok c
  /\ exists img, In img images /\ canvas_width c = Z.of_nat (snd (shape img)).
Proof.
  intros images c.
  assert (Hne : images <> []) by discriminate.
  assert (Hlen : length [(0, 0)%R] = length images) by reflexivity.
  assert (Hz : Forall (fun t : R * R => fst t = 0%R) [(0, 0)%R])
    by (repeat constructor).
  assert (Hc : blend_average images [(0, 0)%R] = Ok c).
  { apply (@blend_average_single_R bgr ex_strip (0, 0)%R 2);
      [simpl; lia | lia | repeat constructor]. }
  exact (conj Hne (conj Hlen (conj Hz (conj Hc
           (proj2
              (@canvas_of_a_vertical_strip_is_as_wide_as_the_widest_image
                 bgr images [(0, 0)%R] c Hne Hlen Hz Hc)))))).
Defined.
